(** * Trigger flashcards: cue extraction, card building and Anki reconciliation

    A shallow embedding of the extraction functions of [main.ts], of the
    AnkiConnect client ([anki-connect]), of the direct exporter
    ([anki-direct-exporter]) and of [GeminiService.enhanceAllCards].

    Conventions of the embedding.

    - A JavaScript string is the list of its code units.  The embedding covers
      the code units below 256 (Latin-1), one [ascii] each; the character
      classes, the case mappings and the line terminators below are the
      ECMAScript ones restricted to that range.
    - A regular expression of the source is a value of type [regex], run by a
      backtracking matcher with the priorities of ECMAScript (greedy and lazy
      quantifiers, optional groups, anchors, capturing groups).
    - A JavaScript object used as a map ([Record<string, string>]) is a
      [gmap string str].
    - The Anki server is a function from the requests seen so far and the
      current request to a reply; the client threads the request log. *)

From Stdlib Require Import Ascii NArith Lia.
From stdpp Require Import gmap strings list pretty.

(** ** Text *)

Definition str : Type := list ascii.

Definition txt (s : string) : str := Stdlib.Strings.String.list_ascii_of_string s.
Arguments txt s%_string.

Definition code (c : ascii) : N := N_of_ascii c.

Definition in_range (lo hi : N) (c : ascii) : bool :=
  ((lo <=? code c) && (code c <=? hi))%N.

Definition is_char (a c : ascii) : bool := Ascii.eqb a c.
Arguments is_char : simpl never.

(** [\s]: white space and line terminators. *)
Definition is_space (c : ascii) : bool :=
  in_range 9 13 c || is_char " " c || is_char "160" c.

(** [\w] *)
Definition is_word (c : ascii) : bool :=
  in_range 65 90 c || in_range 97 122 c || in_range 48 57 c || is_char "_" c.

(** [\d] *)
Definition is_digit (c : ascii) : bool := in_range 48 57 c.

(** Line terminators: what [.] refuses and where multiline anchors hold. *)
Definition is_line_terminator (c : ascii) : bool :=
  is_char "010" c || is_char "013" c.

(** [.] *)
Definition dot (c : ascii) : bool := negb (is_line_terminator c).

(** [[\s\S]] *)
Definition any_char (c : ascii) : bool := is_space c || negb (is_space c).

Definition is_upper (c : ascii) : bool :=
  in_range 65 90 c || (in_range 192 222 c && negb (is_char "215" c)).

Definition is_lower (c : ascii) : bool :=
  in_range 97 122 c || (in_range 224 254 c && negb (is_char "247" c)).

Definition lower_char (c : ascii) : ascii :=
  if is_upper c then ascii_of_N (code c + 32) else c.

(** The case folding of the [i] flag (Canonicalize without the [u] flag):
    the upper-case mapping when it is a single code unit.  The two Latin-1
    letters whose upper case lies beyond Latin-1 (255 and 181) are kept: no
    other code unit of the range shares their image. *)
Definition canonicalize (c : ascii) : ascii :=
  if is_lower c then ascii_of_N (code c - 32) else c.

Definition toLowerCase (s : str) : str := map lower_char s.

Fixpoint startsWith (p s : str) : bool :=
  match p, s with
  | [], _ => true
  | a :: p', b :: s' => is_char a b && startsWith p' s'
  | _ :: _, [] => false
  end.

(** [s.includes(p)] *)
Fixpoint includes (p s : str) : bool :=
  startsWith p s || match s with [] => false | _ :: s' => includes p s' end.

(** [s.split(sep)] for a separator of one code unit. *)
Fixpoint split (sep : ascii) (s : str) : list str :=
  match s with
  | [] => [[]]
  | c :: s' =>
      if is_char sep c then [] :: split sep s'
      else match split sep s' with
           | l :: ls => (c :: l) :: ls
           | [] => [[c]]
           end
  end.

Fixpoint trimStart (s : str) : str :=
  match s with
  | c :: s' => if is_space c then trimStart s' else s
  | [] => []
  end.

Definition trimEnd (s : str) : str := rev (trimStart (rev s)).

Definition trim (s : str) : str := trimEnd (trimStart s).

(** [lines.findIndex(line => line.includes(target))], [None] for -1. *)
Fixpoint findIndex {A} (f : A -> bool) (l : list A) : option nat :=
  match l with
  | [] => None
  | a :: l' => if f a then Some 0 else S <$> findIndex f l'
  end.

(** ** Regular expressions *)

Inductive regex : Type :=
| Eps
| Chr (p : ascii -> bool)
| Cat (r1 r2 : regex)
| Opt (r : regex)
| Rep (p : ascii -> bool) (greedy : bool) (lo : nat) (hi : option nat)
| Bol
| Eol
| Grp (n : nat) (r : regex).

Record cursor : Type := Cursor {
  seen : str;               (* the input before the position, latest first *)
  rest : str;               (* the input from the position on *)
  groups : gmap nat str     (* the captures so far *)
}.

Definition seq (rs : list regex) : regex := foldr Cat Eps rs.

(** The characters of a pattern taken literally, under the [i] flag or not. *)
Definition lit (s : str) : regex := seq (map (fun a => Chr (is_char a)) s).

Definition lit_i (s : str) : regex :=
  seq (map (fun a => Chr (fun c => is_char (canonicalize a) (canonicalize c))) s).

Definition star (p : ascii -> bool) : regex := Rep p true 0 None.
Definition plus (p : ascii -> bool) : regex := Rep p true 1 None.
Definition star_lazy (p : ascii -> bool) : regex := Rep p false 0 None.

(** The text matched between two positions of one input. *)
Definition between (x y : cursor) : str :=
  rev (take (length (seen y) - length (seen x)) (seen y)).

Definition at_bol (multiline : bool) (x : cursor) : bool :=
  match seen x with
  | [] => true
  | c :: _ => multiline && is_line_terminator c
  end.

Definition at_eol (multiline : bool) (x : cursor) : bool :=
  match rest x with
  | [] => true
  | c :: _ => multiline && is_line_terminator c
  end.

(** RepeatMatcher for an atom of one character: no iteration is empty. *)
Fixpoint repeat (p : ascii -> bool) (greedy : bool) (lo : nat) (hi : option nat)
    (sn rs : str) (g : gmap nat str) (k : cursor -> option cursor)
    {struct rs} : option cursor :=
  match hi with
  | Some 0 => k (Cursor sn rs g)
  | _ =>
    match lo with
    | S lo' =>
        match rs with
        | c :: rs' =>
            if p c then repeat p greedy lo' (pred <$> hi) (c :: sn) rs' g k
            else None
        | [] => None
        end
    | 0 =>
        if greedy then
          match
            match rs with
            | c :: rs' =>
                if p c then repeat p greedy 0 (pred <$> hi) (c :: sn) rs' g k
                else None
            | [] => None
            end
          with
          | Some z => Some z
          | None => k (Cursor sn rs g)
          end
        else
          match k (Cursor sn rs g) with
          | Some z => Some z
          | None =>
              match rs with
              | c :: rs' =>
                  if p c then repeat p greedy 0 (pred <$> hi) (c :: sn) rs' g k
                  else None
              | [] => None
              end
          end
    end
  end.

(** The matcher of a pattern, in continuation-passing style: [k] is the rest
    of the pattern, and the first success in priority order is the result. *)
Fixpoint run (multiline : bool) (r : regex) (x : cursor)
    (k : cursor -> option cursor) : option cursor :=
  match r with
  | Eps => k x
  | Chr p =>
      match rest x with
      | c :: rs => if p c then k (Cursor (c :: seen x) rs (groups x)) else None
      | [] => None
      end
  | Cat r1 r2 => run multiline r1 x (fun y => run multiline r2 y k)
  | Opt r1 =>
      match run multiline r1 x k with
      | Some z => Some z
      | None => k x
      end
  | Rep p greedy lo hi => repeat p greedy lo hi (seen x) (rest x) (groups x) k
  | Bol => if at_bol multiline x then k x else None
  | Eol => if at_eol multiline x then k x else None
  | Grp n r1 =>
      run multiline r1 x
        (fun y => k (Cursor (seen y) (rest y) (<[n := between x y]> (groups y))))
  end.

(** [regex.exec] from a position: the leftmost start that matches. *)
Fixpoint search (multiline : bool) (r : regex) (sn rs : str)
    : option (cursor * cursor) :=
  match run multiline r (Cursor sn rs ∅) Some with
  | Some y => Some (Cursor sn rs ∅, y)
  | None =>
      match rs with
      | c :: rs' => search multiline r (c :: sn) rs'
      | [] => None
      end
  end.

(** The loop of a global pattern: each match resumes where the previous one
    ended, one code unit further after an empty match. *)
Fixpoint exec_loop (fuel : nat) (multiline : bool) (r : regex) (sn rs : str)
    : list (cursor * cursor) :=
  match fuel with
  | 0 => []
  | S fuel' =>
      match search multiline r sn rs with
      | None => []
      | Some (x, y) =>
          (x, y) ::
          (if decide (length (seen y) = length (seen x)) then
             match rest y with
             | c :: t => exec_loop fuel' multiline r (c :: seen y) t
             | [] => []
             end
           else exec_loop fuel' multiline r (seen y) (rest y))
      end
  end.

(** [s.match(/r/g) || []] *)
Definition match_all (multiline : bool) (r : regex) (s : str) : list str :=
  map (fun m => between m.1 m.2) (exec_loop (S (length s)) multiline r [] s).

(** [s.match(/r/)] without the [g] flag: the first match and its captures. *)
Definition match_first (multiline : bool) (r : regex) (s : str)
    : option (str * gmap nat str) :=
  match search multiline r [] s with
  | Some (x, y) => Some (between x y, groups y)
  | None => None
  end.

(** [s.replace(/r/g, repl)] for a replacement without [$]. *)
Fixpoint replace_loop (fuel : nat) (multiline : bool) (r : regex) (repl : str)
    (sn rs : str) : str :=
  match fuel with
  | 0 => rs
  | S fuel' =>
      match search multiline r sn rs with
      | None => rs
      | Some (x, y) =>
          between (Cursor sn rs ∅) x ++ repl ++
          (if decide (length (seen y) = length (seen x)) then
             match rest y with
             | c :: t => c :: replace_loop fuel' multiline r repl (c :: seen y) t
             | [] => []
             end
           else replace_loop fuel' multiline r repl (seen y) (rest y))
      end
  end.

Definition replace_all (multiline : bool) (r : regex) (repl : str) (s : str) : str :=
  replace_loop (S (length s)) multiline r repl [] s.

(** ** Cue extractor ([main.ts]) *)

(** [/==(.*?)==/g] *)
Definition re_highlight : regex :=
  seq [lit (txt "=="); Grp 1 (star_lazy dot); lit (txt "==")].

Definition extractHighlights (content : str) : list str :=
  match_all false re_highlight content.

(** [/==/g] *)
Definition re_marker : regex := lit (txt "==").

Definition cleanHighlight (highlight : str) : str :=
  replace_all false re_marker [] highlight.

(** [/^[^:\n]*::[^:\n]+$/gm] *)
Definition not_colon_nl (c : ascii) : bool :=
  negb (is_char ":" c || is_char "010" c).

Definition re_cue : regex :=
  seq [Bol; star not_colon_nl; lit (txt "::"); plus not_colon_nl; Eol].

Definition extractRemNoteCues (content : str) : list str :=
  filter (fun m => negb (includes (txt "==") m)) (match_all true re_cue content).

(** [new RegExp(`^(\\*{1,3})?\\s*(${triggerWord})\\s*[:.]\\s*(.+)`, 'i')].
    The trigger word is spliced into the pattern text without escaping; it
    stands for itself when it holds none of the pattern characters
    ([plain]).  [re_trigger] is the pattern of such a word: a word with
    pattern characters gives another pattern, or a syntax error, which the
    embedding does not cover, and the statements about trigger words take
    [plain] words. *)
Definition is_pattern_char (c : ascii) : bool :=
  existsb (fun a => is_char a c) (txt "\^$.|?*+()[]{}").

Definition plain (triggerWord : str) : bool :=
  forallb (fun c => negb (is_pattern_char c)) triggerWord.

Definition colon_or_dot (c : ascii) : bool := is_char ":" c || is_char "." c.

Definition re_trigger (triggerWord : str) : regex :=
  seq [Bol; Opt (Grp 1 (Rep (is_char "*") true 1 (Some 3))); star is_space;
       Grp 2 (lit_i triggerWord); star is_space; Chr colon_or_dot;
       star is_space; Grp 3 (plus dot)].

Definition checkForTriggerWords (triggers : list str) (content : str) : list str :=
  flat_map
    (fun line =>
       flat_map
         (fun triggerWord =>
            match match_first false (re_trigger triggerWord) line with
            | Some (m0, _) => [m0]
            | None => []
            end)
         triggers)
    (split "010" content).

(** ** Context resolver and card builder ([main.ts]) *)

Inductive QuestionType : Type :=
| MultipleChoice | TrueFalse | FillInBlank | ShortAnswer | Cloze.

Record QuizQuestion : Type := {
  type : QuestionType;
  question : str;
  answer : str;
  options : option (list str);
  explanation : option str;
  clozeText : option str
}.

(** [generateFilenameDisplay(file, false)]; [file] is the basename, if any. *)
Definition generateFilenameDisplay (file : option str) : str :=
  match file with
  | None => txt "Unknown File.md"
  | Some basename => basename ++ txt ".md"
  end.

(** [/^#{1,6}\s+(.+)$/] *)
Definition re_heading : regex :=
  seq [Bol; Rep (is_char "#") true 1 (Some 6); plus is_space; Grp 1 (plus dot); Eol].

(** The backward loop of [getMostRelevantHeader], over the lines above the
    target, nearest first. *)
Fixpoint nearestHeader (above : list str) : option str :=
  match above with
  | [] => None
  | l :: above' =>
      let line := trim l in
      if startsWith (txt "#") line then
        match match_first false re_heading line with
        | Some (_, g) => Some (default [] (g !! 1))
        | None => nearestHeader above'
        end
      else nearestHeader above'
  end.

Definition getMostRelevantHeader (content targetLine : str) : option str :=
  let lines := split "010" content in
  match findIndex (includes targetLine) lines with
  | None => None
  | Some targetIndex => nearestHeader (rev (take targetIndex lines))
  end.

(** A string in a condition: [null] and the empty string are falsy. *)
Definition truthy (s : option str) : bool :=
  match s with
  | Some (_ :: _) => true
  | _ => false
  end.

(** GetSubstitution for a string pattern: no capture is available, so only
    [$$], [$&], [$`] and [$'] are replaced. *)
Fixpoint expand (template matched before after : str) : str :=
  match template with
  | "$"%char :: "$"%char :: t => "$"%char :: expand t matched before after
  | "$"%char :: "&"%char :: t => matched ++ expand t matched before after
  | "$"%char :: "`"%char :: t => before ++ expand t matched before after
  | "$"%char :: "'"%char :: t => after ++ expand t matched before after
  | c :: t => c :: expand t matched before after
  | [] => []
  end.

(** [s.replace(pattern, template)] for a string pattern: the first
    occurrence only. *)
Fixpoint replace_at (pattern template before_rev s : str) : str :=
  if startsWith pattern s then
    rev before_rev
    ++ expand template pattern (rev before_rev) (drop (length pattern) s)
    ++ drop (length pattern) s
  else
    match s with
    | c :: s' => replace_at pattern template (c :: before_rev) s'
    | [] => rev before_rev
    end.

Definition replace_first (pattern template s : str) : str :=
  replace_at pattern template [] s.

Definition contextOf (filename : str) (relevantHeader : option str) : str :=
  if truthy relevantHeader
  then filename ++ txt "
-> " ++ default [] relevantHeader
  else filename.

Definition generateContextualClozeCards
    (content : str) (highlights : list str) (file : option str) : list QuizQuestion :=
  let filename := generateFilenameDisplay file in
  let contentLines := split "010" content in
  flat_map
    (fun highlight =>
       let clean := cleanHighlight highlight in
       match findIndex (includes highlight) contentLines with
       | None => []
       | Some lineIndex =>
           let targetLine := default [] (contentLines !! lineIndex) in
           let relevantHeader := getMostRelevantHeader content highlight in
           let contextString := contextOf filename relevantHeader in
           let clozeText :=
             replace_first highlight (txt "{{c1::" ++ clean ++ txt "}}") targetLine in
           let contextualClozeText := contextString ++ txt "
 " ++ clozeText in
           [ {| type := Cloze; question := contextualClozeText; answer := clean;
                options := None; explanation := None;
                clozeText := Some contextualClozeText |} ]
       end)
    highlights.

(** [match.split('::')] *)
Fixpoint split_colons (s : str) : list str :=
  match s with
  | [] => [[]]
  | ":"%char :: ":"%char :: s' => [] :: split_colons s'
  | c :: s' =>
      match split_colons s' with
      | l :: ls => (c :: l) :: ls
      | [] => [[c]]
      end
  end.

Definition generateContextualQACards
    (remNoteMatches : list str) (content : str) (file : option str) : list QuizQuestion :=
  let filename := generateFilenameDisplay file in
  flat_map
    (fun m =>
       match split_colons m with
       | part0 :: part1 :: _ =>
           let originalQuestion := trim part0 in
           let answer := trim part1 in
           let relevantHeader := getMostRelevantHeader content m in
           let contextString := contextOf filename relevantHeader in
           [ {| type := ShortAnswer;
                question := contextString ++ txt "
 " ++ originalQuestion;
                answer := answer;
                options := None; explanation := None; clozeText := None |} ]
       | _ => []
       end)
    remNoteMatches.

(** The inner loop of [generateContextualTriggerCards]: the first trigger
    word whose pattern matches, then [break]. *)
Fixpoint firstTrigger (triggers : list str) (m : str) : option (str * str) :=
  match triggers with
  | [] => None
  | triggerWord :: triggers' =>
      match match_first false (re_trigger triggerWord) m with
      | Some (_, g) => Some (triggerWord, trim (default [] (g !! 3)))
      | None => firstTrigger triggers' m
      end
  end.

Definition generateContextualTriggerCards
    (triggers : list str) (triggerMatches : list str) (content : str)
    (file : option str) : list QuizQuestion :=
  let filename := generateFilenameDisplay file in
  flat_map
    (fun m =>
       match firstTrigger triggers m with
       | Some (triggerWord, definition) =>
           let relevantHeader := getMostRelevantHeader content m in
           let contextString :=
             if truthy relevantHeader
             then filename ++ txt "
" ++ txt "
-> " ++ default [] relevantHeader
             else filename ++ txt "
" in
           [ {| type := ShortAnswer;
                question := contextString ++ txt "

" ++ triggerWord;
                answer := definition;
                options := None; explanation := None; clozeText := None |} ]
       | None => []
       end)
    triggerMatches.

(** ** AnkiConnect client ([anki-connect]) *)

Record AnkiNote : Type := {
  deckName : str;
  modelName : str;
  fields : gmap string str;
  tags : list str
}.

Inductive request : Type :=
| UpdateNoteFields (id : Z) (fieldsToUpdate : gmap string str)
| AddNote (note : AnkiNote)
| AddNotes (notes : list AnkiNote).

(** What comes back from one [fetch]: nothing usable (the connection fails,
    the status is not ok, the body is not JSON), or an [AnkiConnectResponse]
    with its [error] and [result]. *)
Inductive reply (A : Type) : Type :=
| Unreachable (msg : str)
| Response (error : option str) (result : A).
Arguments Unreachable {A} msg.
Arguments Response {A} error result.

(** The server: its reply to a request, given the requests it has seen. *)
Record AnkiConnect : Type := {
  on_updateNoteFields : list request -> Z -> gmap string str -> reply unit;
  on_addNote : list request -> AnkiNote -> reply (option Z);
  on_addNotes : list request -> list AnkiNote -> reply (option (list (option Z)))
}.

Inductive outcome (A : Type) : Type :=
| Ok (a : A)
| Throw (msg : str).
Arguments Ok {A} a.
Arguments Throw {A} msg.

(** Computations that may throw and that extend the request log. *)
Definition M (A : Type) : Type := list request -> outcome A * list request.

Definition ret {A} (a : A) : M A := fun log => (Ok a, log).

Definition throw {A} (msg : str) : M A := fun log => (Throw msg, log).

Definition bind {A B} (m : M A) (f : A -> M B) : M B :=
  fun log =>
    match m log with
    | (Ok a, log') => f a log'
    | (Throw msg, log') => (Throw msg, log')
    end.

Definition catch {A} (m : M A) (handler : str -> M A) : M A :=
  fun log =>
    match m log with
    | (Ok a, log') => (Ok a, log')
    | (Throw msg, log') => handler msg log'
    end.

Notation "'let*' x ':=' m 'in' k" := (bind m (fun x => k))
  (at level 10, x pattern, m at level 100, k at level 200).

(** [sendRequest]: the request is logged; a reply that is not a response is
    rethrown as a connection failure. *)
Definition sendRequest {A} (req : request) (answer : list request -> reply A)
    : M (option str * A) :=
  fun log =>
    match answer log with
    | Unreachable msg =>
        (Throw (txt "AnkiConnect connection failed: " ++ msg), log ++ [req])
    | Response error result => (Ok (error, result), log ++ [req])
    end.

Definition updateNoteFields (anki : AnkiConnect) (noteId : Z)
    (fieldsToUpdate : gmap string str) : M bool :=
  catch
    (let* response :=
       sendRequest (UpdateNoteFields noteId fieldsToUpdate)
         (fun log => on_updateNoteFields anki log noteId fieldsToUpdate) in
     if truthy response.1 then throw (default [] response.1) else ret true)
    (fun _ => ret false).

(** [/[^\w\s]/g] and [/\s+/g] *)
Definition re_punctuation : regex := Chr (fun c => negb (is_word c || is_space c)).
Definition re_spaces : regex := plus is_space.

Definition normalize (s : str) : str :=
  trim (replace_all false re_spaces (txt " ")
          (replace_all false re_punctuation (txt " ") (toLowerCase s))).

Definition isContentSimilar (content1 content2 : str) : bool :=
  let norm1 := normalize content1 in
  let norm2 := normalize content2 in
  if decide (norm1 = norm2) then true
  else if (20 <? length norm1) && (20 <? length norm2)
       then includes norm2 norm1 || includes norm1 norm2
       else false.

(** The fallback loop of [addNotes], one [addNote] request per note. *)
Fixpoint addNotesOneByOne (anki : AnkiConnect) (notes : list AnkiNote)
    (results : list (option Z)) : M (list (option Z)) :=
  match notes with
  | [] => ret results
  | note :: notes' =>
      let* results' :=
        catch
          (let* singleResponse :=
             sendRequest (AddNote note) (fun log => on_addNote anki log note) in
           if truthy singleResponse.1 then
             if includes (txt "duplicate") (default [] singleResponse.1)
             then ret (results ++ [None])
             else throw (default [] singleResponse.1)
           else ret (results ++ [singleResponse.2]))
          (fun _ => ret (results ++ [None])) in
      addNotesOneByOne anki notes' results'
  end.

Definition addNotes (anki : AnkiConnect) (notes : list AnkiNote)
    : M (list (option Z)) :=
  catch
    (let* response :=
       sendRequest (AddNotes notes) (fun log => on_addNotes anki log notes) in
     if truthy response.1 then throw (default [] response.1)
     else ret (default [] response.2))
    (fun _ => addNotesOneByOne anki notes []).

(** ** Direct exporter ([anki-direct-exporter]) *)

Record AnkiExportResult : Type := {
  success : nat;
  failed : nat;
  skipped : nat;
  errors : list str;
  decksCreated : list str
}.

Inductive Behavior : Type := Skip | Update | Create.

(** One entry of [findMatchingNotesInfo]. *)
Record MatchInfo : Type := {
  noteId : option Z;
  existingFields : option (gmap string str)
}.

(** [match && match.noteId]: an id that is neither [null] nor [0]. *)
Definition matchedId (m : option MatchInfo) : option Z :=
  match m with
  | Some info =>
      match noteId info with
      | Some id => if decide (id = 0%Z) then None else Some id
      | None => None
      end
  | None => None
  end.

(** [object[name] || ''] *)
Definition field (object : gmap string str) (name : string) : str :=
  default [] (object !! name).

Definition differs (note : AnkiNote) (existing : gmap string str) : bool :=
  if decide (modelName note = txt "Cloze") then
    negb (isContentSimilar (field existing "Text") (field (fields note) "Text"))
  else
    negb (isContentSimilar (field existing "Front") (field (fields note) "Front"))
    || negb (isContentSimilar (field existing "Back") (field (fields note) "Back")).

Definition fieldsToUpdate (note : AnkiNote) : gmap string str :=
  if decide (modelName note = txt "Cloze")
  then {[ "Extra" := field (fields note) "Extra" ]}
  else {[ "Back" := field (fields note) "Back" ]}.

(** The variables of the loop of [processQuestionGroup]. *)
Record Progress : Type := {
  notesToCreate : list AnkiNote;
  updatedCount : nat;
  skippedCount : nat;
  result : AnkiExportResult
}.

Definition countSkipped (st : Progress) : Progress :=
  {| notesToCreate := notesToCreate st; updatedCount := updatedCount st;
     skippedCount := S (skippedCount st); result := result st |}.

Definition countUpdated (st : Progress) : Progress :=
  {| notesToCreate := notesToCreate st; updatedCount := S (updatedCount st);
     skippedCount := skippedCount st; result := result st |}.

Definition schedule (note : AnkiNote) (st : Progress) : Progress :=
  {| notesToCreate := notesToCreate st ++ [note]; updatedCount := updatedCount st;
     skippedCount := skippedCount st; result := result st |}.

Definition recordFailure (msg : str) (r : AnkiExportResult) : AnkiExportResult :=
  {| success := success r; failed := S (failed r); skipped := skipped r;
     errors := errors r ++ [msg]; decksCreated := decksCreated r |}.

Definition recordSuccess (r : AnkiExportResult) : AnkiExportResult :=
  {| success := S (success r); failed := failed r; skipped := skipped r;
     errors := errors r; decksCreated := decksCreated r |}.

Definition failUpdate (msg : str) (st : Progress) : Progress :=
  {| notesToCreate := notesToCreate st; updatedCount := updatedCount st;
     skippedCount := skippedCount st; result := recordFailure msg (result st) |}.

(** One iteration of the loop over [ankiNotes]. *)
Definition reconcileNote (anki : AnkiConnect) (behavior : Behavior) (deck : str)
    (note : AnkiNote) (m : option MatchInfo) (st : Progress) : M Progress :=
  match matchedId m with
  | Some id =>
      let existing := default ∅ (m ≫= existingFields) in
      match behavior with
      | Create => ret (schedule note st)
      | Skip => ret (countSkipped st)
      | Update =>
          if differs note existing then
            let* ok := updateNoteFields anki id (fieldsToUpdate note) in
            if ok : bool then ret (countUpdated st)
            else ret (failUpdate (txt "Failed to update note " ++ txt (pretty id)
                                    ++ txt " in " ++ deck) st)
          else ret (countSkipped st)
      end
  | None => ret (schedule note st)
  end.

Fixpoint reconcileLoop (anki : AnkiConnect) (behavior : Behavior) (deck : str)
    (i : nat) (ankiNotes : list AnkiNote) (matches : list MatchInfo)
    (st : Progress) : M Progress :=
  match ankiNotes with
  | [] => ret st
  | note :: ankiNotes' =>
      let* st' := reconcileNote anki behavior deck note (matches !! i) st in
      reconcileLoop anki behavior deck (S i) ankiNotes' matches st'
  end.

(** [addResults.forEach((noteId, idx) => ...)] *)
Fixpoint countAdded (deck : str) (questions : list QuizQuestion) (idx : nat)
    (addResults : list (option Z)) (r : AnkiExportResult) : AnkiExportResult :=
  match addResults with
  | [] => r
  | None :: addResults' =>
      countAdded deck questions (S idx) addResults'
        (recordFailure
           (txt "Failed to add card in " ++ deck ++ txt ": "
            ++ match questions !! idx with
               | Some q => take 50 (question q)
               | None => txt "undefined"
               end
            ++ txt "...")
           r)
  | Some _ :: addResults' =>
      countAdded deck questions (S idx) addResults' (recordSuccess r)
  end.

(** [processQuestionGroup] from the loop on (after the deck check, the
    conversion and the lookup): [ankiNotes] and [matches] are the constants of
    the source, [result0] is [result] as the deck check left it, and
    [existingNoteBehavior] is the setting, [None] when it is not set. *)
Definition processQuestionGroup (anki : AnkiConnect)
    (existingNoteBehavior : option Behavior) (deck : str)
    (questions : list QuizQuestion) (ankiNotes : list AnkiNote)
    (matches : list MatchInfo) (result0 : AnkiExportResult) : M AnkiExportResult :=
  let behavior := default Skip existingNoteBehavior in
  let* st :=
    reconcileLoop anki behavior deck 0 ankiNotes matches
      {| notesToCreate := []; updatedCount := 0; skippedCount := 0;
         result := result0 |} in
  let r := result st in
  let r1 :=
    {| success := success r; failed := failed r;
       skipped := skipped r + skippedCount st;
       errors := errors r; decksCreated := decksCreated r |} in
  let r2 :=
    {| success := success r1 + updatedCount st; failed := failed r1;
       skipped := skipped r1; errors := errors r1;
       decksCreated := decksCreated r1 |} in
  match notesToCreate st with
  | [] => ret r2
  | _ :: _ =>
      let* addResults := addNotes anki (notesToCreate st) in
      ret (countAdded deck questions 0 addResults r2)
  end.

(** ** AI enhancement ([gemini-service]) *)


Section Gemini.
(** [JSON.stringify(questions, null, 2)] and [JSON.parse]. *)
Variable stringify : list QuizQuestion -> str.
Variable parse : str -> outcome (list QuizQuestion).



End Gemini.


(** * Further parts of the program

    The conversion of a card into a note, with the markup of its line breaks
    and the link of its file name ([anki-connect]); the export to a text
    file and to a CSV file ([anki-exporter]); the requests about decks and
    the routing of the cards to decks ([anki-connect],
    [anki-direct-exporter]); and the improvement of the trigger questions
    ([gemini-service]). *)

(** ** Line breaks, links and notes ([anki-connect]) *)

(** [/\n\s*\n/g], [/\n/g], [/\s+<br>/g] and [/<br>\s+/g] *)
Definition re_blank_lines : regex :=
  seq [Chr (is_char "010"); star is_space; Chr (is_char "010")].
Definition re_line_feed : regex := Chr (is_char "010").
Definition re_space_br : regex := seq [plus is_space; lit (txt "<br>")].
Definition re_br_space : regex := seq [lit (txt "<br>"); plus is_space].

Definition convertLineBreaksToHtml (text : str) : str :=
  replace_all false re_br_space (txt "<br>")
    (replace_all false re_space_br (txt "<br>")
       (replace_all false re_line_feed (txt "<br>")
          (replace_all false re_blank_lines (txt "<br><br>") text))).

(** The double quote. *)
Definition quote : ascii := "034"%char.

(** The helper [escapeHtml] of [convertFilenameToLink]. *)
Definition escapeHtml (s : str) : str :=
  replace_all false (Chr (is_char "'")) (txt "&#39;")
    (replace_all false (Chr (is_char quote)) (txt "&quot;")
       (replace_all false (Chr (is_char ">")) (txt "&gt;")
          (replace_all false (Chr (is_char "<")) (txt "&lt;")
             (replace_all false (Chr (is_char "&")) (txt "&amp;") s)))).

(** [encodeURIComponent] on the code units covered: the unreserved
    characters stand for themselves, the others are escaped as the bytes of
    their UTF-8 encoding, one byte below 128 and two bytes from there on. *)
Definition is_unreserved (c : ascii) : bool :=
  is_word c || existsb (fun a => is_char a c) (txt "-.!~*'()").

Definition hexDigit (n : N) : ascii :=
  nth (N.to_nat n) (txt "0123456789ABCDEF") "0"%char.

Definition percent (byte : N) : str :=
  ["%"%char; hexDigit (byte / 16); hexDigit (byte mod 16)].

Definition encodeURIComponent (s : str) : str :=
  flat_map
    (fun c =>
       if is_unreserved c then [c]
       else if (code c <? 128)%N then percent (code c)
       else percent (192 + code c / 64) ++ percent (128 + code c mod 64))
    s.

(** [s.replace(/r/g, replacer)] for a replacer function, called with the
    match and its captures; what it returns is inserted as it is. *)
Fixpoint replace_loop_with (fuel : nat) (multiline : bool) (r : regex)
    (replacer : str -> gmap nat str -> str) (sn rs : str) : str :=
  match fuel with
  | 0 => rs
  | S fuel' =>
      match search multiline r sn rs with
      | None => rs
      | Some (x, y) =>
          between (Cursor sn rs ∅) x ++ replacer (between x y) (groups y) ++
          (if decide (length (seen y) = length (seen x)) then
             match rest y with
             | c :: t =>
                 c :: replace_loop_with fuel' multiline r replacer (c :: seen y) t
             | [] => []
             end
           else replace_loop_with fuel' multiline r replacer (seen y) (rest y))
      end
  end.

Definition replace_all_with (multiline : bool) (r : regex)
    (replacer : str -> gmap nat str -> str) (s : str) : str :=
  replace_loop_with (S (length s)) multiline r replacer [] s.

(** [/^([^<>\n]+\.md)/gm] *)
Definition not_angle_nl (c : ascii) : bool :=
  negb (is_char "<" c || is_char ">" c || is_char "010" c).

Definition filenamePattern : regex :=
  seq [Bol; Grp 1 (seq [plus not_angle_nl; lit (txt ".md")])].

(** The replacer of [convertFilenameToLink]. *)
Definition filenameLink (vaultName : str) (filename : str) : str :=
  let basename := replace_first (txt ".md") [] filename in
  let obsidianUri :=
    txt "obsidian://open?vault=" ++ encodeURIComponent vaultName
    ++ txt "&file=" ++ encodeURIComponent basename in
  let displayFilename := escapeHtml filename in
  txt "<a href=" ++ [quote] ++ obsidianUri ++ [quote] ++ txt ">"
  ++ displayFilename ++ txt "</a>".

Definition convertFilenameToLink (text vaultName : str) : str :=
  replace_all_with true filenamePattern
    (fun _ g => filenameLink vaultName (default [] (g !! 1))) text.

(** [parts.join(sep)] *)
Fixpoint join (sep : str) (parts : list str) : str :=
  match parts with
  | [] => []
  | p :: parts' =>
      match parts' with
      | [] => p
      | _ :: _ => p ++ sep ++ join sep parts'
      end
  end.

(** [String.fromCharCode(n)], one code unit of the range covered. *)
Definition fromCharCode (n : nat) : str := [ascii_of_nat n].

(** ['\n\nOptions:\n' + options.map(...).join('\n')] *)
Definition optionsText (options : list str) : str :=
  txt "

Options:
" ++ join (txt "
") (imap (fun i opt => fromCharCode (65 + i) ++ txt ". " ++ opt) options).

Definition typeName (t : QuestionType) : str :=
  match t with
  | MultipleChoice => txt "multiple-choice"
  | TrueFalse => txt "true-false"
  | FillInBlank => txt "fill-in-blank"
  | ShortAnswer => txt "short-answer"
  | Cloze => txt "cloze"
  end.

Definition is_cloze (q : QuizQuestion) : bool :=
  match type q with Cloze => true | _ => false end.

Definition is_multiple_choice (q : QuizQuestion) : bool :=
  match type q with MultipleChoice => true | _ => false end.

(** [noteType] is the setting; [triggerWord] and [vaultName] are the
    optional arguments, [None] when they are left out. *)
Definition convertQuestionToAnkiNote (noteType : str) (q : QuizQuestion)
    (deckName : str) (triggerWord vaultName : option str) : AnkiNote :=
  let finalDeckName :=
    if truthy triggerWord then default [] triggerWord else deckName in
  let vault :=
    if truthy vaultName then default [] vaultName
    else txt "My Drive/docs/brain" in
  let explained := truthy (explanation q) in
  let note :=
    if is_cloze q && truthy (clozeText q) then
      (txt "Cloze",
       ({[ "Text" :=
             convertLineBreaksToHtml
               (convertFilenameToLink (default [] (clozeText q)) vault);
           "Extra" :=
             if explained
             then convertLineBreaksToHtml (default [] (explanation q))
             else [] ]} : gmap string str))
    else
      let fields : gmap string str :=
        {[ "Front" :=
             convertLineBreaksToHtml
               (convertFilenameToLink (question q) vault);
           "Back" :=
             convertLineBreaksToHtml
               (answer q
                ++ if explained
                   then txt "

" ++ default [] (explanation q)
                   else []) ]} in
      (if truthy (Some noteType) then noteType else txt "Basic",
       match is_multiple_choice q, options q with
       | true, Some opts =>
           <[ "Front" :=
                convertLineBreaksToHtml
                  (convertFilenameToLink
                     (question q ++ optionsText opts) vault) ]>
             fields
       | _, _ => fields
       end)
  in
  let tags :=
    [txt "obsidian-plugin"; txt "type::" ++ typeName (type q)]
    ++ (if truthy triggerWord then [txt "trigger::" ++ default [] triggerWord]
        else [])
    ++ (if is_cloze q then [txt "cloze-deletion"] else []) in
  {| deckName := finalDeckName; modelName := note.1; fields := note.2;
     tags := tags |}.

(** ** Text export ([anki-exporter]) *)

(** The tabulation, and [/\t/g]. *)
Definition tab : ascii := "009"%char.
Definition re_tab : regex := Chr (is_char tab).

Definition cleanTextForAnki (text : str) : str :=
  replace_all false re_br_space (txt "<br>")
    (replace_all false re_space_br (txt "<br>")
       (replace_all false re_line_feed (txt "<br>")
          (replace_all false re_blank_lines (txt "<br><br>")
             (replace_all false re_tab (txt " ") text)))).

(** The front and the back of a card before cleaning: the part of the loop
    body that [exportToTxt] and [exportToCsv] have in common. *)
Definition exportSides (q : QuizQuestion) : str * str :=
  if is_cloze q && truthy (clozeText q) then
    (default [] (clozeText q),
     if truthy (explanation q) then default [] (explanation q) else [])
  else
    (question q
     ++ match is_multiple_choice q, options q with
        | true, Some opts => optionsText opts
        | _, _ => []
        end,
     answer q
     ++ if truthy (explanation q)
        then txt "<br><br>Explanation: " ++ default [] (explanation q)
        else []).

Definition exportTag (q : QuizQuestion) : str :=
  if is_cloze q then txt "gemini-cloze" else txt "gemini-quiz".

Definition exportToTxt (questions : list QuizQuestion) : str :=
  foldl
    (fun output q =>
       let front := cleanTextForAnki (exportSides q).1 in
       let back := cleanTextForAnki (exportSides q).2 in
       output ++ front ++ [tab] ++ back ++ [tab] ++ exportTag q ++ txt "
")
    [] questions.

(** The quoting of [exportToCsv]: the text between double quotes, each double
    quote of the text written twice. *)
Definition csvQuoted (text : str) : str :=
  [quote] ++ replace_all false (Chr (is_char quote)) [quote; quote] text
  ++ [quote].

Definition exportToCsv (questions : list QuizQuestion) : str :=
  foldl
    (fun output q =>
       let front := csvQuoted (cleanTextForAnki (exportSides q).1) in
       let back := csvQuoted (cleanTextForAnki (exportSides q).2) in
       output ++ front ++ txt "," ++ back ++ txt "," ++ [quote] ++ exportTag q
       ++ [quote] ++ txt "
")
    (txt "Front,Back,Tags
") questions.

(** ** Decks ([anki-connect], [anki-direct-exporter]) *)

Inductive deckRequest : Type :=
| DeckNames
| CreateDeck (deck : str).

(** The replies of the server to the requests about decks, given the
    requests of that kind it has seen. *)
Record DeckServer : Type := {
  on_deckNames : list deckRequest -> reply (option (list str));
  on_createDeck : list deckRequest -> str -> reply (option Z)
}.

(** Computations that may throw and that extend the log of deck requests. *)
Definition D (A : Type) : Type :=
  list deckRequest -> outcome A * list deckRequest.

Definition retD {A} (a : A) : D A := fun log => (Ok a, log).

Definition throwD {A} (msg : str) : D A := fun log => (Throw msg, log).

Definition bindD {A B} (m : D A) (f : A -> D B) : D B :=
  fun log =>
    match m log with
    | (Ok a, log') => f a log'
    | (Throw msg, log') => (Throw msg, log')
    end.

Definition catchD {A} (m : D A) (handler : str -> D A) : D A :=
  fun log =>
    match m log with
    | (Ok a, log') => (Ok a, log')
    | (Throw msg, log') => handler msg log'
    end.

Notation "'let+' x ':=' m 'in' k" := (bindD m (fun x => k))
  (at level 10, x pattern, m at level 100, k at level 200).

Definition sendDeckRequest {A} (req : deckRequest)
    (answer : list deckRequest -> reply A) : D (option str * A) :=
  fun log =>
    match answer log with
    | Unreachable msg =>
        (Throw (txt "AnkiConnect connection failed: " ++ msg), log ++ [req])
    | Response error result => (Ok (error, result), log ++ [req])
    end.

Definition getDeckNames (anki : DeckServer) : D (list str) :=
  catchD
    (let+ response := sendDeckRequest DeckNames (on_deckNames anki) in
     if truthy response.1 then throwD (default [] response.1)
     else retD (default [] response.2))
    (fun _ => retD []).

Definition createDeck (anki : DeckServer) (deckName : str) : D bool :=
  catchD
    (let+ response :=
       sendDeckRequest (CreateDeck deckName)
         (fun log => on_createDeck anki log deckName) in
     if truthy response.1 then throwD (default [] response.1) else retD true)
    (fun _ => retD false).

Definition ensureDeckExists (anki : DeckServer) (allowDeckCreation : bool)
    (deckName : str) : D bool :=
  let+ existingDecks := getDeckNames anki in
  if negb (bool_decide (deckName ∈ existingDecks)) then
    if allowDeckCreation then
      let+ created := createDeck anki deckName in
      if created : bool then retD true
      else throwD (txt "Failed to create deck " ++ [quote] ++ deckName ++ [quote])
    else
      throwD (txt "Deck " ++ [quote] ++ deckName ++ [quote]
              ++ txt " does not exist and deck creation is disabled")
  else retD false.

(** ** Deck routing ([anki-direct-exporter]) *)

Definition extractTriggerWord (triggers : list str) (q : QuizQuestion)
    : option str :=
  let content := toLowerCase (question q ++ txt " " ++ answer q) in
  match find (fun trigger => includes (toLowerCase trigger) content) triggers with
  | Some trigger => Some trigger
  | None =>
      let questionLower := toLowerCase (question q) in
      find (fun trigger => includes (toLowerCase trigger ++ txt ":") questionLower)
        triggers
  end.

(** The names every object inherits from [Object.prototype]: looked up in
    the empty [groups] object, they give a value that is truthy and is no
    array. *)
Definition objectPrototypeNames : list str :=
  map txt
    ["constructor"; "hasOwnProperty"; "isPrototypeOf"; "propertyIsEnumerable";
     "toLocaleString"; "toString"; "valueOf"; "__proto__";
     "__defineGetter__"; "__defineSetter__"; "__lookupGetter__";
     "__lookupSetter__"]%string.

(** The body of the [forEach] of [groupQuestionsByTrigger]. *)
Definition addToGroup (triggers : list str)
    (groups : gmap str (list QuizQuestion)) (q : QuizQuestion)
    : outcome (gmap str (list QuizQuestion)) :=
  match extractTriggerWord triggers q with
  | Some triggerWord =>
      if truthy (Some triggerWord) then
        match groups !! triggerWord with
        | Some group => Ok (<[triggerWord := group ++ [q]]> groups)
        | None =>
            if bool_decide (triggerWord ∈ objectPrototypeNames)
            then Throw (txt "groups[triggerWord].push is not a function")
            else Ok (<[triggerWord := [q]]> groups)
        end
      else Ok groups
  | None => Ok groups
  end.

Fixpoint groupLoop (triggers : list str) (groups : gmap str (list QuizQuestion))
    (questions : list QuizQuestion) : outcome (gmap str (list QuizQuestion)) :=
  match questions with
  | [] => Ok groups
  | q :: questions' =>
      match addToGroup triggers groups q with
      | Ok groups' => groupLoop triggers groups' questions'
      | Throw msg => Throw msg
      end
  end.

Definition groupQuestionsByTrigger (triggers : list str)
    (questions : list QuizQuestion) : outcome (gmap str (list QuizQuestion)) :=
  groupLoop triggers ∅ questions.

(** ** Improvement of the trigger questions ([gemini-service]) *)

(** The pattern of [generateQAFromTriggerWords], applied to the trimmed line:
    [new RegExp(`^\\*?${escaped}\\*?\\s*:?\\s*(.+)$`, 'i')].  The pattern
    characters of the trigger word are escaped there, so the word stands for
    itself whatever it holds. *)
Definition triggerPattern (triggerWord : str) : regex :=
  seq [Bol; Opt (Chr (is_char "*")); lit_i triggerWord; Opt (Chr (is_char "*"));
       star is_space; Opt (Chr (is_char ":")); star is_space;
       Grp 1 (plus dot); Eol].

(** One entry of the [improvements] array of the answer: its properties
    [improvedQuestion] and [explanation], [None] when they are missing. *)
Record Improvement : Type := {
  improvedQuestion : option str;
  improvedExplanation : option str
}.

(** [/\{[\s\S]*\}/] *)
Definition re_json_object : regex :=
  seq [lit (txt "{"); star any_char; lit (txt "}")].

Definition quoted (s : str) : str := [quote] ++ s ++ [quote].

Definition setQuestion (text : str) (q : QuizQuestion) : QuizQuestion :=
  {| type := type q; question := text; answer := answer q;
     options := options q; explanation := explanation q;
     clozeText := clozeText q |}.

Definition setExplanation (text : str) (q : QuizQuestion) : QuizQuestion :=
  {| type := type q; question := question q; answer := answer q;
     options := options q; explanation := Some text;
     clozeText := clozeText q |}.

(** The [forEach] over the improvements, on the questions as they are
    changed in place.  An entry that is [null] makes the reading of its
    properties throw: the loop ends there, and the questions changed so far
    stay changed. *)
Fixpoint applyImprovements (index : nat)
    (improvements : list (option Improvement)) (questions : list QuizQuestion)
    : list QuizQuestion :=
  match improvements with
  | [] => questions
  | improvement :: improvements' =>
      if index <? length questions then
        match improvement with
        | None => questions
        | Some improvement =>
            let questions1 :=
              if truthy (improvedQuestion improvement)
              then alter (setQuestion (default [] (improvedQuestion improvement)))
                     index questions
              else questions in
            let questions2 :=
              if truthy (improvedExplanation improvement)
              then alter (setExplanation
                            (default [] (improvedExplanation improvement)))
                     index questions1
              else questions1 in
            applyImprovements (S index) improvements' questions2
        end
      else applyImprovements (S index) improvements' questions
  end.

Section Improvements.
(** [JSON.parse], followed by the reading of the property [improvements]:
    the parsing throws; or the property is missing or is no array ([None]);
    or it is an array, whose entries are objects or [null]. *)
Variable parseImprovements : str -> outcome (option (list (option Improvement))).

Definition improvementPrompt (questions : list QuizQuestion)
    (originalContent : str) : str :=
  let questionsText :=
    join (txt "
")
      (imap
         (fun i q =>
            txt (pretty (i + 1)) ++ txt ". Q: " ++ question q ++ txt " | A: "
            ++ answer q)
         questions) in
  txt "Based on the following content and automatically generated questions, improve the questions to be more specific and educational:

Original content:
" ++ originalContent ++ txt "

Auto-generated questions:
" ++ questionsText ++ txt "

For each question, provide:
1. A better, more specific question that tests understanding of the answer
2. A brief explanation (1-2 sentences) about why this is important

Respond in JSON format:
{
  " ++ quoted (txt "improvements") ++ txt ": [
    {
      " ++ quoted (txt "originalQuestion") ++ txt ": "
  ++ quoted (txt "What is the concept?") ++ txt ",
      " ++ quoted (txt "improvedQuestion") ++ txt ": "
  ++ quoted (txt "What concept is being described here?") ++ txt ",
      " ++ quoted (txt "explanation") ++ txt ": "
  ++ quoted (txt "This concept is important because...") ++ txt "
    }
  ]
}".

(** [generateContent] is the model obtained from [genAI], which the callers
    have checked: it answers a prompt with a text, or the call throws.  The
    result is the array [questions] as the function leaves it. *)
Definition enhanceTriggerWordQuestions (generateContent : str -> outcome str)
    (questions : list QuizQuestion) (originalContent : str)
    : list QuizQuestion :=
  match generateContent (improvementPrompt questions originalContent) with
  | Ok text =>
      match match_first false re_json_object text with
      | Some (jsonMatch, _) =>
          match parseImprovements jsonMatch with
          | Ok (Some improvements) => applyImprovements 0 improvements questions
          | Ok None => questions
          | Throw _ => questions
          end
      | None => questions
      end
  | Throw _ => questions
  end.
End Improvements.
(** * Vocabulary of the properties and sample data *)

(** The two replacements of [normalize] as list functions: every character
    that is neither a word character nor white space gives way to a space,
    and every run of white space becomes one space. *)
Definition strip_punctuation (s : str) : str :=
  map (fun c => if is_word c || is_space c then c else " "%char) s.

Fixpoint collapse_spaces (in_run : bool) (s : str) : str :=
  match s with
  | [] => []
  | c :: s' =>
      if is_space c then
        if in_run then collapse_spaces true s'
        else " "%char :: collapse_spaces true s'
      else c :: collapse_spaces false s'
  end.

(** The longest prefix whose characters satisfy [p], and what follows it. *)
Fixpoint leading (p : ascii -> bool) (s : str) : str :=
  match s with
  | c :: s' => if p c then c :: leading p s' else []
  | [] => []
  end.

Fixpoint after_leading (p : ascii -> bool) (s : str) : str :=
  match s with
  | c :: s' => if p c then after_leading p s' else s
  | [] => []
  end.

(** Tables of characters, for the normal forms below. *)
Definition capitals : str := txt "ABCDEFGHIJKLMNOPQRSTUVWXYZ".
Definition smalls : str := txt "abcdefghijklmnopqrstuvwxyz".
Definition digits : str := txt "0123456789".

(** The accented capitals of Latin-1 (192 to 222 without the multiplication
    sign) and their small letters, 32 further on. *)
Definition accented_capitals : str :=
  map (fun n => ascii_of_nat n) (Stdlib.Lists.List.seq 192 23 ++ Stdlib.Lists.List.seq 216 7).
Definition accented_smalls : str :=
  map (fun n => ascii_of_nat n) (Stdlib.Lists.List.seq 224 23 ++ Stdlib.Lists.List.seq 248 7).

(** Punctuation: the marks of ASCII. *)
Definition punctuation_marks : str :=
  txt "!#$%&'()*+,-./:;<=>?@[\]^_`{|}~" ++ ["034"%char].

(** White space: tab, line feed, vertical tab, form feed, carriage return,
    space and no-break space. *)
Definition blanks : str :=
  ["009"; "010"; "011"; "012"; "013"; " "; "160"]%char.

Definition one_of (table : str) (c : ascii) : bool :=
  existsb (Ascii.eqb c) table.

(** [c] read through a table: the entry of [to] at the place of [c] in
    [from], and [c] itself when it is not in [from]. *)
Fixpoint translate (from to : str) (c : ascii) : ascii :=
  match from, to with
  | a :: from', b :: to' => if Ascii.eqb a c then b else translate from' to' c
  | _, _ => c
  end.

(** Lower case. *)
Definition lowercase (s : str) : str :=
  map (translate (capitals ++ accented_capitals) (smalls ++ accented_smalls)) s.

(** Every run of white space becomes one space. *)
Fixpoint one_space_per_run (in_run : bool) (s : str) : str :=
  match s with
  | [] => []
  | c :: s' =>
      if one_of blanks c then
        if in_run then one_space_per_run true s'
        else " "%char :: one_space_per_run true s'
      else c :: one_space_per_run false s'
  end.

(** Normalisation in the words of the specification: lower case,
    punctuation stripped, white space collapsed. *)
Definition spec_normalize (s : str) : str :=
  one_space_per_run false
    (filter (fun c => one_of punctuation_marks c = false) (lowercase s)).

Definition contains (s part : str) : Prop := exists a b, s = a ++ part ++ b.

(** Duplicates for a normalisation [norm]: equal normal forms, or one normal
    form inside the other when both are longer than 20. *)
Definition duplicates (norm : str -> str) (content1 content2 : str) : Prop :=
  norm content1 = norm content2 \/
  (20 < length (norm content1) /\ 20 < length (norm content2) /\
   (contains (norm content1) (norm content2) \/
    contains (norm content2) (norm content1))).

(** The normal form the similarity check compares: lower case; every
    character other than a letter of ASCII, a digit, an underscore or white
    space replaced by a space; every run of white space replaced by one
    space; no white space at either end. *)
Definition blank_out (c : ascii) : ascii :=
  if one_of (capitals ++ smalls ++ digits ++ txt "_") c || one_of blanks c
  then c else " "%char.

Definition strip_ends (s : str) : str :=
  rev (after_leading (one_of blanks) (rev (after_leading (one_of blanks) s))).

Definition normal_form (s : str) : str :=
  strip_ends (one_space_per_run false (map blank_out (lowercase s))).



Definition sampleCard : QuizQuestion :=
  {| type := ShortAnswer; question := txt "f.md

definition"; answer := txt "a thing";
     options := None; explanation := None; clozeText := None |}.

(** What one [addNote] reply contributes to the results of the fallback:
    the new id, or [null] for any rejection. *)
Definition created (r : reply (option Z)) : option Z :=
  match r with
  | Unreachable _ => None
  | Response error result => if truthy error then None else result
  end.

(** The results of the individual requests, each reply taken at the log the
    server has seen by then. *)
Fixpoint individualResults (anki : AnkiConnect) (log : list request)
    (notes : list AnkiNote) : list (option Z) :=
  match notes with
  | [] => []
  | note :: notes' =>
      created (on_addNote anki log note)
      :: individualResults anki (log ++ [AddNote note]) notes'
  end.

(** The bulk call fails wholesale: no response, or a response with an error. *)
Definition bulk_fails (anki : AnkiConnect) (log : list request)
    (notes : list AnkiNote) : Prop :=
  match on_addNotes anki log notes with
  | Unreachable _ => True
  | Response error _ => truthy error = true
  end.

Definition accepted (results : list (option Z)) : nat :=
  length (filter (fun r => is_Some r) results).

Definition rejected (results : list (option Z)) : nat :=
  length (filter (fun r => r = None) results).

(** A card is changed when its lookup found a record whose compared fields
    differ from the new ones; the value is the id of that record. *)
Definition changed (note : AnkiNote) (m : option MatchInfo) : option Z :=
  match matchedId m with
  | Some id =>
      if differs note (default ∅ (m ≫= existingFields)) then Some id else None
  | None => None
  end.

(** The update requests expected from the cards from index [i] on: one per
    changed card, in the order of the cards. *)
Fixpoint updateCalls (i : nat) (ankiNotes : list AnkiNote)
    (matches : list MatchInfo) : list request :=
  match ankiNotes with
  | [] => []
  | note :: ankiNotes' =>
      match changed note (matches !! i) with
      | Some id => [UpdateNoteFields id (fieldsToUpdate note)]
      | None => []
      end ++ updateCalls (S i) ankiNotes' matches
  end.

Definition is_update (req : request) : Prop :=
  match req with
  | UpdateNoteFields _ _ => True
  | _ => False
  end.

(** A field map that holds the field [name] and no other. *)
Definition only_field (name : string) (object : gmap string str) : Prop :=
  forall other : string, is_Some (object !! other) <-> other = name.

(** The field an update writes according to the specification: the text
    field of a cloze record, the back of a front/back record. *)
Definition specAnswerField (note : AnkiNote) : string :=
  if decide (modelName note = txt "Cloze") then "Text" else "Back".

(** The field the exporter writes. *)
Definition answerField (note : AnkiNote) : string :=
  if decide (modelName note = txt "Cloze") then "Extra" else "Back".

(** Every update request sent for a group writes, for some card of the
    group, the field chosen by [choice] and nothing else. *)
Definition updates_write_only (choice : AnkiNote -> string)
    (ankiNotes : list AnkiNote) (log : list request) : Prop :=
  forall id object,
    UpdateNoteFields id object ∈ log ->
    exists note, note ∈ ankiNotes /\ only_field (choice note) object.

Definition emptyResult : AnkiExportResult :=
  {| success := 0; failed := 0; skipped := 0; errors := []; decksCreated := [] |}.

(** A server that accepts every update. *)
Definition acceptingServer : AnkiConnect :=
  {| on_updateNoteFields := fun _ _ _ => Response None ();
     on_addNote := fun log _ => Response None (Some (Z.of_nat (length log)));
     on_addNotes := fun log notes =>
       Response None (Some (map (fun _ => Some (Z.of_nat (length log))) notes)) |}.

Definition clozeNote : AnkiNote :=
  {| deckName := txt "definition"; modelName := txt "Cloze";
     fields := {[ "Text" := txt "f.md<br>a {{c1::wheel}} turns";
                  "Extra" := [] ]};
     tags := [txt "obsidian-plugin"] |}.

Definition clozeMatch : MatchInfo :=
  {| noteId := Some 7%Z;
     existingFields := Some {[ "Text" := txt "f.md<br>a {{c1::tyre}} rolls" ]} |}.

Definition basicNote (front back : str) : AnkiNote :=
  {| deckName := txt "definition"; modelName := txt "Basic";
     fields := {[ "Front" := front; "Back" := back ]};
     tags := [txt "obsidian-plugin"] |}.

Definition basicMatch : MatchInfo :=
  {| noteId := Some 8%Z;
     existingFields := Some {[ "Front" := txt "f.md<br><br>definition";
                               "Back" := txt "an old answer" ]} |}.

(** A server whose bulk creation fails and that rejects, one by one, the
    notes whose back is [forbidden] as duplicates. *)
Definition rejectingServer (forbidden : str) : AnkiConnect :=
  {| on_updateNoteFields := fun _ _ _ => Response None ();
     on_addNote := fun log note =>
       if decide (field (fields note) "Back" = forbidden)
       then Response (Some (txt "cannot create note because it is a duplicate")) None
       else Response None (Some (1000 + Z.of_nat (length log))%Z);
     on_addNotes := fun _ _ => Unreachable (txt "HTTP 500: Internal Server Error") |}.

Definition fiveNotes : list AnkiNote :=
  map (fun back => basicNote (txt "f.md<br><br>definition") (txt back))
    ["one"; "two"; "three"; "four"; "five"].

(** The numbers of iterations of a quantifier: at least [lo] and at most
    [hi]; a maximum below the minimum is reached all the same. *)
Definition within (lo : nat) (hi : option nat) (n : nat) : Prop :=
  match hi with
  | Some h => Nat.min lo h <= n /\ n <= h
  | None => lo <= n
  end.

(** One more iteration of a quantifier, if the next character allows it. *)
Definition iterate (p : ascii -> bool) (greedy : bool) (lo : nat)
    (hi : option nat) (sn rs : str) (g : gmap nat str)
    (k : cursor -> option cursor) : option cursor :=
  match rs with
  | c :: rs' =>
      if p c then repeat p greedy lo (pred <$> hi) (c :: sn) rs' g k else None
  | [] => None
  end.

(** The texts a pattern matches: [lang ml r sn t rs] when the text [t],
    standing after [sn] (latest first) and before [rs], matches [r]. *)
Fixpoint lang (multiline : bool) (r : regex) (sn t rs : str) : Prop :=
  match r with
  | Eps => t = []
  | Chr p => exists c, t = [c] /\ p c = true
  | Cat r1 r2 =>
      exists t1 t2, t = t1 ++ t2 /\
        lang multiline r1 sn t1 (t2 ++ rs) /\
        lang multiline r2 (rev t1 ++ sn) t2 rs
  | Opt r1 => t = [] \/ lang multiline r1 sn t rs
  | Rep p _ lo hi => forallb p t = true /\ within lo hi (length t)
  | Bol => t = [] /\ at_bol multiline (Cursor sn rs ∅) = true
  | Eol => t = [] /\ at_eol multiline (Cursor sn rs ∅) = true
  | Grp _ r1 => lang multiline r1 sn t rs
  end.

(** [y] is the position reached from [x] by reading [t]. *)
Definition ahead (x : cursor) (t : str) (y : cursor) : Prop :=
  rest x = t ++ rest y /\ seen y = rev t ++ seen x.

(** Equal up to the case folding of the [i] flag. *)
Definition same_letters (a b : str) : Prop :=
  map canonicalize a = map canonicalize b.

(** A trigger line for the word [triggerWord]: up to three asterisks, white
    space, the word in any case, white space, a colon or a full stop, white
    space, and at least one character that is not a line terminator. *)
Definition trigger_line (triggerWord line : str) : Prop :=
  exists stars ws1 word ws2 sep ws3 c tail,
    line = stars ++ ws1 ++ word ++ ws2 ++ sep :: ws3 ++ c :: tail /\
    length stars <= 3 /\ forallb (is_char "*") stars = true /\
    forallb is_space ws1 = true /\
    same_letters triggerWord word /\
    forallb is_space ws2 = true /\
    colon_or_dot sep = true /\
    forallb is_space ws3 = true /\
    dot c = true.

(** The line gives a trigger match from which the card builder takes the
    answer [captured]. *)
Definition trigger_line_yields (triggers : list str) (line captured : str) : Prop :=
  exists m word,
    m ∈ checkForTriggerWords triggers line /\
    firstTrigger triggers m = Some (word, captured).

(** The shape of a cue line: a prompt without colon, a double colon, and an
    answer without colon that is not empty. *)
Definition cue_shape (l : str) : Prop :=
  exists prompt answer,
    l = prompt ++ txt "::" ++ answer /\
    (":"%char ∉ prompt) /\ (":"%char ∉ answer) /\ answer <> [].

Fixpoint is_cue_shape (l : str) : bool :=
  match l with
  | ":"%char :: ":"%char :: s =>
      negb (bool_decide (s = [])) && forallb (fun c => negb (is_char ":" c)) s
  | c :: l' => negb (is_char ":" c) && is_cue_shape l'
  | [] => false
  end.

(** A cue line as the code has it: the shape above, and no highlight
    delimiter on the line. *)
Definition cue_line (l : str) : Prop :=
  cue_shape l /\ includes (txt "==") l = false.

Definition is_cue_line (l : str) : bool :=
  is_cue_shape l && negb (includes (txt "==") l).

(** The number of positions of [s] at which [p] occurs. *)
Fixpoint occurrences (p s : str) : nat :=
  (if startsWith p s then 1 else 0)
  + match s with [] => 0 | _ :: s' => occurrences p s' end.

(** A cue line in the words of the specification: a prompt and an answer,
    neither empty, around the only double colon of the line, and no
    highlight delimiter. *)
Definition spec_cue_line (l : str) : Prop :=
  exists prompt answer,
    l = prompt ++ txt "::" ++ answer /\
    prompt <> [] /\ answer <> [] /\
    occurrences (txt "::") l = 1 /\
    includes (txt "==") l = false.

(** The specification's reading of cue-line extraction on a document. *)
Definition spec_cue_extraction (content : str) : Prop :=
  forall l, l ∈ extractRemNoteCues content <->
            l ∈ split "010" content /\ spec_cue_line l.







(** A cloze deletion marker, [{{c], digits, [::], starts the text. *)
Fixpoint digits_then_colons (t : str) : bool :=
  match t with
  | ":"%char :: ":"%char :: _ => true
  | d :: t' => is_digit d && digits_then_colons t'
  | [] => false
  end.

Definition marker_start (s : str) : bool :=
  match s with
  | "{"%char :: "{"%char :: "c"%char :: d :: t =>
      is_digit d && digits_then_colons t
  | _ => false
  end.

(** The number of deletion markers of a text. *)
Fixpoint countMarkers (s : str) : nat :=
  (if marker_start s then 1 else 0)
  + match s with [] => 0 | _ :: s' => countMarkers s' end.

(** Every deletion marker of the text is numbered [c1]. *)
Fixpoint markersAreC1 (s : str) : bool :=
  (if marker_start s then startsWith (txt "{{c1::") s else true)
  && match s with [] => true | _ :: s' => markersAreC1 s' end.

(** The invariant of cloze cards: the cloze body is present and holds
    exactly one deletion marker, numbered [c1]. *)
Definition single_c1_cloze (q : QuizQuestion) : Prop :=
  type q = Cloze /\
  exists body,
    clozeText q = Some body /\ countMarkers body = 1 /\ markersAreC1 body = true.

(** The text of a cloze body before the deletion marker the builder puts
    in the place of [highlight], found after [before] on its line: the
    context and the start of the line. *)
Definition beforeMarker (content : str) (file : option str)
    (highlight before : str) : str :=
  contextOf (generateFilenameDisplay file)
    (getMostRelevantHeader content highlight)
  ++ txt "
 " ++ before.

(** The text after the opening of that marker: the answer, as [replace]
    expands its dollar patterns, the two closing braces, and the end of the
    line. *)
Definition afterMarker (highlight before after : str) : str :=
  expand (cleanHighlight highlight ++ txt "}}") highlight before after ++ after.

(** [line] is the first line of the document that holds [highlight], and
    [highlight] stands in it between [before] and [after], at its first
    occurrence. *)
Definition first_place (content highlight line before after : str) : Prop :=
  (exists i,
     split "010" content !! i = Some line /\
     forall j l, j < i -> split "010" content !! j = Some l ->
       includes highlight l = false) /\
  line = before ++ highlight ++ after /\
  forall b1 c b2, before = b1 ++ c :: b2 ->
    startsWith highlight (c :: b2 ++ highlight ++ after) = false.

(** The cloze card of a highlight at that place: its answer is the
    highlight without delimiters, and its cloze body is the context and the
    line with the marker numbered [c1] in the place of the highlight. *)
Definition marker_in_place (content : str) (file : option str)
    (highlight before after : str) (q : QuizQuestion) : Prop :=
  type q = Cloze /\
  answer q = cleanHighlight highlight /\
  clozeText q
  = Some (beforeMarker content file highlight before
          ++ txt "{{c1::" ++ afterMarker highlight before after).


(** * Vocabulary of the further properties *)

(** The pattern holds no end-of-input assertion. *)
Fixpoint no_eol (r : regex) : bool :=
  match r with
  | Eol => false
  | Cat r1 r2 => no_eol r1 && no_eol r2
  | Opt r1 | Grp _ r1 => no_eol r1
  | _ => true
  end.

(** A heading line with the heading text [h]: once trimmed, the line is one
    to six [#], white space, and a text without line terminator that is not
    empty and has no white space at either end. *)
Definition heading_line (l h : str) : Prop :=
  exists hashes ws,
    trim l = hashes ++ ws ++ h /\
    forallb (is_char "#") hashes = true /\ 1 <= length hashes <= 6 /\
    forallb is_space ws = true /\ ws <> [] /\
    h <> [] /\ forallb dot h = true /\ trim h = h.

Definition no_heading (l : str) : Prop := forall h, ~ heading_line l h.

(** The card of a trigger match: it is attributed to the first configured
    word whose pattern matches the text of the match, its question ends with
    that word after a blank line, and its answer is trimmed. *)
Definition trigger_card_of (triggers : list str) (m : str) (q : QuizQuestion)
    : Prop :=
  exists pre word post context,
    triggers = pre ++ word :: post /\
    Forall (fun w => match_first false (re_trigger w) m = None) pre /\
    is_Some (match_first false (re_trigger word) m) /\
    question q = context ++ txt "

" ++ word /\
    trim (answer q) = answer q.

(** The rows of a tab-separated text: its lines, without the empty piece
    that follows the last line feed, cut at the tabulations. *)
Definition rowsOf (output : str) : list (list str) :=
  map (split tab) (removelast (split "010" output)).

(** The columns of the exported row of a card. *)
Definition exportColumns (q : QuizQuestion) : list str :=
  [cleanTextForAnki (exportSides q).1; cleanTextForAnki (exportSides q).2;
   exportTag q].

(** Reading a quoted field of a CSV record, after its opening quote: up to
    the first quote that no other quote follows; a quote written twice
    stands for one quote of the field.  The result is the field and what
    follows its closing quote. *)
Fixpoint readQuotedBody (s : str) : option (str * str) :=
  match s with
  | [] => None
  | c :: s' =>
      if is_char quote c then
        match s' with
        | c' :: s'' =>
            if is_char quote c' then
              match readQuotedBody s'' with
              | Some (f, r) => Some (quote :: f, r)
              | None => None
              end
            else Some ([], s')
        | [] => Some ([], [])
        end
      else
        match readQuotedBody s' with
        | Some (f, r) => Some (c :: f, r)
        | None => None
        end
  end.

Definition readQuoted (s : str) : option (str * str) :=
  match s with
  | c :: s' => if is_char quote c then readQuotedBody s' else None
  | [] => None
  end.

Definition expect (a : ascii) (s : str) : option str :=
  match s with
  | c :: s' => if is_char a c then Some s' else None
  | [] => None
  end.

(** A record of three quoted fields, separated by commas and ended by a
    line feed. *)
Definition readRecord (s : str) : option (list str * str) :=
  match readQuoted s with
  | Some (f1, s1) =>
      match expect "," s1 with
      | Some s2 =>
          match readQuoted s2 with
          | Some (f2, s3) =>
              match expect "," s3 with
              | Some s4 =>
                  match readQuoted s4 with
                  | Some (f3, s5) =>
                      match expect "010" s5 with
                      | Some s6 => Some ([f1; f2; f3], s6)
                      | None => None
                      end
                  | None => None
                  end
              | None => None
              end
          | None => None
          end
      | None => None
      end
  | None => None
  end.

(** A text made of exactly [n] such records. *)
Fixpoint readRecords (n : nat) (s : str) : option (list (list str)) :=
  match n with
  | 0 => match s with [] => Some [] | _ :: _ => None end
  | S n' =>
      match readRecord s with
      | Some (record, s') =>
          match readRecords n' s' with
          | Some records => Some (record :: records)
          | None => None
          end
      | None => None
      end
  end.

(** Escaping in one pass, character by character. *)
Definition escapeChar (c : ascii) : str :=
  if is_char "&" c then txt "&amp;"
  else if is_char "<" c then txt "&lt;"
  else if is_char ">" c then txt "&gt;"
  else if is_char quote c then txt "&quot;"
  else if is_char "'" c then txt "&#39;"
  else [c].

(** A character that cannot open or close a tag or a quoted attribute. *)
Definition markup_free (c : ascii) : bool :=
  negb (is_char "<" c || is_char ">" c || is_char quote c || is_char "'" c).

(** A character that can stand in a double-quoted attribute holding an
    address: no double quote, no angle bracket, no white space. *)
Definition attribute_safe (c : ascii) : bool :=
  negb (is_char quote c || is_char "<" c || is_char ">" c || is_space c).

(** The fields the reconciliation of the exporter reads and writes for a
    note, chosen by the name of its model: the ones it compares with the
    record found, and the one an update writes. *)
Definition reconciledFields (note : AnkiNote) : list string :=
  if decide (modelName note = txt "Cloze") then ["Text"; "Extra"]%string
  else ["Front"; "Back"]%string.

(** The card is converted as a cloze note. *)
Definition converted_as_cloze (q : QuizQuestion) : bool :=
  is_cloze q && truthy (clozeText q).

(** The deck names the client takes from the reply to [deckNames]: none
    when the request fails or is answered with an error. *)
Definition listedDecks (anki : DeckServer) (log : list deckRequest) : list str :=
  match on_deckNames anki log with
  | Unreachable _ => []
  | Response error result => if truthy error then [] else default [] result
  end.

(** The server creates the deck: it answers the request, without error. *)
Definition creation_accepted (anki : DeckServer) (log : list deckRequest)
    (deck : str) : bool :=
  match on_createDeck anki log deck with
  | Unreachable _ => false
  | Response error _ => negb (truthy error)
  end.

(** The list of the decks cannot be fetched. *)
Definition listing_fails (anki : DeckServer) (log : list deckRequest) : Prop :=
  match on_deckNames anki log with
  | Unreachable _ => True
  | Response error _ => truthy error = true
  end.

(** A server that knows the decks [decks], whose list it gives only after
    [downtime] requests, and that creates any deck. *)
Definition deckServer (decks : list str) (downtime : nat) : DeckServer :=
  {| on_deckNames := fun log =>
       if length log <? downtime then Unreachable (txt "Failed to fetch")
       else Response None (Some decks);
     on_createDeck := fun _ _ => Response None (Some 1%Z) |}.

(** The text of a card in which the router looks for the trigger words. *)
Definition routedText (q : QuizQuestion) : str :=
  toLowerCase (question q ++ txt " " ++ answer q).

(** The questions the router attributes to the word [w], in their order. *)
Definition groupOf (triggers : list str) (w : str)
    (questions : list QuizQuestion) : list QuizQuestion :=
  filter (fun q => extractTriggerWord triggers q = Some w) questions.

(** The group found under the key [w] after grouping: the questions
    attributed to [w], if [w] is not empty and there are any. *)
Definition expectedGroup (triggers : list str) (w : str)
    (questions : list QuizQuestion) : option (list QuizQuestion) :=
  if decide (w = []) then None
  else match groupOf triggers w questions with
       | [] => None
       | q :: group => Some (q :: group)
       end.

(** No question is attributed to a name that every object inherits. *)
Definition no_inherited_key (triggers : list str)
    (questions : list QuizQuestion) : Prop :=
  Forall
    (fun q => forall w, extractTriggerWord triggers q = Some w ->
                        w ∉ objectPrototypeNames)
    questions.

(** The same card up to the wording of its question and its explanation. *)
Definition same_but_wording (q q' : QuizQuestion) : Prop :=
  type q' = type q /\ answer q' = answer q /\ options q' = options q /\
  clozeText q' = clozeText q.

(** The cards from index [i] on whose lookup found no record, in order, and
    the number of the cards whose lookup found one. *)
Fixpoint unmatchedFrom (i : nat) (ankiNotes : list AnkiNote)
    (matches : list MatchInfo) : list AnkiNote :=
  match ankiNotes with
  | [] => []
  | note :: ankiNotes' =>
      match matchedId (matches !! i) with
      | Some _ => unmatchedFrom (S i) ankiNotes' matches
      | None => note :: unmatchedFrom (S i) ankiNotes' matches
      end
  end.

Fixpoint matchedCount (i : nat) (ankiNotes : list AnkiNote)
    (matches : list MatchInfo) : nat :=
  match ankiNotes with
  | [] => 0
  | note :: ankiNotes' =>
      match matchedId (matches !! i) with
      | Some _ => S (matchedCount (S i) ankiNotes' matches)
      | None => matchedCount (S i) ankiNotes' matches
      end
  end.

(** What a group comes to when the notes [created] are sent for creation,
    [skippedCards] cards are skipped and no card is updated: the requests
    sent are those of the creation of [created], if there are any, and the
    report counts the skipped cards and the results of the creation. *)
Definition creates_only (anki : AnkiConnect) (created : list AnkiNote)
    (skippedCards : nat) (result0 : AnkiExportResult)
    (log : list request) (out : outcome AnkiExportResult * list request) : Prop :=
  exists r adds,
    out = (Ok r, log ++ adds) /\
    skipped r = skipped result0 + skippedCards /\
    Forall (fun req => ~ is_update req) adds /\
    match created with
    | [] => adds = [] /\ success r = success result0 /\ failed r = failed result0
    | _ :: _ =>
        exists results,
          addNotes anki created log = (Ok results, log ++ adds) /\
          success r = success result0 + accepted results /\
          failed r = failed result0 + rejected results
    end.

(** The cards counted in a report. *)
Definition counted (r : AnkiExportResult) : nat :=
  success r + failed r + skipped r.

(** The server answers a bulk creation it accepts with one result per
    note. *)
Definition bulk_replies_aligned (anki : AnkiConnect) : Prop :=
  forall log notes error result,
    on_addNotes anki log notes = Response error result ->
    truthy error = false ->
    exists ids, result = Some ids /\ length ids = length notes.


(** The cards the loop of the exporter has dealt with: the ones to create,
    the updated ones, the skipped ones and the ones whose update failed. *)
Definition handled (st : Progress) : nat :=
  length (notesToCreate st) + updatedCount st + skippedCount st
  + failed (result st).

(** A character of a normalised text: the space, or a word character that
    is its own lower case. *)
Definition normal_char (c : ascii) : bool :=
  is_char " " c || (is_word c && is_char (lower_char c) c).
(** * Properties *)

(** ** The similarity check *)

Lemma startsWith_spec (p s : str) :
  startsWith p s = true <-> exists t, s = p ++ t.
Proof.
  revert s. induction p as [|a p IH]; intros s; simpl.
  - split; [intros _; by exists s | done].
  - destruct s as [|b s].
    + split; [done | intros [t Ht]; discriminate].
    + rewrite andb_true_iff, IH. unfold is_char.
      rewrite Ascii.eqb_eq. split.
      * intros [-> [t ->]]. by exists t.
      * intros [t Ht]. injection Ht as -> ->. eauto.
Qed.

Lemma includes_spec (p s : str) :
  includes p s = true <-> exists a b, s = a ++ p ++ b.
Proof.
  induction s as [|c s IH]; simpl.
  - rewrite orb_false_r, startsWith_spec. split.
    + intros [t Ht]. by exists [], t.
    + intros [a [b Hab]]. destruct a; [by exists b | discriminate].
  - rewrite orb_true_iff, startsWith_spec, IH. split.
    + intros [[t Ht] | [a [b Hab]]].
      * by exists [], t.
      * exists (c :: a), b. by rewrite Hab.
    + intros [a [b Hab]]. destruct a as [|c' a].
      * left. by exists b.
      * right. injection Hab as _ Hab. eauto.
Qed.

(** ** AI enhancement *)



(** ** The AnkiConnect client *)

Lemma updateNoteFields_log (anki : AnkiConnect) (id : Z)
    (object : gmap string str) (log : list request) :
  exists ok : bool,
    updateNoteFields anki id object log =
    (Ok ok, log ++ [UpdateNoteFields id object]).
Proof.
  unfold updateNoteFields, catch, bind, sendRequest, throw, ret.
  destruct (on_updateNoteFields anki log id object) as [msg|error []]; simpl.
  - by exists false.
  - destruct (truthy error); by eexists.
Qed.

Lemma addNotesOneByOne_spec (anki : AnkiConnect) (notes : list AnkiNote) :
  forall (results : list (option Z)) (log : list request),
    addNotesOneByOne anki notes results log =
    (Ok (results ++ individualResults anki log notes), log ++ map AddNote notes).
Proof.
  induction notes as [|note notes IH]; intros results log; simpl.
  - unfold ret. by rewrite !app_nil_r.
  - unfold bind at 1, catch, sendRequest.
    unfold bind at 1.
    destruct (on_addNote anki log note) as [msg|error result]; simpl.
    + unfold ret. rewrite IH. by rewrite <- !app_assoc.
    + destruct (truthy error); simpl.
      * destruct (includes _ _); unfold ret, throw; simpl;
          rewrite IH; by rewrite <- !app_assoc.
      * unfold ret. rewrite IH. by rewrite <- !app_assoc.
Qed.

(** Whatever the server does, [addNotes] returns, and its requests are the
    bulk one, followed by one per note exactly when the bulk one failed. *)
Lemma addNotes_bulk_ok (anki : AnkiConnect) (notes : list AnkiNote)
    (log : list request) (result : option (list (option Z))) (error : option str) :
  on_addNotes anki log notes = Response error result ->
  truthy error = false ->
  addNotes anki notes log = (Ok (default [] result), log ++ [AddNotes notes]).
Proof.
  intros H E. unfold addNotes, catch, bind, sendRequest. rewrite H. simpl.
  by rewrite E.
Qed.

Lemma addNotes_bulk_failed (anki : AnkiConnect) (notes : list AnkiNote)
    (log : list request) :
  bulk_fails anki log notes ->
  addNotes anki notes log =
  (Ok (individualResults anki (log ++ [AddNotes notes]) notes),
   log ++ AddNotes notes :: map AddNote notes).
Proof.
  unfold bulk_fails, addNotes, catch, bind, sendRequest.
  destruct (on_addNotes anki log notes) as [msg|error result]; simpl.
  - intros _. rewrite addNotesOneByOne_spec. simpl. by rewrite <- app_assoc.
  - intros ->. unfold throw. rewrite addNotesOneByOne_spec. simpl.
    by rewrite <- app_assoc.
Qed.

Lemma addNotes_log (anki : AnkiConnect) (notes : list AnkiNote)
    (log : list request) :
  exists results adds,
    addNotes anki notes log = (Ok results, log ++ adds) /\
    Forall (fun req => ~ is_update req) adds.
Proof.
  destruct (on_addNotes anki log notes) as [msg|error result] eqn:H.
  - eexists _, _. split.
    + apply addNotes_bulk_failed. unfold bulk_fails. by rewrite H.
    + constructor; [simpl; tauto|]. apply Forall_forall.
      intros req [note [-> _]]%list_elem_of_fmap. simpl. tauto.
  - destruct (truthy error) eqn:E.
    + eexists _, _. split.
      * apply addNotes_bulk_failed. unfold bulk_fails. by rewrite H.
      * constructor; [simpl; tauto|]. apply Forall_forall.
        intros req [note [-> _]]%list_elem_of_fmap. simpl. tauto.
    + eexists _, _. split.
      * by eapply addNotes_bulk_ok.
      * constructor; [simpl; tauto | constructor].
Qed.

Lemma individualResults_length (anki : AnkiConnect) (notes : list AnkiNote) :
  forall log, length (individualResults anki log notes) = length notes.
Proof. induction notes as [|n notes IH]; intros log; simpl; [done | by rewrite IH]. Qed.

Lemma accepted_rejected (results : list (option Z)) :
  accepted results + rejected results = length results.
Proof.
  unfold accepted, rejected. induction results as [|[id|] results IH].
  - done.
  - rewrite filter_cons_True by eauto. rewrite filter_cons_False by done.
    simpl. lia.
  - rewrite filter_cons_False by (intros [? ?]; done).
    rewrite filter_cons_True by done. simpl. lia.
Qed.

Lemma countAdded_counts (deck : str) (questions : list QuizQuestion)
    (results : list (option Z)) :
  forall (idx : nat) (r : AnkiExportResult),
    success (countAdded deck questions idx results r) = success r + accepted results /\
    failed (countAdded deck questions idx results r) = failed r + rejected results /\
    skipped (countAdded deck questions idx results r) = skipped r.
Proof.
  unfold accepted, rejected.
  induction results as [|[id|] results IH]; intros idx r; cbn [countAdded].
  - simpl. lia.
  - rewrite filter_cons_True by (by eexists). rewrite filter_cons_False by done.
    destruct (IH (S idx) (recordSuccess r)) as (-> & -> & ->). simpl. lia.
  - rewrite filter_cons_False by (intros [? ?]; done).
    rewrite filter_cons_True by done.
    match goal with |- context [countAdded _ _ _ _ ?r'] =>
      destruct (IH (S idx) r') as (-> & -> & ->) end.
    simpl. lia.
Qed.

Lemma reconcileNote_unmatched (anki : AnkiConnect) (behavior : Behavior)
    (deck : str) (note : AnkiNote) (m : option MatchInfo) (st : Progress)
    (log : list request) :
  matchedId m = None ->
  reconcileNote anki behavior deck note m st log = (Ok (schedule note st), log).
Proof. intros H. unfold reconcileNote. by rewrite H. Qed.

Lemma reconcileLoop_unmatched (anki : AnkiConnect) (behavior : Behavior)
    (deck : str) (ankiNotes : list AnkiNote) :
  forall (i : nat) (st : Progress) (log : list request),
    exists st',
      reconcileLoop anki behavior deck i ankiNotes [] st log = (Ok st', log) /\
      notesToCreate st' = notesToCreate st ++ ankiNotes /\
      updatedCount st' = updatedCount st /\
      skippedCount st' = skippedCount st /\
      result st' = result st.
Proof.
  induction ankiNotes as [|note ankiNotes IH]; intros i st log;
    cbn [reconcileLoop].
  - exists st. by rewrite app_nil_r.
  - unfold bind. rewrite reconcileNote_unmatched by done.
    destruct (IH (S i) (schedule note st) log) as (st' & -> & H1 & H2 & H3 & H4).
    exists st'. split; [done|]. simpl in H1. by rewrite <- app_assoc in H1.
Qed.

(** C7. When the bulk creation fails wholesale, every note of the batch is
    submitted on its own, in order and whatever happened to the others; the
    result of each is its new id, or [null] when its own request is rejected
    (as a duplicate or otherwise) or gets no response; nothing is thrown, and
    for a group of new cards the exporter reports one success per accepted
    note and one failure per rejected one. *)
Theorem addNotes_fallback_isolates_failures (anki : AnkiConnect)
    (log : list request) (notes : list AnkiNote) (deck : str)
    (questions : list QuizQuestion) (existingNoteBehavior : option Behavior)
    (result0 : AnkiExportResult) :
  bulk_fails anki log notes ->
  let results := individualResults anki (log ++ [AddNotes notes]) notes in
  addNotes anki notes log =
    (Ok results, log ++ AddNotes notes :: map AddNote notes) /\
  length results = length notes /\
  accepted results + rejected results = length notes /\
  (notes <> [] ->
   exists r,
     processQuestionGroup anki existingNoteBehavior deck questions notes []
       result0 log
     = (Ok r, log ++ AddNotes notes :: map AddNote notes) /\
     success r = success result0 + accepted results /\
     failed r = failed result0 + rejected results).
Proof.
  intros H results.
  pose proof (addNotes_bulk_failed anki notes log H) as Hadd.
  split; [done|].
  assert (length results = length notes) as Hlen
    by apply individualResults_length.
  split; [done|]. split; [by rewrite accepted_rejected|].
  intros Hne. unfold processQuestionGroup. unfold bind at 1.
  destruct (reconcileLoop_unmatched anki (default Skip existingNoteBehavior)
              deck notes 0
              {| notesToCreate := []; updatedCount := 0; skippedCount := 0;
                 result := result0 |} log)
    as (st & -> & Hcreate & Hup & Hskip & Hres).
  simpl in Hcreate, Hup, Hskip, Hres. rewrite Hcreate, Hup, Hskip, Hres.
  destruct notes as [|n notes']; [done|].
  unfold bind. rewrite Hadd. unfold ret.
  eexists. split; [done|]. subst results.
  match goal with |- context [countAdded ?d ?q ?i ?rs ?r'] =>
    destruct (countAdded_counts d q rs i r') as (-> & -> & _) end.
  simpl. lia.
Qed.

(** Five notes, the third one a duplicate: four are created, one fails. *)
Lemma addNotes_fallback_isolates_failures_witness :
  bulk_fails (rejectingServer (txt "three")) [] fiveNotes /\
  individualResults (rejectingServer (txt "three")) [AddNotes fiveNotes] fiveNotes
  = [Some 1001; Some 1002; None; Some 1004; Some 1005]%Z /\
  exists r,
    processQuestionGroup (rejectingServer (txt "three")) None (txt "definition")
      [] fiveNotes [] emptyResult []
    = (Ok r, AddNotes fiveNotes :: map AddNote fiveNotes) /\
    success r = 4 /\ failed r = 1.
Proof.
  assert (bulk_fails (rejectingServer (txt "three")) [] fiveNotes) as H
    by exact I.
  destruct (addNotes_fallback_isolates_failures
              (rejectingServer (txt "three")) [] fiveNotes (txt "definition")
              [] None emptyResult H) as (_ & _ & _ & Hgroup).
  split; [exact H|]. split; [by vm_compute|].
  destruct Hgroup as (r & Hr & Hs & Hf); [done|].
  exists r. split; [exact Hr|].
  split; (etransitivity; [first [exact Hs | exact Hf] | by vm_compute]).
Defined.

(** ** The update policy of the exporter *)

Lemma reconcileNote_update_log (anki : AnkiConnect) (deck : str) (note : AnkiNote)
    (m : option MatchInfo) (st : Progress) (log : list request) :
  exists st',
    reconcileNote anki Update deck note m st log =
    (Ok st',
     log ++ match changed note m with
            | Some id => [UpdateNoteFields id (fieldsToUpdate note)]
            | None => []
            end).
Proof.
  unfold reconcileNote, changed.
  destruct (matchedId m) as [id|]; [|eexists; unfold ret; by rewrite app_nil_r].
  destruct (differs note _); [|eexists; unfold ret; by rewrite app_nil_r].
  unfold bind.
  destruct (updateNoteFields_log anki id (fieldsToUpdate note) log) as [ok ->].
  destruct ok; by eexists.
Qed.

Lemma reconcileLoop_update_log (anki : AnkiConnect) (deck : str)
    (matches : list MatchInfo) (ankiNotes : list AnkiNote) :
  forall (i : nat) (st : Progress) (log : list request),
    exists st',
      reconcileLoop anki Update deck i ankiNotes matches st log =
      (Ok st', log ++ updateCalls i ankiNotes matches).
Proof.
  induction ankiNotes as [|note ankiNotes IH]; intros i st log; simpl.
  - eexists. unfold ret. by rewrite app_nil_r.
  - unfold bind.
    destruct (reconcileNote_update_log anki deck note (matches !! i) st log)
      as [st1 ->].
    destruct (IH (S i) st1
                (log ++ match changed note (matches !! i) with
                        | Some id => [UpdateNoteFields id (fieldsToUpdate note)]
                        | None => []
                        end)) as [st2 ->].
    exists st2. by rewrite <- app_assoc.
Qed.

Lemma fieldsToUpdate_only (note : AnkiNote) :
  only_field (answerField note) (fieldsToUpdate note) /\
  fieldsToUpdate note !! "Front" = None /\
  fieldsToUpdate note !! "Text" = None.
Proof.
  unfold only_field, answerField, fieldsToUpdate.
  destruct (decide (modelName note = txt "Cloze")); (split; [|done]);
    intros other; rewrite lookup_singleton_is_Some; naive_solver.
Qed.

Lemma updateCalls_elem (id : Z) (object : gmap string str)
    (matches : list MatchInfo) (ankiNotes : list AnkiNote) :
  forall i,
    UpdateNoteFields id object ∈ updateCalls i ankiNotes matches ->
    exists note, note ∈ ankiNotes /\ object = fieldsToUpdate note.
Proof.
  induction ankiNotes as [|note ankiNotes IH]; intros i; simpl.
  - by intros ?%elem_of_nil.
  - rewrite elem_of_app. intros [H|H].
    + exists note. split; [by left|].
      destruct (changed note (matches !! i)); [|by apply elem_of_nil in H].
      apply list_elem_of_singleton in H. by injection H.
    + destruct (IH _ H) as (n & ? & ?). exists n. split; [by right | done].
Qed.

(** C1 (as the code has it). Under the [update] policy the requests of a
    group are: one [updateNoteFields] per changed card, in the order of the
    cards, then the creation requests, which hold no update.  The field map
    of each update holds exactly one field, [Extra] for a cloze record and
    [Back] for a front/back record; it never holds [Front], nor [Text]. *)
Theorem update_policy_writes_answer_field (anki : AnkiConnect) (deck : str)
    (questions : list QuizQuestion) (ankiNotes : list AnkiNote)
    (matches : list MatchInfo) (result0 : AnkiExportResult)
    (log : list request) :
  exists (r : AnkiExportResult) (adds : list request),
    processQuestionGroup anki (Some Update) deck questions ankiNotes matches
      result0 log
    = (Ok r, log ++ updateCalls 0 ankiNotes matches ++ adds) /\
    Forall (fun req => ~ is_update req) adds /\
    updates_write_only answerField ankiNotes
      (updateCalls 0 ankiNotes matches ++ adds) /\
    forall note,
      only_field (answerField note) (fieldsToUpdate note) /\
      fieldsToUpdate note !! "Front" = None /\
      fieldsToUpdate note !! "Text" = None.
Proof.
  unfold processQuestionGroup. simpl. unfold bind at 1.
  destruct (reconcileLoop_update_log anki deck matches ankiNotes 0
              {| notesToCreate := []; updatedCount := 0; skippedCount := 0;
                 result := result0 |} log) as [st ->].
  assert (forall adds, Forall (fun req => ~ is_update req) adds ->
            updates_write_only answerField ankiNotes
              (updateCalls 0 ankiNotes matches ++ adds)) as Hw.
  { intros adds Hadds id object [H|H]%elem_of_app.
    - destruct (updateCalls_elem _ _ _ _ _ H) as (note & Hin & ->).
      exists note. split; [done | apply fieldsToUpdate_only].
    - rewrite Forall_forall in Hadds. destruct (Hadds _ H). exact I. }
  destruct (notesToCreate st) as [|n ns] eqn:E.
  - eexists _, []. unfold ret. rewrite !app_nil_r.
    split; [done|]. split; [constructor|].
    split; [|apply fieldsToUpdate_only].
    specialize (Hw [] (Forall_nil_2 _)). by rewrite app_nil_r in Hw.
  - unfold bind.
    destruct (addNotes_log anki (n :: ns) (log ++ updateCalls 0 ankiNotes matches))
      as (results & adds & -> & Hadds).
    eexists _, adds. unfold ret. rewrite <- app_assoc.
    split; [done|]. split; [done|]. split; [by apply Hw | apply fieldsToUpdate_only].
Qed.

(** C1 as stated fails on a cloze card: the update holds [Extra] alone, not
    the text field. *)
Lemma update_policy_cloze_counterexample :
  ~ updates_write_only specAnswerField [clozeNote]
      (processQuestionGroup acceptingServer (Some Update) (txt "definition") []
         [clozeNote] [clozeMatch] emptyResult []).2.
Proof.
  intros H.
  destruct (H 7%Z {[ "Extra" := [] ]}) as (note & Hin & Honly).
  - vm_compute. left.
  - apply list_elem_of_singleton in Hin. subst note.
    destruct (Honly "Text") as [_ Hsome].
    destruct (Hsome eq_refl) as [v Hv]. vm_compute in Hv. discriminate.
Qed.

Example update_policy_basic_example :
  (processQuestionGroup acceptingServer (Some Update) (txt "definition") []
     [basicNote (txt "f.md<br><br>definition") (txt "a new answer")]
     [basicMatch] emptyResult []).2
  = [UpdateNoteFields 8 {[ "Back" := txt "a new answer" ]}].
Proof. by vm_compute. Qed.

(** ** The matcher *)

Lemma repeat_eq (p : ascii -> bool) (greedy : bool) (lo : nat) (hi : option nat)
    (sn rs : str) (g : gmap nat str) (k : cursor -> option cursor) :
  repeat p greedy lo hi sn rs g k =
  match hi with
  | Some 0 => k (Cursor sn rs g)
  | _ =>
    match lo with
    | S lo' => iterate p greedy lo' hi sn rs g k
    | 0 =>
        if greedy then
          match iterate p greedy 0 hi sn rs g k with
          | Some z => Some z
          | None => k (Cursor sn rs g)
          end
        else
          match k (Cursor sn rs g) with
          | Some z => Some z
          | None => iterate p greedy 0 hi sn rs g k
          end
    end
  end.
Proof. by destruct rs. Qed.

Lemma within_stop (lo : nat) (hi : option nat) :
  hi = Some 0 \/ lo = 0 -> within lo hi 0.
Proof. unfold within. intros [->| ->]; [lia|]. destruct hi; lia. Qed.

Lemma within_step (lo lo' : nat) (hi : option nat) (n : nat) :
  hi <> Some 0 -> lo <= S lo' -> within lo' (pred <$> hi) n ->
  within lo hi (S n).
Proof.
  unfold within. destruct hi as [[|h]|]; simpl; try done; lia.
Qed.

Lemma repeat_sound (p : ascii -> bool) (greedy : bool) (g : gmap nat str)
    (k : cursor -> option cursor) (z : cursor) (rs : str) :
  forall (lo : nat) (hi : option nat) (sn : str),
    repeat p greedy lo hi sn rs g k = Some z ->
    exists t rs',
      rs = t ++ rs' /\ forallb p t = true /\ within lo hi (length t) /\
      k (Cursor (rev t ++ sn) rs' g) = Some z.
Proof.
  induction rs as [|c rs IH]; intros lo hi sn; rewrite repeat_eq.
  - assert (forall lo', iterate p greedy lo' hi sn [] g k = None) as Hit by done.
    intros H.
    assert (k (Cursor sn [] g) = Some z /\ (hi = Some 0 \/ lo = 0)) as [Hk Hw].
    { destruct hi as [[|h]|], lo as [|lo]; rewrite ?Hit in H;
        try discriminate; try (split; [done | by auto]);
        (destruct greedy; [|destruct (k (Cursor sn [] g))]);
        try discriminate; split; by auto. }
    exists [], []. repeat split; try done. by apply within_stop.
  - intros H.
    assert ((k (Cursor sn (c :: rs) g) = Some z /\ (hi = Some 0 \/ lo = 0)) \/
            (exists lo', hi <> Some 0 /\ lo <= S lo' /\
               iterate p greedy lo' hi sn (c :: rs) g k = Some z)) as [[Hk Hw]|Hit].
    { destruct hi as [[|h]|], lo as [|lo];
        try (left; split; [done | by auto]);
        try (right; exists lo; split; [done | split; [lia | done]]);
        (destruct greedy;
         [ destruct (iterate p true 0 _ sn (c :: rs) g k) eqn:E;
           [ right; exists 0; split; [done | split; [lia | congruence]]
           | left; split; by auto ]
         | destruct (k (Cursor sn (c :: rs) g)) eqn:E;
           [ left; split; by auto
           | right; exists 0; split; [done | split; [lia | done]] ] ]). }
    + exists [], (c :: rs). repeat split; try done. by apply within_stop.
    + destruct Hit as (lo' & Hhi & Hlo & Hit). simpl in Hit.
      destruct (p c) eqn:Hc; [|discriminate].
      destruct (IH _ _ _ Hit) as (t & rs' & -> & Hp & Hw & Hk).
      exists (c :: t), rs'. split; [done|]. split; [simpl; by rewrite Hc|].
      split; [by eapply within_step|]. simpl. by rewrite <- app_assoc.
Qed.

Lemma repeat_complete (p : ascii -> bool) (greedy : bool)
    (k : cursor -> option cursor) (t : str) :
  forall (lo : nat) (hi : option nat) (sn rs' : str) (g : gmap nat str),
    forallb p t = true -> within lo hi (length t) ->
    is_Some (k (Cursor (rev t ++ sn) rs' g)) ->
    is_Some (repeat p greedy lo hi sn (t ++ rs') g k).
Proof.
  induction t as [|c t IH]; intros lo hi sn rs' g Hp Hw Hk; rewrite repeat_eq.
  - simpl in *. unfold within in Hw.
    destruct hi as [[|h]|], lo as [|lo]; try done; try lia;
      destruct greedy; try (by destruct (iterate _ _ _ _ _ _ _ _));
      by destruct Hk as [z ->].
  - simpl in Hp. apply andb_true_iff in Hp as [Hc Hp].
    assert (forall lo', within lo' (pred <$> hi) (length t) ->
              is_Some (iterate p greedy lo' hi sn ((c :: t) ++ rs') g k)) as Hit.
    { intros lo' Hw'. simpl. rewrite Hc. apply IH; try done.
      simpl in Hk. by rewrite <- app_assoc in Hk. }
    unfold within in Hw. simpl in Hw.
    destruct hi as [[|h]|], lo as [|lo]; try lia.
    + destruct (Hit 0) as [z Hz]; [simpl; lia|].
      destruct greedy; [by rewrite Hz|].
      by destruct (k (Cursor sn _ g)).
    + apply Hit. simpl. lia.
    + destruct (Hit 0) as [z Hz]; [simpl; lia|].
      destruct greedy; [by rewrite Hz|].
      by destruct (k (Cursor sn _ g)).
    + apply Hit. simpl. lia.
Qed.

(** Every success of the matcher goes through its continuation at the end of
    a text of the language of the pattern. *)
Lemma run_sound (multiline : bool) (r : regex) :
  forall (x : cursor) (k : cursor -> option cursor) (z : cursor),
    run multiline r x k = Some z ->
    exists t rs' g',
      rest x = t ++ rs' /\ lang multiline r (seen x) t rs' /\
      k (Cursor (rev t ++ seen x) rs' g') = Some z.
Proof.
  induction r as [|p|r1 IH1 r2 IH2|r1 IH1|p greedy lo hi| | |n r1 IH1];
    intros x k z H; simpl in H.
  - exists [], (rest x), (groups x). by destruct x.
  - destruct (rest x) as [|c rs] eqn:E; [done|].
    destruct (p c) eqn:Hc; [|done].
    exists [c], rs, (groups x). simpl. eauto.
  - destruct (IH1 _ _ _ H) as (t1 & rs1 & g1 & E1 & L1 & H1).
    destruct (IH2 _ _ _ H1) as (t2 & rs2 & g2 & E2 & L2 & H2).
    simpl in E2, L2, H2. subst rs1.
    exists (t1 ++ t2), rs2, g2. split; [by rewrite <- app_assoc|].
    split; [simpl; by eauto 6|].
    by rewrite rev_app_distr, <- app_assoc.
  - destruct (run multiline r1 x k) as [z'|] eqn:E.
    + injection H as ->. destruct (IH1 _ _ _ E) as (t & rs' & g' & ? & ? & ?).
      exists t, rs', g'. simpl. auto.
    + exists [], (rest x), (groups x). simpl. destruct x. auto.
  - destruct (repeat_sound _ _ _ _ _ _ _ _ _ H) as (t & rs' & ? & ? & ? & ?).
    exists t, rs', (groups x). simpl. auto.
  - destruct (at_bol multiline x) eqn:E; [|done].
    exists [], (rest x), (groups x). simpl. destruct x. auto.
  - destruct (at_eol multiline x) eqn:E; [|done].
    exists [], (rest x), (groups x). simpl. destruct x. auto.
  - destruct (IH1 _ _ _ H) as (t & rs' & g' & ? & ? & Hk). simpl in Hk.
    eauto 6.
Qed.

(** A text of the language of the pattern, followed by a continuation that
    succeeds there, makes the matcher succeed. *)
Lemma run_complete (multiline : bool) (r : regex) :
  forall (x : cursor) (k : cursor -> option cursor) (t rs' : str),
    rest x = t ++ rs' -> lang multiline r (seen x) t rs' ->
    (forall g', is_Some (k (Cursor (rev t ++ seen x) rs' g'))) ->
    is_Some (run multiline r x k).
Proof.
  induction r as [|p|r1 IH1 r2 IH2|r1 IH1|p greedy lo hi| | |n r1 IH1];
    intros [sn rs g] k t rs' E L Hk; simpl in E, L, Hk |- *.
  - subst t rs. apply Hk.
  - destruct L as (c & -> & Hc). subst rs. simpl. rewrite Hc. apply Hk.
  - destruct L as (t1 & t2 & -> & L1 & L2).
    apply (IH1 _ _ t1 (t2 ++ rs')); [by rewrite E, <- app_assoc | done |].
    intros g1. apply (IH2 _ _ t2 rs'); [done | done |].
    intros g2. simpl. specialize (Hk g2).
    by rewrite rev_app_distr, <- app_assoc in Hk.
  - destruct (run multiline r1 (Cursor sn rs g) k) eqn:E1; [done|].
    destruct L as [->|L].
    + subst rs. apply Hk.
    + assert (is_Some (run multiline r1 (Cursor sn rs g) k)) as [z Hz]
        by (by apply (IH1 _ _ t rs')).
      congruence.
  - destruct L as [Hp Hw]. subst rs. apply repeat_complete; auto.
  - destruct L as [-> L]. subst rs. unfold at_bol in *. simpl in *.
    rewrite L. apply Hk.
  - destruct L as [-> L]. subst rs. unfold at_eol in *. simpl in *.
    rewrite L. apply Hk.
  - apply (IH1 _ _ t rs'); [done | done |]. intros g'. apply Hk.
Qed.

Lemma run_matches (multiline : bool) (r : regex) (x : cursor) :
  is_Some (run multiline r x Some) <->
  exists t rs', rest x = t ++ rs' /\ lang multiline r (seen x) t rs'.
Proof.
  split.
  - intros [z H]. destruct (run_sound _ _ _ _ _ H) as (t & rs' & _ & ? & ? & _).
    eauto.
  - intros (t & rs' & E & L). by apply (run_complete _ _ _ _ t rs').
Qed.

Lemma between_ahead (x y : cursor) (t : str) :
  ahead x t y -> between x y = t.
Proof.
  intros [_ E]. unfold between. rewrite E, length_app, length_rev.
  replace (length t + length (seen x) - length (seen x)) with (length (rev t))
    by (rewrite length_rev; lia).
  by rewrite take_app_length, rev_involutive.
Qed.

(** The result of a match lies ahead of its start, by a text of the
    language of the pattern. *)
Lemma run_ahead (multiline : bool) (r : regex) (x y : cursor) :
  run multiline r x Some = Some y ->
  exists t, ahead x t y /\ lang multiline r (seen x) t (rest y).
Proof.
  intros H. destruct (run_sound _ _ _ _ _ H) as (t & rs' & g' & E & L & Hy).
  injection Hy as <-. exists t. by repeat split.
Qed.

Lemma search_nil (multiline : bool) (r : regex) (sn : str) :
  search multiline r sn [] =
  match run multiline r (Cursor sn [] ∅) Some with
  | Some y => Some (Cursor sn [] ∅, y)
  | None => None
  end.
Proof. done. Qed.

Lemma search_cons (multiline : bool) (r : regex) (sn : str) (c : ascii) (rs : str) :
  search multiline r sn (c :: rs) =
  match run multiline r (Cursor sn (c :: rs) ∅) Some with
  | Some y => Some (Cursor sn (c :: rs) ∅, y)
  | None => search multiline r (c :: sn) rs
  end.
Proof. done. Qed.

Lemma search_here (multiline : bool) (r : regex) (sn rs : str) (y : cursor) :
  run multiline r (Cursor sn rs ∅) Some = Some y ->
  search multiline r sn rs = Some (Cursor sn rs ∅, y).
Proof. intros H. destruct rs; simpl; by rewrite H. Qed.

Lemma search_skip (multiline : bool) (r : regex) (rs : str) (t : str) :
  forall sn,
    (forall s1 c s2, t = s1 ++ c :: s2 ->
       run multiline r (Cursor (rev s1 ++ sn) (c :: s2 ++ rs) ∅) Some = None) ->
    search multiline r sn (t ++ rs) = search multiline r (rev t ++ sn) rs.
Proof.
  induction t as [|c t IH]; intros sn H; [done|].
  pose proof (H [] c t eq_refl) as H0. simpl in H0 |- *. rewrite H0, IH.
  - by rewrite <- app_assoc.
  - intros s1 c' s2 ->. specialize (H (c :: s1) c' s2 eq_refl).
    simpl in H. by rewrite <- app_assoc in H.
Qed.

Lemma search_none (multiline : bool) (r : regex) (rs : str) :
  forall sn,
    (forall s1 s2, rs = s1 ++ s2 ->
       run multiline r (Cursor (rev s1 ++ sn) s2 ∅) Some = None) ->
    search multiline r sn rs = None.
Proof.
  intros sn H.
  rewrite <- (app_nil_r rs). rewrite search_skip.
  - simpl. by rewrite (H rs []) by (by rewrite app_nil_r).
  - intros s1 c s2 ->. rewrite app_nil_r. by apply H.
Qed.


(** A match found by [search]: the positions before it do not match, and
    the match starts where [search] says. *)
Lemma search_found (multiline : bool) (r : regex) (rs : str) :
  forall sn x y,
    search multiline r sn rs = Some (x, y) ->
    exists skipped,
      x = Cursor (rev skipped ++ sn) (rest x) ∅ /\
      rs = skipped ++ rest x /\
      run multiline r x Some = Some y /\
      forall s1 c s2, skipped = s1 ++ c :: s2 ->
        run multiline r (Cursor (rev s1 ++ sn) (c :: s2 ++ rest x) ∅) Some = None.
Proof.
  induction rs as [|c rs IH]; intros sn x y H; simpl in H.
  - destruct (run multiline r (Cursor sn [] ∅) Some) as [y'|] eqn:E; [|done].
    injection H as <- <-. exists []. repeat split; try done.
    by intros [|??] ???.
  - destruct (run multiline r (Cursor sn (c :: rs) ∅) Some) as [y'|] eqn:E.
    + injection H as <- <-. exists []. repeat split; try done.
      by intros [|??] ???.
    + destruct (IH _ _ _ H) as (skipped & Hx & -> & Hrun & Hnone).
      exists (c :: skipped). simpl. rewrite <- app_assoc. repeat split; try done.
      intros [|c1 s1] c' s2 Heq; simpl in Heq; injection Heq as -> ->.
      * done.
      * simpl. rewrite <- app_assoc. by apply Hnone.
Qed.

(** What [search] finds lies within the text, and what follows the match
    is no longer than the text. *)
Lemma search_shorter (multiline : bool) (r : regex) (sn rs : str) (x y : cursor) :
  search multiline r sn rs = Some (x, y) ->
  length (rest y) <= length rs /\
  (length (seen y) <> length (seen x) -> length (rest y) < length rs).
Proof.
  intros E.
  destruct (search_found _ _ _ _ _ _ E) as (skipped & _ & -> & Hrun & _).
  destruct (run_ahead _ _ _ _ Hrun) as (t & [-> ->] & _).
  rewrite !length_app, length_rev. split; [lia|].
  destruct t; [done | simpl; lia].
Qed.

(** The loops of a global pattern end before their fuel does: any fuel
    above the length of the text gives the same result. *)
Lemma exec_loop_fuel (multiline : bool) (r : regex) (fuel1 : nat) :
  forall (fuel2 : nat) (sn rs : str),
    length rs < fuel1 -> length rs < fuel2 ->
    exec_loop fuel1 multiline r sn rs = exec_loop fuel2 multiline r sn rs.
Proof.
  induction fuel1 as [|fuel1 IH]; intros fuel2 sn rs H1 H2; [lia|].
  destruct fuel2 as [|fuel2]; [lia|]. cbn [exec_loop].
  destruct (search multiline r sn rs) as [[x y]|] eqn:E; [|done].
  destruct (search_shorter _ _ _ _ _ _ E) as [Hle Hlt]. f_equal.
  destruct (decide _) as [Heq|Hne].
  - destruct (rest y) as [|c t]; [done|]. simpl in Hle. apply IH; lia.
  - specialize (Hlt Hne). apply IH; lia.
Qed.

Lemma replace_loop_fuel (multiline : bool) (r : regex) (repl : str) (fuel1 : nat) :
  forall (fuel2 : nat) (sn rs : str),
    length rs < fuel1 -> length rs < fuel2 ->
    replace_loop fuel1 multiline r repl sn rs
    = replace_loop fuel2 multiline r repl sn rs.
Proof.
  induction fuel1 as [|fuel1 IH]; intros fuel2 sn rs H1 H2; [lia|].
  destruct fuel2 as [|fuel2]; [lia|]. cbn [replace_loop].
  destruct (search multiline r sn rs) as [[x y]|] eqn:E; [|done].
  destruct (search_shorter _ _ _ _ _ _ E) as [Hle Hlt]. do 2 f_equal.
  destruct (decide _) as [Heq|Hne].
  - destruct (rest y) as [|c t]; [done|]. simpl in Hle. f_equal. apply IH; lia.
  - specialize (Hlt Hne). apply IH; lia.
Qed.

(** A pattern that starts with [^], without the [m] flag, matches at the
    start of the text or nowhere. *)
Lemma match_first_anchored (r : regex) (s : str) :
  match_first false (Cat Bol r) s =
  match run false (Cat Bol r) (Cursor [] s ∅) Some with
  | Some y => Some (between (Cursor [] s ∅) y, groups y)
  | None => None
  end.
Proof.
  unfold match_first.
  destruct (run false (Cat Bol r) (Cursor [] s ∅) Some) as [y|] eqn:E.
  - by rewrite (search_here _ _ _ _ _ E).
  - rewrite search_none; [done|].
    intros [|c s1] s2 ->; [done|].
    simpl. unfold at_bol. simpl.
    by destruct (rev s1 ++ [c]) eqn:E'; [destruct (rev s1) | ].
Qed.

Lemma lang_lit_i (multiline : bool) (word : str) :
  forall (sn t rs : str),
    lang multiline (lit_i word) sn t rs <-> same_letters word t.
Proof.
  unfold same_letters.
  induction word as [|a word IH]; intros sn t rs.
  - simpl. split; [by intros -> | by destruct t].
  - change (lit_i (a :: word))
      with (Cat (Chr (fun c => is_char (canonicalize a) (canonicalize c)))
              (lit_i word)).
    simpl. split.
    + intros (t1 & t2 & -> & (c & -> & Hc) & L). apply IH in L.
      apply Ascii.eqb_eq in Hc. simpl. by rewrite Hc, L.
    + destruct t as [|c t]; [done|]. simpl. intros [= Hc Ht].
      exists [c], t. split; [done|]. split.
      * exists c. split; [done|]. unfold is_char. by apply Ascii.eqb_eq.
      * by apply IH.
Qed.

Lemma trigger_lang (triggerWord line : str) :
  (exists t rs', line = t ++ rs' /\ lang false (re_trigger triggerWord) [] t rs')
  <-> trigger_line triggerWord line.
Proof.
  unfold trigger_line, re_trigger, seq, star, plus. simpl. split.
  - intros (t & rs' & -> &
            (t0 & u0 & -> & [-> _] &
             t1 & u1 & -> & Hstars &
             t2 & u2 & -> & [Hws1 _] &
             t3 & u3 & -> & Hword &
             t4 & u4 & -> & [Hws2 _] &
             t5 & u5 & -> & (sep & -> & Hsep) &
             t6 & u6 & -> & [Hws3 _] &
             t7 & u7 & -> & [Hdots Hw] & ->)).
    apply lang_lit_i in Hword.
    destruct t7 as [|c d]; [simpl in Hw; lia|].
    simpl in Hdots. apply andb_true_iff in Hdots as [Hc _].
    exists t1, t2, t3, t4, sep, t6, c, (d ++ rs').
    split; [simpl; rewrite <- ?app_assoc; simpl; by rewrite <- ?app_assoc, ?app_nil_r|].
    assert (length t1 <= 3 /\ forallb (is_char "*") t1 = true) as [? ?].
    { destruct Hstars as [->|[? [_ ?]]]; simpl; auto with lia. }
    by repeat split.
  - intros (stars & ws1 & word & ws2 & sep & ws3 & c & tail &
            -> & Hlen & Hstars & Hws1 & Hword & Hws2 & Hsep & Hws3 & Hc).
    exists (stars ++ ws1 ++ word ++ ws2 ++ [sep] ++ ws3 ++ [c]), tail.
    split; [by rewrite <- !app_assoc|].
    exists [], (stars ++ ws1 ++ word ++ ws2 ++ [sep] ++ ws3 ++ [c]).
    split; [done|]. split; [done|].
    exists stars, (ws1 ++ word ++ ws2 ++ [sep] ++ ws3 ++ [c]).
    split; [done|]. split.
    { destruct stars as [|s stars]; [by left|]. right. simpl in *.
      split; [done|]. split; lia. }
    exists ws1, (word ++ ws2 ++ [sep] ++ ws3 ++ [c]).
    split; [done|]. split; [split; [done | simpl; lia]|].
    exists word, (ws2 ++ [sep] ++ ws3 ++ [c]).
    split; [done|]. split; [by apply lang_lit_i|].
    exists ws2, ([sep] ++ ws3 ++ [c]).
    split; [done|]. split; [split; [done | simpl; lia]|].
    exists [sep], (ws3 ++ [c]).
    split; [done|]. split; [by exists sep|].
    exists ws3, [c].
    split; [done|]. split; [split; [done | simpl; lia]|].
    exists [c], [].
    split; [done|]. split; [|done]. split; [simpl; by rewrite Hc | simpl; lia].
Qed.

(** ** Trigger lines *)

Lemma split_one_line (sep : ascii) (line : str) :
  sep ∉ line -> split sep line = [line].
Proof.
  induction line as [|c line IH]; intros H; [done|].
  simpl. apply not_elem_of_cons in H as [Hc H].
  unfold is_char. destruct (Ascii.eqb_spec sep c) as [->|_]; [done|].
  by rewrite IH.
Qed.

Lemma checkForTriggerWords_one (triggerWord line : str) :
  ("010"%char ∉ line) ->
  checkForTriggerWords [triggerWord] line =
  match match_first false (re_trigger triggerWord) line with
  | Some (m0, _) => [m0]
  | None => []
  end.
Proof.
  intros H. unfold checkForTriggerWords. rewrite split_one_line by done.
  simpl. by rewrite !app_nil_r.
Qed.

(** The lines the pattern matches, for a word without pattern characters:
    up to three asterisks, white space, the word in any case, white space,
    [:] or [.], white space and at least one character that is not a line
    terminator, whatever follows.  Asterisks are read before the word only. *)
Lemma checkForTriggerWords_trigger_line (triggerWord line : str) :
  plain triggerWord = true -> ("010"%char ∉ line) ->
  checkForTriggerWords [triggerWord] line <> [] <->
  trigger_line triggerWord line.
Proof.
  intros _ Hline.
  rewrite checkForTriggerWords_one by done.
  rewrite <- trigger_lang, <- (run_matches false _ (Cursor [] line ∅)).
  change (re_trigger triggerWord) with (Cat Bol
    (seq [Opt (Grp 1 (Rep (is_char "*") true 1 (Some 3))); star is_space;
          Grp 2 (lit_i triggerWord); star is_space; Chr colon_or_dot;
          star is_space; Grp 3 (plus dot)])).
  rewrite match_first_anchored.
  destruct (run false _ _ Some) as [y|]; split; try done.
Qed.

(** C2 at its failing input.  For the trigger word [definition] the line
    [**definition**: a thing] gives no trigger match and no card, and neither
    do the italic and the bold-italic forms: the asterisks that close the
    emphasis stand between the word and the separator, where the pattern
    reads white space only.  With the separator inside the emphasis,
    [**definition:** a thing], the line matches and the closing asterisks
    go into the answer.  The pattern of the AI generator, for its part,
    reads a closing asterisk after the word.  The rest of the claim holds:
    [definition: a thing] and [**definition: a thing] give the answer
    [a thing], and [predefinition: x] gives no match. *)
Theorem checkForTriggerWords_closed_emphasis :
  checkForTriggerWords [txt "definition"] (txt "**definition**: a thing") = [] /\
  checkForTriggerWords [txt "definition"] (txt "*definition*: a thing") = [] /\
  checkForTriggerWords [txt "definition"] (txt "***definition***: a thing") = [] /\
  generateContextualTriggerCards [txt "definition"]
    (checkForTriggerWords [txt "definition"] (txt "**definition**: a thing"))
    (txt "**definition**: a thing") (Some (txt "f"))
  = [] /\
  trigger_line_yields [txt "definition"] (txt "**definition:** a thing")
    (txt "** a thing") /\
  (exists m g,
     match_first false (triggerPattern (txt "definition"))
       (trim (txt "*definition*: a thing")) = Some (m, g) /\
     trim (default [] (g !! 1)) = txt "a thing") /\
  trigger_line_yields [txt "definition"] (txt "definition: a thing")
    (txt "a thing") /\
  trigger_line_yields [txt "definition"] (txt "**definition: a thing")
    (txt "a thing") /\
  checkForTriggerWords [txt "definition"] (txt "predefinition: x") = [].
Proof.
  repeat split; try by vm_compute.
  - exists (txt "**definition:** a thing"), (txt "definition").
    split; [vm_compute; left | by vm_compute].
  - destruct (match_first false (triggerPattern (txt "definition"))
                (trim (txt "*definition*: a thing"))) as [[m g]|] eqn:E;
      [|by vm_compute in E].
    exists m, g. split; [done|].
    vm_compute in E. injection E as <- <-. by vm_compute.
  - exists (txt "definition: a thing"), (txt "definition").
    split; [vm_compute; left | by vm_compute].
  - exists (txt "**definition: a thing"), (txt "definition").
    split; [vm_compute; left | by vm_compute].
Qed.

(** One match per configured word that matches the line: the loop over the
    trigger words goes on after a match. *)
Lemma checkForTriggerWords_per_word (triggers : list str) (line : str) :
  ("010"%char ∉ line) ->
  length (checkForTriggerWords triggers line)
  = length (filter
              (fun w => is_Some (match_first false (re_trigger w) line))
              triggers).
Proof.
  intros H. unfold checkForTriggerWords. rewrite split_one_line by done.
  cbn [flat_map]. rewrite app_nil_r.
  induction triggers as [|w triggers IH]; [done|].
  cbn [flat_map]. rewrite length_app, IH.
  destruct (match_first false (re_trigger w) line) as [[m0 g]|] eqn:E.
  - rewrite filter_cons_True by (rewrite E; by eexists). done.
  - rewrite filter_cons_False by (rewrite E; by intros [? ?]). done.
Qed.

(** The card builder, for its part, stops at the first configured word
    that matches. *)
Lemma firstTrigger_first (triggers : list str) (m word captured : str) :
  firstTrigger triggers m = Some (word, captured) ->
  exists pre post : list str,
    triggers = pre ++ word :: post /\
    Forall (fun w => match_first false (re_trigger w) m = None) pre /\
    is_Some (match_first false (re_trigger word) m).
Proof.
  induction triggers as [|w triggers IH]; [done|]. cbn [firstTrigger].
  destruct (match_first false (re_trigger w) m) as [[m0 g]|] eqn:E.
  - intros [= <- _]. exists [], triggers. rewrite E. by repeat split.
  - intros (pre & post & -> & Hb & Hw)%IH.
    exists (w :: pre), post. by repeat split; [constructor|].
Qed.

(** C3 at its failing input: the loop over the trigger words has no [break],
    so a line that two configured words match is returned twice. *)
Lemma checkForTriggerWords_two_matches :
  checkForTriggerWords [txt "definition"; txt "Definition"]
    (txt "definition: a thing")
  = [txt "definition: a thing"; txt "definition: a thing"].
Proof. by vm_compute. Qed.

(** ** Cue lines *)

Lemma is_char_true (a c : ascii) : is_char a c = true <-> a = c.
Proof. apply Ascii.eqb_eq. Qed.

Lemma is_char_false (a c : ascii) : is_char a c = false <-> a <> c.
Proof. apply Ascii.eqb_neq. Qed.

Lemma forallb_not_char (a : ascii) (s : str) :
  forallb (fun c => negb (is_char a c)) s = true <-> a ∉ s.
Proof.
  induction s as [|c s IH]; cbn [forallb].
  - split; [intros _; apply not_elem_of_nil | done].
  - rewrite andb_true_iff, IH, not_elem_of_cons, negb_true_iff, is_char_false.
    done.
Qed.

Lemma forallb_not_colon_nl (s : str) :
  forallb not_colon_nl s = true <-> (":"%char ∉ s) /\ ("010"%char ∉ s).
Proof.
  induction s as [|c s IH]; cbn [forallb].
  - split; [intros _; split; apply not_elem_of_nil | done].
  - rewrite andb_true_iff, IH, !not_elem_of_cons. unfold not_colon_nl.
    rewrite negb_true_iff, orb_false_iff, !is_char_false. tauto.
Qed.

Lemma is_cue_shape_spec (l : str) : is_cue_shape l = true <-> cue_shape l.
Proof.
  unfold cue_shape. induction l as [|c l IH].
  - split; [done|]. intros ([|??] & ? & ? & _); discriminate.
  - assert (is_cue_shape (c :: l) =
            if is_char ":" c then
              match l with
              | c' :: s =>
                  is_char ":" c' && negb (bool_decide (s = []))
                  && forallb (fun c => negb (is_char ":" c)) s
              | [] => false
              end
            else is_cue_shape l) as ->.
    { unfold is_char. destruct (Ascii.eqb_spec ":" c) as [<-|Hc].
      - destruct l as [|c' s]; [done|]. simpl.
        destruct (Ascii.eqb_spec ":" c') as [<-|Hc']; [done|].
        simpl. destruct c' as [[] [] [] [] [] [] [] []]; try done.
      - simpl. destruct c as [[] [] [] [] [] [] [] []]; try done. }
    unfold is_char. destruct (Ascii.eqb_spec ":" c) as [<-|Hc].
    + destruct l as [|c' s].
      * split; [done|]. intros ([|? [|??]] & ? & ? & _); discriminate.
      * rewrite !andb_true_iff, negb_true_iff, bool_decide_eq_false,
          forallb_not_char, Ascii.eqb_eq. split.
        -- intros [[<- Hs] Hn]. exists [], s. repeat split; try done.
           apply not_elem_of_nil.
        -- intros ([|a p] & s' & E & Hp & Hs & Hn); simplify_eq/=.
           ++ done.
           ++ by apply not_elem_of_cons in Hp as [? _].
    + rewrite IH. split.
      * intros (p & s & -> & Hp & Hs & Hn). exists (c :: p), s.
        repeat split; try done. apply not_elem_of_cons. done.
      * intros ([|a p] & s & E & Hp & Hs & Hn); simplify_eq/=.
        apply not_elem_of_cons in Hp as [_ Hp]. eauto 6.
Qed.

Lemma cue_lang (sn t rs' : str) :
  lang true re_cue sn t rs' <->
  at_bol true (Cursor sn [] ∅) = true /\
  exists prompt answer,
    t = prompt ++ txt "::" ++ answer /\
    forallb not_colon_nl prompt = true /\
    forallb not_colon_nl answer = true /\ answer <> [] /\
    at_eol true (Cursor [] rs' ∅) = true.
Proof.
  unfold re_cue, seq, star, plus, lit. simpl. split.
  - intros (t0 & u0 & -> & [-> Hbol] &
            t1 & u1 & -> & [Hp _] &
            t2 & u2 & -> &
              (a & b & -> & (c1 & -> & Hc1) &
               a' & b' & -> & (c2 & -> & Hc2) & ->) &
            t3 & u3 & -> & [Hs Hw] &
            t4 & u4 & -> & [-> Heol] & ->).
    apply is_char_true in Hc1, Hc2. subst c1 c2.
    split; [done|]. exists t1, t3. simpl. rewrite !app_nil_r.
    repeat split; try done.
    intros ->. simpl in Hw. lia.
  - intros (Hbol & p & s & -> & Hp & Hs & Hn & Heol).
    exists [], (p ++ txt "::" ++ s). split; [done|]. split; [done|].
    exists p, (txt "::" ++ s). split; [done|].
    split; [split; [done | simpl; lia]|].
    exists (txt "::"), s. split; [done|]. split.
    { exists [":"%char], [":"%char]. split; [done|].
      split; [by exists ":"%char|].
      exists [":"%char], []. split; [done|]. split; [by exists ":"%char | done]. }
    exists s, []. split; [by rewrite app_nil_r|]. split.
    { split; [done|]. simpl. destruct s; [done | simpl; lia]. }
    exists [], []. done.
Qed.

Lemma line_unique (l rest' t ry : str) :
  l ++ rest' = t ++ ry ->
  ("010"%char ∉ l) -> ("013"%char ∉ l) ->
  rest' = [] \/ (exists r, rest' = "010"%char :: r) ->
  ("010"%char ∉ t) ->
  at_eol true (Cursor [] ry ∅) = true ->
  t = l /\ ry = rest'.
Proof.
  revert t. induction l as [|c l IH]; intros t E Hn Hr Hrest Ht Heol.
  - simpl in E. destruct t as [|c' t]; [done|].
    destruct Hrest as [->|[r ->]]; [done|].
    simplify_eq/=. by apply not_elem_of_cons in Ht as [? _].
  - apply not_elem_of_cons in Hn as [Hc Hn].
    apply not_elem_of_cons in Hr as [Hc' Hr].
    destruct t as [|c' t]; simplify_eq/=.
    + unfold at_eol, is_line_terminator in Heol. simpl in Heol.
      apply orb_true_iff in Heol as [?%is_char_true|?%is_char_true]; done.
    + apply not_elem_of_cons in Ht as [_ Ht].
      destruct (IH t) as [-> ->]; done.
Qed.

(** At the start of a line that holds no carriage return, the cue pattern
    matches exactly the lines of cue shape, and it matches the whole line. *)
Lemma cue_run_found (sn l rest' : str) (y : cursor) :
  ("010"%char ∉ l) -> ("013"%char ∉ l) ->
  rest' = [] \/ (exists r, rest' = "010"%char :: r) ->
  run true re_cue (Cursor sn (l ++ rest') ∅) Some = Some y ->
  seen y = rev l ++ sn /\ rest y = rest' /\ cue_shape l.
Proof.
  intros Hn Hr Hrest H.
  destruct (run_ahead _ _ _ _ H) as (t & [E1 E2] & L). simpl in E1, E2, L.
  apply cue_lang in L as (_ & p & s & -> & Hp & Hs & Hne & Heol).
  apply forallb_not_colon_nl in Hp as [Hp1 Hp2], Hs as [Hs1 Hs2].
  destruct (line_unique l rest' (p ++ txt "::" ++ s) (rest y)) as [<- ->];
    try done.
  { rewrite !not_elem_of_app. repeat split; try done.
    simpl. rewrite !not_elem_of_cons. repeat split; try done.
    apply not_elem_of_nil. }
  repeat split; try done. by exists p, s.
Qed.

Lemma cue_run_complete (sn l rest' : str) :
  at_bol true (Cursor sn [] ∅) = true ->
  ("010"%char ∉ l) ->
  rest' = [] \/ (exists r, rest' = "010"%char :: r) ->
  cue_shape l ->
  is_Some (run true re_cue (Cursor sn (l ++ rest') ∅) Some).
Proof.
  intros Hbol Hn Hrest (p & s & -> & Hp & Hs & Hne).
  apply run_matches. exists (p ++ txt "::" ++ s), rest'. split; [done|].
  apply cue_lang. split; [done|]. exists p, s.
  rewrite !not_elem_of_app in Hn. destruct Hn as (? & _ & ?).
  rewrite !forallb_not_colon_nl. repeat split; try done.
  by destruct Hrest as [->|[r ->]].
Qed.

Lemma cue_run_inside (c : ascii) (sn rs : str) :
  is_line_terminator c = false ->
  run true re_cue (Cursor (c :: sn) rs ∅) Some = None.
Proof. intros H. unfold re_cue, seq. simpl. unfold at_bol. simpl. by rewrite H. Qed.

Lemma split_first_line (rs : str) :
  exists l rest',
    rs = l ++ rest' /\ ("010"%char ∉ l) /\
    ((rest' = [] /\ split "010" rs = [l]) \/
     (exists r, rest' = "010"%char :: r /\ split "010" rs = l :: split "010" r)).
Proof.
  induction rs as [|c rs (l & rest' & E & Hl & Hrest)].
  - exists [], []. split; [done|]. split; [apply not_elem_of_nil | by left].
  - simpl. destruct (is_char "010" c) eqn:Hc.
    + apply is_char_true in Hc as <-. exists [], ("010"%char :: rs).
      split; [done|]. split; [apply not_elem_of_nil|]. right. by exists rs.
    + apply is_char_false in Hc. exists (c :: l), rest'.
      split; [by rewrite E|]. split; [by apply not_elem_of_cons|].
      destruct Hrest as [[-> ->]|(r & -> & ->)]; [by left|].
      right. by exists r.
Qed.

Lemma rev_app_head (l sn : str) :
  l <> [] -> exists c sn', rev l ++ sn = c :: sn' /\ c ∈ l.
Proof.
  intros Hl. destruct (rev l) as [|c r] eqn:E.
  - apply (f_equal (@rev ascii)) in E. rewrite rev_involutive in E. done.
  - exists c, (r ++ sn). split; [done|].
    apply list_elem_of_In, in_rev. rewrite E. by left.
Qed.

Lemma cue_run_skips (s1 sn rs : str) :
  s1 <> [] -> ("010"%char ∉ s1) -> ("013"%char ∉ s1) ->
  run true re_cue (Cursor (rev s1 ++ sn) rs ∅) Some = None.
Proof.
  intros Hne Hn Hr. destruct (rev_app_head s1 sn Hne) as (c & sn' & -> & Hc).
  apply cue_run_inside. unfold is_line_terminator.
  apply orb_false_iff. rewrite !is_char_false. split; intros <-; done.
Qed.

Lemma cue_run_not_shape (sn l rest' : str) :
  ("010"%char ∉ l) -> ("013"%char ∉ l) ->
  rest' = [] \/ (exists r, rest' = "010"%char :: r) ->
  ~ cue_shape l ->
  run true re_cue (Cursor sn (l ++ rest') ∅) Some = None.
Proof.
  intros Hn Hr Hrest Hshape.
  destruct (run true re_cue _ Some) as [y|] eqn:E; [|done].
  by destruct (cue_run_found _ _ _ _ Hn Hr Hrest E) as (_ & _ & ?).
Qed.

Lemma exec_loop_search_eq (fuel : nat) (multiline : bool) (r : regex)
    (sn rs sn' rs' : str) :
  search multiline r sn rs = search multiline r sn' rs' ->
  exec_loop (S fuel) multiline r sn rs = exec_loop (S fuel) multiline r sn' rs'.
Proof. intros H. simpl. by rewrite H. Qed.

Lemma cue_shape_length (l : str) : cue_shape l -> 3 <= length l.
Proof.
  intros (p & s & -> & _ & _ & Hs). rewrite !length_app. simpl.
  destruct s; [done | simpl; lia].
Qed.

Lemma not_elem_of_app_l {A} (x : A) (l1 l2 : list A) : x ∉ l1 ++ l2 -> x ∉ l1.
Proof. rewrite not_elem_of_app. tauto. Qed.

Lemma not_elem_of_app_r {A} (x : A) (l1 l2 : list A) : x ∉ l1 ++ l2 -> x ∉ l2.
Proof. rewrite not_elem_of_app. tauto. Qed.

Lemma cue_exec_found (sn l rest' : str) (fuel : nat) :
  at_bol true (Cursor sn [] ∅) = true ->
  ("010"%char ∉ l) -> ("013"%char ∉ l) ->
  rest' = [] \/ (exists r, rest' = "010"%char :: r) ->
  cue_shape l ->
  map (fun m => between m.1 m.2) (exec_loop (S fuel) true re_cue sn (l ++ rest'))
  = l :: map (fun m => between m.1 m.2)
           (exec_loop fuel true re_cue (rev l ++ sn) rest').
Proof.
  intros Hbol Hl Hcl Hrest Hshape.
  pose proof (cue_shape_length _ Hshape) as Hlen3.
  destruct (cue_run_complete sn l rest' Hbol Hl Hrest Hshape) as [y Hy].
  destruct (cue_run_found _ _ _ _ Hl Hcl Hrest Hy) as (Hsy & Hry & _).
  cbn [exec_loop]. rewrite (search_here _ _ _ _ _ Hy).
  rewrite decide_False by (rewrite Hsy, length_app, length_rev; simpl; lia).
  cbn [map]. f_equal; [|by rewrite Hsy, Hry].
  simpl. apply between_ahead. split; simpl; by rewrite ?Hry.
Qed.

(** After a line, the loop resumes at the start of the next line, or stops
    at the end of the text. *)
Lemma cue_exec_after_last (sn l : str) (fuel : nat) :
  l <> [] -> ("010"%char ∉ l) -> ("013"%char ∉ l) ->
  exec_loop fuel true re_cue (rev l ++ sn) [] = [].
Proof.
  intros Hne Hl Hcl. destruct fuel; [done|]. cbn [exec_loop].
  by rewrite search_nil, cue_run_skips.
Qed.

Lemma cue_exec_after_line (sn l r : str) (fuel : nat) :
  l <> [] -> ("010"%char ∉ l) -> ("013"%char ∉ l) ->
  exec_loop (S fuel) true re_cue (rev l ++ sn) ("010"%char :: r)
  = exec_loop (S fuel) true re_cue ("010"%char :: rev l ++ sn) r.
Proof.
  intros Hne Hl Hcl. apply exec_loop_search_eq.
  by rewrite search_cons, cue_run_skips.
Qed.

Lemma cue_search_skips_line (sn l rs : str) :
  ("010"%char ∉ l) -> ("013"%char ∉ l) ->
  run true re_cue (Cursor sn (l ++ rs) ∅) Some = None ->
  search true re_cue sn (l ++ rs) = search true re_cue (rev l ++ sn) rs.
Proof.
  intros Hl Hcl Hrun. apply search_skip. intros s1 c s2 E.
  destruct s1 as [|c1 s1].
  - subst l. exact Hrun.
  - subst l. apply cue_run_skips; [done | |].
    + by apply not_elem_of_app_l in Hl.
    + by apply not_elem_of_app_l in Hcl.
Qed.

Lemma cue_exec_not_found_last (sn l : str) (fuel : nat) :
  ("010"%char ∉ l) -> ("013"%char ∉ l) -> ~ cue_shape l ->
  exec_loop fuel true re_cue sn l = [].
Proof.
  intros Hl Hcl Hshape. destruct fuel; [done|]. cbn [exec_loop].
  rewrite <- (app_nil_r l) at 1.
  rewrite cue_search_skips_line; try done.
  - rewrite search_nil. destruct l as [|c l'] eqn:E.
    + pose proof (cue_run_not_shape sn [] [] Hl Hcl (or_introl eq_refl) Hshape)
        as H0.
      cbn [rev app] in H0 |- *. by rewrite H0.
    + rewrite <- E in *. rewrite cue_run_skips; try done. by subst l.
  - apply cue_run_not_shape; auto.
Qed.

Lemma cue_exec_not_found_next (sn l r : str) (fuel : nat) :
  ("010"%char ∉ l) -> ("013"%char ∉ l) -> ~ cue_shape l ->
  exec_loop (S fuel) true re_cue sn (l ++ "010"%char :: r)
  = exec_loop (S fuel) true re_cue ("010"%char :: rev l ++ sn) r.
Proof.
  intros Hl Hcl Hshape. apply exec_loop_search_eq.
  rewrite cue_search_skips_line; try done.
  - rewrite search_cons. destruct l as [|c l'] eqn:E.
    + pose proof (cue_run_not_shape sn [] ("010"%char :: r) Hl Hcl
                    (or_intror (ex_intro _ r eq_refl)) Hshape) as H0.
      cbn [rev app] in H0 |- *. by rewrite H0.
    + rewrite <- E in *. rewrite cue_run_skips; try done. by subst l.
  - apply cue_run_not_shape; eauto.
Qed.

Lemma filter_bool_cons {A} (f : A -> bool) (x : A) (l : list A) :
  filter (fun a => f a) (x :: l) =
  if f x then x :: filter (fun a => f a) l else filter (fun a => f a) l.
Proof.
  destruct (f x) eqn:E.
  - apply filter_cons_True. by apply Is_true_true.
  - apply filter_cons_False. by apply Is_true_false.
Qed.

(** The global loop of the cue pattern, from the start of a line of a text
    without carriage return: the lines of cue shape, in order. *)
Lemma cue_exec_loop (n : nat) :
  forall (rs sn : str) (fuel : nat),
    length rs <= n -> length rs < fuel ->
    at_bol true (Cursor sn [] ∅) = true ->
    ("013"%char ∉ rs) ->
    map (fun m => between m.1 m.2) (exec_loop fuel true re_cue sn rs)
    = filter (fun l => is_cue_shape l) (split "010" rs).
Proof.
  induction n as [|n IH]; intros rs sn fuel Hlen Hfuel Hbol Hcr;
    destruct (split_first_line rs) as (l & rest' & -> & Hl & Hrest);
    (destruct fuel as [|fuel]; [lia|]);
    rewrite length_app in Hlen, Hfuel;
    pose proof (not_elem_of_app_l _ _ _ Hcr) as Hcl;
    pose proof (not_elem_of_app_r _ _ _ Hcr) as Hcrest;
    (destruct (is_cue_shape l) eqn:Hshape;
     [ apply is_cue_shape_spec in Hshape as Hshape';
       pose proof (cue_shape_length _ Hshape') as Hlen3
     | assert (~ cue_shape l) as Hshape'
         by (rewrite <- is_cue_shape_spec, Hshape; done) ]);
    (destruct Hrest as [[-> ->]|(r & -> & ->)]; simpl in Hlen, Hfuel; try lia).
  - (* the only line is not a cue *)
    rewrite filter_bool_cons, Hshape.
    rewrite app_nil_r. by rewrite cue_exec_not_found_last.
  - (* a last line of cue shape *)
    rewrite filter_bool_cons, Hshape.
    rewrite cue_exec_found by eauto.
    rewrite cue_exec_after_last; [done | by intros -> | done | done].
  - (* a line of cue shape, followed by other lines *)
    rewrite filter_bool_cons, Hshape.
    rewrite cue_exec_found by eauto. f_equal.
    destruct fuel as [|fuel]; [lia|].
    rewrite cue_exec_after_line; [| by intros -> | done | done].
    apply IH; [lia | lia | done |].
    by apply not_elem_of_cons in Hcrest as [_ ?].
  - (* a last line that is not a cue *)
    rewrite filter_bool_cons, Hshape.
    rewrite app_nil_r. by rewrite cue_exec_not_found_last.
  - (* a line that is not a cue, followed by other lines *)
    rewrite filter_bool_cons, Hshape.
    rewrite cue_exec_not_found_next by done.
    apply IH; [lia | lia | done |].
    by apply not_elem_of_cons in Hcrest as [_ ?].
Qed.

Lemma filter_bool_filter {A} (f g : A -> bool) (l : list A) :
  filter (fun a => g a) (filter (fun a => f a) l)
  = filter (fun a => f a && g a) l.
Proof.
  induction l as [|x l IH]; [done|].
  rewrite !filter_bool_cons. destruct (f x); simpl.
  - rewrite filter_bool_cons. destruct (g x); by rewrite IH.
  - done.
Qed.

Lemma is_cue_line_spec (l : str) : is_cue_line l = true <-> cue_line l.
Proof.
  unfold is_cue_line, cue_line.
  by rewrite andb_true_iff, negb_true_iff, is_cue_shape_spec.
Qed.

(** C4 (as the code has it). On a document without carriage returns, cue
    extraction returns, in order, exactly the lines made of a prompt without
    colon (possibly empty), a double colon and a non-empty answer without
    colon, that hold no highlight delimiter.  [What is X::It is Y] is
    returned and gives the prompt [What is X] and the answer [It is Y];
    [a::b::c] is not returned. *)
Theorem cue_line_extraction :
  (forall content : str,
     ("013"%char ∉ content) ->
     extractRemNoteCues content
     = filter (fun l => is_cue_line l) (split "010" content)) /\
  (forall l : str, is_cue_line l = true <-> cue_line l) /\
  extractRemNoteCues (txt "What is X::It is Y") = [txt "What is X::It is Y"] /\
  generateContextualQACards [txt "What is X::It is Y"]
    (txt "What is X::It is Y") (Some (txt "f"))
  = [ {| type := ShortAnswer;
         question := txt "f.md
 " ++ txt "What is X";
         answer := txt "It is Y";
         options := None; explanation := None; clozeText := None |} ] /\
  extractRemNoteCues (txt "a::b::c") = [].
Proof.
  split; [|split; [apply is_cue_line_spec | by vm_compute]].
  intros content Hcr. unfold extractRemNoteCues, match_all.
  rewrite (cue_exec_loop (length content)) by (done || lia).
  apply (filter_bool_filter is_cue_shape
           (fun m => negb (includes (txt "==") m))).
Qed.

Lemma cue_line_extraction_witness :
  extractRemNoteCues (txt "# Cells
What is X::It is Y
a::b::c
::an answer alone
mitosis::==division== of a cell
a:b::c")
  = [txt "What is X::It is Y"; txt "::an answer alone"].
Proof.
  rewrite (proj1 cue_line_extraction).
  - by vm_compute.
  - apply (bool_decide_unpack _). by vm_compute.
Defined.

(** C4 as stated fails: a line that starts with the double colon is
    returned although its prompt is empty. *)
Lemma cue_line_empty_prompt_counterexample :
  ~ spec_cue_extraction (txt "::b").
Proof.
  intros H. destruct (H (txt "::b")) as [Hin _].
  destruct Hin as (_ & p & s & E & Hp & Hs & _); [vm_compute; left|].
  apply (f_equal length) in E. rewrite !length_app in E. simpl in E.
  destruct p, s; simpl in E; try done; lia.
Qed.

(** ** Highlights *)

Lemma run_lit (multiline : bool) (s : str) :
  forall (x : cursor) (k : cursor -> option cursor),
    run multiline (lit s) x k =
    if startsWith s (rest x)
    then k (Cursor (rev s ++ seen x) (drop (length s) (rest x)) (groups x))
    else None.
Proof.
  induction s as [|a s IH]; intros [sn rs g] k.
  - done.
  - change (lit (a :: s)) with (Cat (Chr (is_char a)) (lit s)).
    cbn [run rest seen groups]. destruct rs as [|c rs]; [done|].
    cbn [startsWith]. destruct (is_char a c) eqn:Hc; [|done].
    apply is_char_true in Hc as <-. rewrite IH. cbn [rest seen groups andb].
    destruct (startsWith s rs); [|done].
    simpl. by rewrite <- app_assoc.
Qed.

(** A lazy star stops at the first position where the rest of the pattern
    matches. *)
Lemma repeat_lazy_first (p : ascii -> bool) (g : gmap nat str)
    (k : cursor -> option cursor) (z : cursor) (rs : str) :
  forall sn,
    repeat p false 0 None sn rs g k = Some z ->
    exists t rs',
      rs = t ++ rs' /\ forallb p t = true /\
      k (Cursor (rev t ++ sn) rs' g) = Some z /\
      forall t1 c t2, t = t1 ++ c :: t2 ->
        k (Cursor (rev t1 ++ sn) (c :: t2 ++ rs') g) = None.
Proof.
  induction rs as [|c rs IH]; intros sn; rewrite repeat_eq.
  - destruct (k (Cursor sn [] g)) eqn:E; [|done].
    intros [= ->]. exists [], []. repeat split; try done. by intros [|??] ???.
  - destruct (k (Cursor sn (c :: rs) g)) eqn:E.
    + intros [= ->]. exists [], (c :: rs). repeat split; try done.
      by intros [|??] ???.
    + cbn [iterate]. destruct (p c) eqn:Hc; [|done].
      intros H. destruct (IH _ H) as (t & rs' & -> & Hp & Hk & Hfirst).
      exists (c :: t), rs'. split; [done|]. split; [simpl; by rewrite Hc|].
      split; [simpl; by rewrite <- app_assoc|].
      intros [|c1 t1] c' t2 Heq; simplify_eq/=; [done|].
      rewrite <- app_assoc. by apply Hfirst.
Qed.

Lemma startsWith_drop (p s : str) :
  startsWith p s = true -> s = p ++ drop (length p) s.
Proof.
  intros [t ->]%startsWith_spec. by rewrite drop_app_length.
Qed.

Lemma no_marker_before_end (inner after : str) :
  (forall t1 c t2, inner = t1 ++ c :: t2 ->
     startsWith (txt "==") (c :: t2 ++ txt "==" ++ after) = false) ->
  includes (txt "==") (inner ++ txt "=") = false.
Proof.
  induction inner as [|c inner IH]; intros H; [done|].
  cbn [app includes]. apply orb_false_iff. split.
  - specialize (H [] c inner eq_refl).
    destruct inner as [|c' inner']; simpl in H |- *.
    + cbn [startsWith] in H |- *. by rewrite andb_true_r in *.
    + cbn [startsWith] in H |- *. by rewrite andb_true_r in *.
  - apply IH. intros t1 c' t2 ->. apply (H (c :: t1) c' t2 eq_refl).
Qed.

(** A match of the highlight pattern: two delimiters around the shortest
    text, free of line terminators, that a delimiter follows. *)
Lemma highlight_run (x y : cursor) :
  run false re_highlight x Some = Some y ->
  exists inner,
    rest x = txt "==" ++ inner ++ txt "==" ++ rest y /\
    seen y = rev (txt "==" ++ inner ++ txt "==") ++ seen x /\
    forallb dot inner = true /\
    includes (txt "==") (inner ++ txt "=") = false.
Proof.
  change re_highlight
    with (Cat (lit (txt "==")) (Cat (Grp 1 (Rep dot false 0 None))
            (Cat (lit (txt "==")) Eps))).
  cbn [run]. rewrite run_lit.
  destruct (startsWith (txt "==") (rest x)) eqn:E1; [|done].
  apply startsWith_drop in E1. cbn [seen rest groups].
  intros H. apply repeat_lazy_first in H as (t & rs' & E2 & Hdot & Hk & Hfirst).
  rewrite run_lit in Hk. cbn [seen rest groups] in Hk.
  destruct (startsWith (txt "==") rs') eqn:E3; [|done].
  apply startsWith_drop in E3. cbn [run] in Hk. injection Hk as <-.
  cbn [seen rest]. exists t. split; [|split; [|split; [done|]]].
  - rewrite E1, E2, E3 at 1. done.
  - rewrite !rev_app_distr, <- !app_assoc. done.
  - apply (no_marker_before_end t (drop 2 rs')). intros t1 c t2 ->.
    specialize (Hfirst t1 c t2 eq_refl). rewrite run_lit in Hfirst.
    cbn [seen rest groups] in Hfirst.
    change 2 with (length (txt "==")). rewrite <- E3.
    by destruct (startsWith (txt "==") (c :: t2 ++ rs')).
Qed.



Lemma no_marker_inside (inner : str) :
  includes (txt "==") (inner ++ txt "=") = false ->
  forall t1 c t2, inner = t1 ++ c :: t2 ->
    startsWith (txt "==") (c :: t2 ++ txt "==") = false.
Proof.
  intros H t1 c t2 ->.
  destruct (startsWith (txt "==") (c :: t2 ++ txt "==")) eqn:E; [|done].
  assert (includes (txt "==") ((t1 ++ c :: t2) ++ txt "=") = true) as H';
    [|congruence].
  apply includes_spec. exists t1.
  change (txt "==") with ["="%char; "="%char] in *.
  change (txt "=") with ["="%char] in *.
  cbn [startsWith] in E.
  rewrite andb_true_iff, is_char_true in E. destruct E as [<- E].
  destruct t2 as [|c' t2].
  - exists []. by rewrite <- app_assoc.
  - cbn [app startsWith] in E.
    rewrite andb_true_iff, is_char_true in E. destruct E as [<- _].
    exists (t2 ++ ["="%char]). by rewrite <- !app_assoc.
Qed.

Lemma between_self (x : cursor) : between x x = [].
Proof. unfold between. by rewrite Nat.sub_diag. Qed.

(** Stripping the delimiters of a highlight gives its inner text. *)
Lemma cleanHighlight_inner (inner : str) :
  includes (txt "==") (inner ++ txt "=") = false ->
  cleanHighlight (txt "==" ++ inner ++ txt "==") = inner.
Proof.
  intros H. unfold cleanHighlight, replace_all.
  change (S (length (txt "==" ++ inner ++ txt "==")))
    with (S (S (S (length (inner ++ txt "=="))))).
  cbn [replace_loop].
  rewrite (search_here false re_marker [] (txt "==" ++ inner ++ txt "==")
             (Cursor (rev (txt "==")) (inner ++ txt "==") ∅))
    by (unfold re_marker; by rewrite run_lit).
  rewrite decide_False by done. rewrite between_self. cbn [seen rest app].
  unfold re_marker. rewrite search_skip.
  - rewrite (search_here false (lit (txt "==")) _ (txt "==")
               (Cursor (rev (txt "==") ++ rev inner ++ rev (txt "==")) [] ∅))
      by (by rewrite run_lit).
    rewrite decide_False
      by (cbn [seen]; rewrite !length_app; simpl; lia).
    rewrite (between_ahead _ _ inner) by (by split).
    cbn [seen rest].
    destruct (length (inner ++ txt "==")); cbn [replace_loop];
      [by rewrite app_nil_r|].
    rewrite search_nil, run_lit. by rewrite app_nil_r.
  - intros s1 c s2 E. rewrite run_lit. cbn [seen rest groups].
    by rewrite (no_marker_inside inner H s1 c s2 E).
Qed.


Lemma lang_lit (multiline : bool) (s : str) :
  forall (sn t rs : str), lang multiline (lit s) sn t rs <-> t = s.
Proof.
  induction s as [|a s IH]; intros sn t rs.
  - done.
  - change (lit (a :: s)) with (Cat (Chr (is_char a)) (lit s)).
    cbn [lang]. split.
    + intros (t1 & t2 & -> & (c & -> & Hc) & L). apply IH in L.
      apply is_char_true in Hc. by subst.
    + intros ->. exists [a], s. split; [done|]. split.
      * exists a. split; [done | by apply is_char_true].
      * by apply IH.
Qed.







(** ** Cloze cards *)

Lemma Forall_trimStart (P : ascii -> Prop) (s : str) :
  Forall P s -> Forall P (trimStart s).
Proof.
  induction 1 as [|c s Hc Hs IH]; [constructor|].
  cbn [trimStart]. destruct (is_space c); [done | by constructor].
Qed.

Lemma Forall_trim (P : ascii -> Prop) (s : str) : Forall P s -> Forall P (trim s).
Proof.
  intros H. unfold trim, trimEnd.
  by apply Forall_rev, Forall_trimStart, Forall_rev, Forall_trimStart.
Qed.

Lemma replace_loop_within (P : ascii -> Prop) (multiline : bool) (r : regex)
    (repl : str) (fuel : nat) :
  Forall P repl ->
  forall sn rs, Forall P rs ->
    Forall P (replace_loop fuel multiline r repl sn rs).
Proof.
  intros Hrepl. induction fuel as [|fuel IH]; intros sn rs Hrs; [done|].
  cbn [replace_loop].
  destruct (search multiline r sn rs) as [[x y]|] eqn:E; [|done].
  destruct (search_found _ _ _ _ _ _ E) as (skipped & Hx & -> & Hrun & _).
  destruct (run_ahead _ _ _ _ Hrun) as (t & [Ht _] & _).
  apply Forall_app in Hrs as [Hs Hrx]. rewrite Ht in Hrx.
  apply Forall_app in Hrx as [_ Hry].
  rewrite (between_ahead _ x skipped)
    by (split; [done | by rewrite Hx]).
  apply Forall_app. split; [done|]. apply Forall_app. split; [done|].
  destruct (decide _); [|by apply IH].
  destruct (rest y) as [|c ry]; [done|].
  apply Forall_cons in Hry as [Hc Hry]. constructor; [done | by apply IH].
Qed.

Lemma cleanHighlight_within (P : ascii -> Prop) (highlight : str) :
  Forall P highlight -> Forall P (cleanHighlight highlight).
Proof. intros H. by apply replace_loop_within. Qed.

Lemma expand_plain_prefix (prefix template matched before after : str) :
  ("$"%char ∉ prefix) ->
  expand (prefix ++ template) matched before after
  = prefix ++ expand template matched before after.
Proof.
  induction prefix as [|c prefix IH]; intros H; [done|].
  apply not_elem_of_cons in H as [Hc H].
  cbn [app]. rewrite <- IH by done.
  destruct (prefix ++ template) as [|c' t];
    destruct c as [[] [] [] [] [] [] [] []]; done.
Qed.

Lemma not_elem_Forall (a : ascii) (l : str) :
  (a ∉ l) <-> Forall (fun c => c <> a) l.
Proof.
  rewrite Forall_forall. split.
  - intros H c Hc ->. done.
  - intros H Ha. by apply (H a).
Qed.

(** The deletion markers of a text read character by character. *)
Lemma digits_then_colons_eq (t : str) :
  digits_then_colons t =
  match t with
  | c1 :: t' =>
      (is_char ":" c1
       && match t' with c2 :: _ => is_char ":" c2 | [] => false end)
      || (is_digit c1 && digits_then_colons t')
  | [] => false
  end.
Proof.
  destruct t as [|c1 [|c2 t]]; [done| |].
  - by destruct c1 as [[] [] [] [] [] [] [] []].
  - destruct c1 as [[] [] [] [] [] [] [] []]; try reflexivity.
    by destruct c2 as [[] [] [] [] [] [] [] []].
Qed.

Lemma marker_start_eq (s : str) :
  marker_start s =
  match s with
  | c1 :: c2 :: c3 :: d :: t =>
      is_char "{" c1 && is_char "{" c2 && is_char "c" c3
      && is_digit d && digits_then_colons t
  | _ => false
  end.
Proof.
  destruct s as [|c1 [|c2 [|c3 [|d t]]]]; [done| | | |];
    (destruct c1 as [[] [] [] [] [] [] [] []]; try reflexivity);
    (destruct c2 as [[] [] [] [] [] [] [] []]; try reflexivity);
    (destruct c3 as [[] [] [] [] [] [] [] []]; reflexivity).
Qed.

Lemma digits_then_colons_brace (t r : str) :
  digits_then_colons (t ++ "{"%char :: r) = digits_then_colons t.
Proof.
  induction t as [|c1 t IH].
  - by rewrite (digits_then_colons_eq ([] ++ _)).
  - cbn [app]. rewrite (digits_then_colons_eq (c1 :: t ++ _)).
    rewrite (digits_then_colons_eq (c1 :: t)), IH. by destruct t.
Qed.

(** A deletion marker that starts before the opening of another one ends
    before it. *)
Lemma marker_start_before (c : ascii) (s post : str) :
  marker_start ((c :: s) ++ txt "{{c1::" ++ post) = marker_start (c :: s).
Proof.
  rewrite !marker_start_eq.
  change (txt "{{c1::" ++ post)
    with ("{"%char :: "{"%char :: "c"%char :: "1"%char :: ":"%char
          :: ":"%char :: post).
  destruct s as [|c2 [|c3 [|d t]]]; cbn [app].
  - change (is_char "c" "{") with false. by rewrite !andb_false_r.
  - change (is_char "c" "{") with false. by rewrite !andb_false_r.
  - change (is_digit "{") with false. by rewrite !andb_false_r.
  - by rewrite digits_then_colons_brace.
Qed.

(** The markers of a text around the opening of a marker numbered [c1]:
    that one, those before it and those after it. *)
Lemma countMarkers_around (pre post : str) :
  countMarkers (pre ++ txt "{{c1::" ++ post)
  = countMarkers pre + 1 + countMarkers post.
Proof.
  induction pre as [|c pre IH].
  - change (txt "{{c1::" ++ post)
      with ("{"%char :: "{"%char :: "c"%char :: "1"%char :: ":"%char
            :: ":"%char :: post).
    cbn [app countMarkers]. rewrite !marker_start_eq.
    destruct post as [|c1 [|c2 [|c3 post]]]; reflexivity.
  - change ((c :: pre) ++ ?t) with (c :: pre ++ t) at 1.
    cbn [countMarkers]. rewrite IH.
    change (c :: pre ++ ?t) with ((c :: pre) ++ t).
    rewrite marker_start_before. lia.
Qed.

Lemma markersAreC1_none (s : str) : countMarkers s = 0 -> markersAreC1 s = true.
Proof.
  induction s as [|c s IH]; cbn [countMarkers markersAreC1].
  - by destruct (marker_start []).
  - destruct (marker_start (c :: s)); [done|]. intros H. by rewrite IH.
Qed.

Lemma markersAreC1_around (pre post : str) :
  countMarkers pre = 0 -> countMarkers post = 0 ->
  markersAreC1 (pre ++ txt "{{c1::" ++ post) = true.
Proof.
  intros Hpre Hpost. induction pre as [|c pre IH].
  - change (txt "{{c1::" ++ post)
      with ("{"%char :: "{"%char :: "c"%char :: "1"%char :: ":"%char
            :: ":"%char :: post).
    cbn [app markersAreC1]. rewrite (markersAreC1_none post Hpost).
    rewrite !marker_start_eq.
    destruct post as [|c1 [|c2 [|c3 post]]]; reflexivity.
  - cbn [countMarkers] in Hpre.
    change ((c :: pre) ++ ?t) with (c :: pre ++ t) at 1.
    cbn [markersAreC1]. rewrite IH by lia.
    change (c :: pre ++ ?t) with ((c :: pre) ++ t).
    rewrite marker_start_before.
    destruct (marker_start (c :: pre)); [simpl in Hpre; lia | done].
Qed.

Lemma expand_plain (template matched before after : str) :
  ("$"%char ∉ template) -> expand template matched before after = template.
Proof.
  intros H.
  pose proof (expand_plain_prefix template [] matched before after H) as E.
  by rewrite !app_nil_r in E.
Qed.

Lemma findIndex_first {A} (f : A -> bool) (l : list A) (i : nat) :
  findIndex f l = Some i ->
  exists a, l !! i = Some a /\ f a = true /\
    forall j b, j < i -> l !! j = Some b -> f b = false.
Proof.
  revert i. induction l as [|a l IH]; intros i; [done|].
  cbn [findIndex]. destruct (f a) eqn:E.
  - intros [= <-]. exists a. repeat split; try done. intros j b Hj. lia.
  - destruct (findIndex f l) as [k|]; [|done].
    intros [= <-]. destruct (IH k eq_refl) as (a' & Ha' & Hf & Hfirst).
    exists a'. repeat split; try done.
    intros [|j] b Hj Hb; [by injection Hb as <-|].
    apply (Hfirst j); [lia | done].
Qed.

(** [replace] puts the expanded template in the place of the first
    occurrence of the pattern. *)
Lemma replace_at_first (pattern template : str) (s : str) :
  includes pattern s = true ->
  forall before_rev,
    exists before after,
      s = before ++ pattern ++ after /\
      (forall b1 c b2, before = b1 ++ c :: b2 ->
         startsWith pattern (c :: b2 ++ pattern ++ after) = false) /\
      replace_at pattern template before_rev s
      = rev before_rev ++ before
        ++ expand template pattern (rev before_rev ++ before) after ++ after.
Proof.
  induction s as [|c s IH]; intros H before_rev; cbn [includes replace_at] in *.
  - rewrite orb_false_r in H. rewrite H.
    exists [], (drop (length pattern) []).
    split; [by apply startsWith_drop|]. split; [by intros [|??] ???|].
    by rewrite !app_nil_r.
  - destruct (startsWith pattern (c :: s)) eqn:E.
    + exists [], (drop (length pattern) (c :: s)).
      split; [by apply startsWith_drop|]. split; [by intros [|??] ???|].
      by rewrite !app_nil_r.
    + simpl in H.
      destruct (IH H (c :: before_rev)) as (b & a & -> & Hfirst & ->).
      exists (c :: b), a. split; [done|]. split.
      * intros [|c1 b1] c' b2 Hb; simpl in Hb; injection Hb as -> Hb;
          [by subst | by apply (Hfirst b1 c' b2)].
      * cbn [rev]. by rewrite <- !app_assoc.
Qed.

(** C6 (as the code has it). Every card of the cloze card builder is a
    cloze card made for a highlight of the list, on the first line of the
    document that holds it: its cloze body is present and is the context
    followed by that line with the deletion marker numbered [c1], whatever
    the other cards are, in the place of the first occurrence of the
    highlight; after the opening of the marker come the answer and the two
    closing braces (unless the highlight holds a dollar sign, which
    [replace] expands) and the end of the line.  The rest of the body is
    kept as it is, with the deletion markers it may hold: the number of
    markers of the body is one more than those of the text before and
    after the opening, so that the body holds exactly one marker, numbered
    [c1], exactly when the text around it holds none. *)
Theorem cloze_cards_single_marker (content : str) (highlights : list str)
    (file : option str) :
  Forall
    (fun q =>
       exists highlight line before after,
         highlight ∈ highlights /\
         first_place content highlight line before after /\
         marker_in_place content file highlight before after q /\
         (afterMarker highlight before after
          = cleanHighlight highlight ++ txt "}}" ++ after \/
          "$"%char ∈ highlight) /\
         countMarkers (beforeMarker content file highlight before
                       ++ txt "{{c1::" ++ afterMarker highlight before after)
         = countMarkers (beforeMarker content file highlight before) + 1
           + countMarkers (afterMarker highlight before after) /\
         (single_c1_cloze q <->
          countMarkers (beforeMarker content file highlight before) = 0 /\
          countMarkers (afterMarker highlight before after) = 0))
    (generateContextualClozeCards content highlights file).
Proof.
  unfold generateContextualClozeCards.
  induction highlights as [|h highlights IH]; [constructor|].
  cbn [flat_map]. apply Forall_app. split.
  2:{ eapply Forall_impl; [exact IH|].
      intros q (h' & line & before & after & Hin & H).
      exists h', line, before, after. split; [by apply list_elem_of_further|done]. }
  clear IH.
  destruct (findIndex (includes h) (split "010" content)) as [i|] eqn:Hi;
    [|constructor].
  constructor; [|constructor].
  apply findIndex_first in Hi as (line & Hline & Hin & Hfirst).
  destruct (replace_at_first h (txt "{{c1::" ++ cleanHighlight h ++ txt "}}")
              line Hin []) as (before & after & E & Hocc & Hreplace).
  assert (replace_first h (txt "{{c1::" ++ cleanHighlight h ++ txt "}}")
            (default [] (split "010" content !! i))
          = before ++ txt "{{c1::" ++ afterMarker h before after) as Hbody.
  { unfold str in *. rewrite Hline. cbn [default option_rect id].
    unfold replace_first. rewrite Hreplace. cbn [rev app].
    rewrite expand_plain_prefix
      by (apply (bool_decide_unpack _); by vm_compute).
    unfold afterMarker. by rewrite <- !app_assoc. }
  assert (contextOf (generateFilenameDisplay file)
            (getMostRelevantHeader content h) ++ txt "
 " ++ replace_first h (txt "{{c1::" ++ cleanHighlight h ++ txt "}}")
        (default [] (split "010" content !! i))
          = beforeMarker content file h before
            ++ txt "{{c1::" ++ afterMarker h before after) as ->.
  { rewrite Hbody. unfold beforeMarker. by rewrite <- !app_assoc. }
  exists h, line, before, after.
  split; [apply list_elem_of_here|]. split; [|split; [|split; [|split]]].
  - split; [by exists i|]. done.
  - done.
  - destruct (decide ("$"%char ∈ h)) as [Hd|Hd]; [by right|]. left.
    unfold afterMarker. rewrite expand_plain; [by rewrite <- app_assoc|].
    rewrite not_elem_of_app. split.
    + apply not_elem_Forall, cleanHighlight_within. by apply not_elem_Forall.
    + apply (bool_decide_unpack _). by vm_compute.
  - apply countMarkers_around.
  - unfold single_c1_cloze. cbn [type clozeText]. split.
    + intros (_ & body & Hbody' & Hcount & _).
      assert (body = beforeMarker content file h before
                     ++ txt "{{c1::" ++ afterMarker h before after) as ->
        by congruence.
      rewrite countMarkers_around in Hcount. lia.
    + intros [Hpre Hpost]. split; [done|]. eexists. split; [done|].
      rewrite countMarkers_around, Hpre, Hpost.
      split; [done | by apply markersAreC1_around].
Qed.

(** The braces of a formula are no deletion marker: the card of such a line
    holds one marker only. *)
Example cloze_cards_braces_example :
  Forall single_c1_cloze
    (generateContextualClozeCards (txt "\frac{a}{b} ==y==")
       (extractHighlights (txt "\frac{a}{b} ==y==")) (Some (txt "f"))).
Proof.
  repeat constructor. eexists. split; [by vm_compute|]. by vm_compute.
Qed.

(** C6 as stated fails on a line that already holds a deletion marker: the
    cloze body then holds two markers, one of them numbered [c2]. *)
Lemma cloze_cards_marker_counterexample :
  ~ Forall single_c1_cloze
      (generateContextualClozeCards (txt "{{c2::x}} ==y==")
         (extractHighlights (txt "{{c2::x}} ==y==")) (Some (txt "f"))).
Proof.
  intros H. apply Forall_cons in H as [(_ & body & Hbody & Hcount & _) _].
  vm_compute in Hbody. injection Hbody as <-. vm_compute in Hcount.
  discriminate.
Qed.

(** ** Normalisation and the similarity check *)

Lemma replace_loop_skip (multiline : bool) (r : regex) (repl : str)
    (fuel : nat) (sn : str) (c : ascii) (rs : str) :
  run multiline r (Cursor sn (c :: rs) ∅) Some = None ->
  replace_loop (S fuel) multiline r repl sn (c :: rs)
  = c :: replace_loop (S fuel) multiline r repl (c :: sn) rs.
Proof.
  intros H. cbn [replace_loop]. rewrite search_cons, H.
  destruct (search multiline r (c :: sn) rs) as [[x y]|] eqn:E; [|done].
  destruct (search_found _ _ _ _ _ _ E) as (skipped & Hx & Hrs & _).
  rewrite (between_ahead (Cursor sn (c :: rs) ∅) x (c :: skipped)).
  - rewrite (between_ahead (Cursor (c :: sn) rs ∅) x skipped); [done|].
    split; [done | by rewrite Hx].
  - split; cbn [seen rest]; [by rewrite Hrs|].
    rewrite Hx. cbn [seen rev]. by rewrite <- app_assoc.
Qed.

Lemma replace_punctuation (rs : str) :
  forall (sn : str) (fuel : nat),
    length rs < fuel ->
    replace_loop fuel false re_punctuation (txt " ") sn rs = strip_punctuation rs.
Proof.
  induction rs as [|c rs IH]; intros sn fuel Hfuel;
    (destruct fuel as [|fuel]; [simpl in Hfuel; lia|]).
  - done.
  - simpl in Hfuel. cbn [strip_punctuation map].
    destruct (is_word c || is_space c) eqn:Hc.
    + rewrite replace_loop_skip by (unfold re_punctuation; cbn; by rewrite Hc).
      f_equal. apply IH. lia.
    + cbn [replace_loop].
      rewrite (search_here false re_punctuation sn (c :: rs)
                 (Cursor (c :: sn) rs ∅))
        by (unfold re_punctuation; cbn; by rewrite Hc).
      rewrite between_self, decide_False by (simpl; lia).
      cbn [seen rest app txt]. simpl. f_equal. apply IH. lia.
Qed.

Lemma repeat_greedy_all (p : ascii -> bool) (g : gmap nat str) (rs : str) :
  forall sn,
    repeat p true 0 None sn rs g Some
    = Some (Cursor (rev (leading p rs) ++ sn) (after_leading p rs) g).
Proof.
  induction rs as [|c rs IH]; intros sn; rewrite repeat_eq; [done|].
  cbn [iterate leading after_leading fmap option_fmap option_map].
  destruct (p c); [|done].
  rewrite IH. cbn [rev]. by rewrite <- app_assoc.
Qed.

Lemma after_leading_length (p : ascii -> bool) (s : str) :
  length (after_leading p s) <= length s.
Proof.
  induction s as [|c s IH]; [done|]. cbn [after_leading].
  destruct (p c); simpl; lia.
Qed.

Lemma collapse_spaces_in_run (s : str) :
  collapse_spaces true s = collapse_spaces false (after_leading is_space s).
Proof.
  induction s as [|c s IH]; [done|].
  cbn [collapse_spaces after_leading].
  destruct (is_space c) eqn:Hc; [done|].
  cbn [collapse_spaces]. by rewrite Hc.
Qed.

Lemma replace_spaces (n : nat) :
  forall (rs sn : str) (fuel : nat),
    length rs <= n -> length rs < fuel ->
    replace_loop fuel false re_spaces (txt " ") sn rs = collapse_spaces false rs.
Proof.
  induction n as [|n IH]; intros rs sn fuel Hn Hfuel;
    (destruct fuel as [|fuel]; [lia|]);
    (destruct rs as [|c rs]; [done | simpl in Hn, Hfuel; try lia]).
  cbn [collapse_spaces]. destruct (is_space c) eqn:Hc.
  - cbn [replace_loop].
    rewrite (search_here false re_spaces sn (c :: rs)
               (Cursor (rev (leading is_space rs) ++ c :: sn)
                  (after_leading is_space rs) ∅)).
    + rewrite between_self.
      rewrite decide_False
        by (cbn [seen]; rewrite length_app; simpl; lia).
      cbn [seen rest]. simpl. f_equal.
      rewrite collapse_spaces_in_run. apply IH.
      * pose proof (after_leading_length is_space rs). lia.
      * pose proof (after_leading_length is_space rs). lia.
    + unfold re_spaces, plus. cbn [run seen rest groups].
      rewrite repeat_eq. cbn [iterate fmap option_fmap option_map].
      rewrite Hc. apply repeat_greedy_all.
  - rewrite replace_loop_skip.
    + f_equal. apply IH; lia.
    + unfold re_spaces, plus. cbn [run seen rest groups].
      rewrite repeat_eq. cbn [iterate]. by rewrite Hc.
Qed.

(** The normalisation of the code, replacement by replacement. *)
Lemma normalize_steps (s : str) :
  normalize s = trim (collapse_spaces false (strip_punctuation (toLowerCase s))).
Proof.
  unfold normalize, replace_all. f_equal.
  rewrite replace_punctuation by lia.
  by rewrite (replace_spaces (length (strip_punctuation (toLowerCase s)))) by lia.
Qed.

Example normalize_example :
  normalize (txt "  Hello,   WORLD! It's_me
") = txt "hello world it s_me".
Proof. by vm_compute. Qed.

(** The character classes and the case mapping of the code agree with the
    tables. *)
Lemma is_space_blanks (c : ascii) : is_space c = one_of blanks c.
Proof. by destruct c as [[] [] [] [] [] [] [] []]. Qed.

Lemma is_word_table (c : ascii) :
  is_word c = one_of (capitals ++ smalls ++ digits ++ txt "_") c.
Proof. by destruct c as [[] [] [] [] [] [] [] []]. Qed.

Lemma lower_char_table (c : ascii) :
  lower_char c
  = translate (capitals ++ accented_capitals) (smalls ++ accented_smalls) c.
Proof. by destruct c as [[] [] [] [] [] [] [] []]. Qed.

Lemma toLowerCase_lowercase (s : str) : toLowerCase s = lowercase s.
Proof.
  unfold toLowerCase, lowercase. apply map_ext. apply lower_char_table.
Qed.

Lemma strip_punctuation_blank_out (s : str) :
  strip_punctuation s = map blank_out s.
Proof.
  unfold strip_punctuation. apply map_ext. intros c. unfold blank_out.
  by rewrite is_word_table, is_space_blanks.
Qed.

Lemma collapse_spaces_one_space (s : str) :
  forall in_run, collapse_spaces in_run s = one_space_per_run in_run s.
Proof.
  induction s as [|c s IH]; intros in_run; [done|].
  cbn [collapse_spaces one_space_per_run].
  rewrite is_space_blanks, !IH. done.
Qed.

Lemma trimStart_after_leading (s : str) :
  trimStart s = after_leading (one_of blanks) s.
Proof.
  induction s as [|c s IH]; [done|]. cbn [trimStart after_leading].
  rewrite is_space_blanks, IH. done.
Qed.

Lemma trim_strip_ends (s : str) : trim s = strip_ends s.
Proof.
  unfold trim, trimEnd, strip_ends. by rewrite !trimStart_after_leading.
Qed.

(** The normalisation of the code gives the normal form. *)
Lemma normalize_normal_form (s : str) : normalize s = normal_form s.
Proof.
  rewrite normalize_steps. unfold normal_form.
  rewrite trim_strip_ends, collapse_spaces_one_space.
  by rewrite strip_punctuation_blank_out, toLowerCase_lowercase.
Qed.

(** C5 (as the code has it). Two texts are duplicates exactly when their
    normal forms are equal, or one normal form contains the other and both
    are longer than 20 code units; every other pair is reported as
    different.  The normal form is the text in lower case, with every
    character other than a letter of ASCII, a digit, an underscore or white
    space replaced by a space (not removed), every run of white space
    replaced by one space, and no white space at either end. *)
Theorem isContentSimilar_iff (content1 content2 : str) :
  isContentSimilar content1 content2 = true <->
  duplicates normal_form content1 content2.
Proof.
  unfold duplicates, contains.
  rewrite <- !normalize_normal_form. unfold isContentSimilar.
  destruct (decide (normalize content1 = normalize content2)) as [E|E].
  - tauto.
  - rewrite <- !includes_spec.
    destruct (Nat.ltb_spec 20 (length (normalize content1)));
      destruct (Nat.ltb_spec 20 (length (normalize content2))); simpl;
      rewrite ?orb_true_iff; split; try tauto; try done;
      intros [?|(? & ? & ?)]; try done; lia.
Qed.

(** C5 as stated fails.  With the punctuation stripped, [it's] and [its]
    are equal after normalisation, but the check reports them as different:
    it puts a space in the place of the apostrophe.  And an accented letter,
    which is no punctuation, is replaced by a space as well: the check
    reports a text that ends with one and the text without it as
    duplicates. *)
Lemma isContentSimilar_punctuation_counterexample :
  (duplicates spec_normalize (txt "it's") (txt "its") /\
   isContentSimilar (txt "it's") (txt "its") = false) /\
  (~ duplicates spec_normalize (txt "caf" ++ ["233"%char]) (txt "caf") /\
   isContentSimilar (txt "caf" ++ ["233"%char]) (txt "caf") = true).
Proof.
  split; split.
  - left. by vm_compute.
  - by vm_compute.
  - intros [E|(H & _)]; [by vm_compute in E|]. vm_compute in H. lia.
  - by vm_compute.
Qed.

(** C10. The similarity check does not depend on the order of its two
    arguments. *)
Theorem isContentSimilar_sym (content1 content2 : str) :
  isContentSimilar content1 content2 = isContentSimilar content2 content1.
Proof.
  unfold isContentSimilar.
  destruct (decide (normalize content1 = normalize content2)) as [E|E];
    destruct (decide (normalize content2 = normalize content1)) as [E'|E'];
    try congruence.
  rewrite (andb_comm (20 <? length (normalize content1))).
  by rewrite (orb_comm (includes (normalize content2) (normalize content1))).
Qed.


(** * Further properties *)

(** ** The extractors and the card builders together ([main.ts]) *)

Lemma findIndex_is_Some {A} (f : A -> bool) (l : list A) (a : A) :
  a ∈ l -> f a = true -> is_Some (findIndex f l).
Proof.
  induction l as [|b l IH]; intros Hin Hf; [by apply elem_of_nil in Hin|].
  cbn [findIndex]. destruct (f b) eqn:E; [by eexists|].
  apply elem_of_cons in Hin as [->|Hin]; [congruence|].
  destruct (IH Hin Hf) as [i ->]. by eexists.
Qed.

(** Every match of a global pattern is a piece of the text searched. *)
Lemma exec_loop_substring (multiline : bool) (r : regex) (fuel : nat) :
  forall (sn rs : str) (m : cursor * cursor),
    m ∈ exec_loop fuel multiline r sn rs ->
    run multiline r m.1 Some = Some m.2 /\
    exists a b, rs = a ++ between m.1 m.2 ++ b.
Proof.
  induction fuel as [|fuel IH]; intros sn rs m Hin; cbn [exec_loop] in Hin;
    [by apply elem_of_nil in Hin|].
  destruct (search multiline r sn rs) as [[x y]|] eqn:E;
    [|by apply elem_of_nil in Hin].
  destruct (search_found _ _ _ _ _ _ E) as (skipped & _ & -> & Hrun & _).
  destruct (run_ahead _ _ _ _ Hrun) as (t & Hahead & _).
  pose proof (between_ahead _ _ _ Hahead) as Hb. destruct Hahead as [Hrest _].
  apply elem_of_cons in Hin as [->|Hin].
  - split; [done|]. exists skipped, (rest y). cbn [fst snd].
    by rewrite Hb, Hrest.
  - destruct (decide _) as [_|_].
    + destruct (rest y) as [|c t'] eqn:Ey; [by apply elem_of_nil in Hin|].
      destruct (IH _ _ _ Hin) as (Hm & a & b & Ht'). split; [done|].
      exists (skipped ++ t ++ c :: a), b.
      rewrite Hrest, Ht'. by rewrite <- !app_assoc.
    + destruct (IH _ _ _ Hin) as (Hm & a & b & Ht'). split; [done|].
      exists (skipped ++ t ++ a), b.
      rewrite Hrest, Ht'. by rewrite <- !app_assoc.
Qed.

Lemma split_app_line (m b : str) :
  ("010"%char ∉ m) ->
  exists l ls, split "010" b = l :: ls /\ split "010" (m ++ b) = (m ++ l) :: ls.
Proof.
  induction m as [|c m IH]; intros Hm.
  - destruct b as [|c b]; [by exists [], []|]. simpl.
    destruct (is_char "010" c); [by eexists _, _|].
    destruct (split "010" b); by eexists _, _.
  - apply not_elem_of_cons in Hm as [Hc Hm].
    destruct (IH Hm) as (l & ls & E1 & E2). exists l, ls. split; [done|].
    simpl. apply is_char_false in Hc. by rewrite Hc, E2.
Qed.

(** A piece of a text that holds no line feed stands on one of its lines. *)
Lemma substring_on_line (m b : str) :
  ("010"%char ∉ m) ->
  forall a, exists l, l ∈ split "010" (a ++ m ++ b) /\ includes m l = true.
Proof.
  intros Hm. induction a as [|c a (l & Hin & Hinc)].
  - destruct (split_app_line m b Hm) as (l & ls & _ & E).
    exists (m ++ l). simpl. rewrite E. split; [apply list_elem_of_here|].
    apply includes_spec. by exists [], l.
  - simpl. destruct (is_char "010" c).
    + exists l. split; [by apply list_elem_of_further | done].
    + destruct (split "010" (a ++ m ++ b)) as [|l0 ls];
        [by apply elem_of_nil in Hin|].
      apply elem_of_cons in Hin as [->|Hin].
      * exists (c :: l0). split; [apply list_elem_of_here|].
        apply includes_spec. apply includes_spec in Hinc as (x & y & ->).
        by exists (c :: x), y.
      * exists l. split; [by apply list_elem_of_further | done].
Qed.

Lemma on_a_line_found (content m : str) :
  ("010"%char ∉ m) -> includes m content = true ->
  is_Some (findIndex (includes m) (split "010" content)).
Proof.
  intros Hm (a & b & ->)%includes_spec.
  destruct (substring_on_line m b Hm a) as (l & Hin & Hinc).
  by apply (findIndex_is_Some _ _ l).
Qed.

(** What the highlight extractor returns: the delimiters around an inner
    text, read from the document. *)
Lemma extractHighlights_elem (content m : str) :
  m ∈ extractHighlights content ->
  includes m content = true /\ ("010"%char ∉ m) /\
  exists inner,
    m = txt "==" ++ inner ++ txt "==" /\
    includes (txt "==") (inner ++ txt "=") = false.
Proof.
  unfold extractHighlights, match_all.
  intros (xy & <- & Hin%list_elem_of_In)%list_elem_of_In%in_map_iff.
  destruct (exec_loop_substring _ _ _ _ _ _ Hin) as (Hrun & a & b & E).
  destruct (highlight_run _ _ Hrun) as (inner & Hrest & Hseen & Hdot & Hno).
  assert (between xy.1 xy.2 = txt "==" ++ inner ++ txt "==") as Hb.
  { apply between_ahead. split; [|done]. by rewrite Hrest, <- !app_assoc. }
  rewrite Hb in *. split; [apply includes_spec; eauto|]. split; [|eauto].
  assert ("010"%char ∉ txt "==") as Hd
    by (apply not_elem_Forall; by repeat constructor).
  rewrite !not_elem_of_app. repeat split; try done.
  rewrite not_elem_Forall. apply Forall_forall. intros c Hc ->.
  rewrite forallb_forall in Hdot.
  by specialize (Hdot _ (proj1 (list_elem_of_In _ _) Hc)).
Qed.

(** What the cue extractor returns: a prompt and an answer without colon
    around a double colon, read from the document. *)
Lemma extractRemNoteCues_elem (content m : str) :
  m ∈ extractRemNoteCues content ->
  includes m content = true /\ ("010"%char ∉ m) /\
  exists prompt answer,
    m = prompt ++ txt "::" ++ answer /\
    (":"%char ∉ prompt) /\ (":"%char ∉ answer) /\ answer <> [].
Proof.
  unfold extractRemNoteCues, match_all.
  intros [_ (xy & <- & Hin%list_elem_of_In)%list_elem_of_In%in_map_iff]
    %list_elem_of_filter.
  destruct (exec_loop_substring _ _ _ _ _ _ Hin) as (Hrun & a & b & E).
  destruct (run_ahead _ _ _ _ Hrun) as (t & Hahead & L).
  rewrite (between_ahead _ _ _ Hahead) in *.
  apply cue_lang in L as (_ & prompt & answer & -> & Hp & Ha & Hne & _).
  apply forallb_not_colon_nl in Hp as [Hp1 Hp2].
  apply forallb_not_colon_nl in Ha as [Ha1 Ha2].
  split; [apply includes_spec; eauto|]. split.
  - assert ("010"%char ∉ txt "::") as Hd
      by (apply not_elem_Forall; by repeat constructor).
    by rewrite !not_elem_of_app.
  - by exists prompt, answer.
Qed.

Lemma checkForTriggerWords_elem (triggers : list str) (content m : str) :
  m ∈ checkForTriggerWords triggers content <->
  exists line triggerWord g,
    line ∈ split "010" content /\ triggerWord ∈ triggers /\
    match_first false (re_trigger triggerWord) line = Some (m, g).
Proof.
  unfold checkForTriggerWords. rewrite list_elem_of_In, in_flat_map. split.
  - intros (line & Hl%list_elem_of_In & (w & Hw%list_elem_of_In & Hm)%in_flat_map).
    destruct (match_first false (re_trigger w) line) as [[m0 g]|] eqn:E;
      [|done].
    destruct Hm as [->|[]]. by exists line, w, g.
  - intros (line & w & g & Hl & Hw & E). exists line.
    split; [by apply list_elem_of_In|]. apply in_flat_map. exists w.
    split; [by apply list_elem_of_In|]. rewrite E. by left.
Qed.

(** A trigger match starts the line it was found on. *)
Lemma trigger_match_prefix (triggerWord line m : str) (g : gmap nat str) :
  match_first false (re_trigger triggerWord) line = Some (m, g) ->
  exists after y,
    line = m ++ after /\
    run false (re_trigger triggerWord) (Cursor [] line ∅) Some = Some y /\
    rest y = after /\ groups y = g /\
    lang false (re_trigger triggerWord) [] m after.
Proof.
  unfold re_trigger. cbn [seq foldr]. rewrite match_first_anchored.
  destruct (run false _ (Cursor [] line ∅) Some) as [y|] eqn:Hrun; [|done].
  intros [= <- <-].
  destruct (run_ahead _ _ _ _ Hrun) as (t & Hahead & L).
  rewrite (between_ahead _ _ _ Hahead). destruct Hahead as [Hrest _].
  exists (rest y), y. by repeat split.
Qed.


Lemma checkForTriggerWords_on_line (triggers : list str) (content m : str) :
  m ∈ checkForTriggerWords triggers content ->
  exists line, line ∈ split "010" content /\ startsWith m line = true.
Proof.
  intros (line & w & g & Hl & _ & E)%checkForTriggerWords_elem.
  destruct (trigger_match_prefix _ _ _ _ E) as (after & _ & -> & _).
  exists (m ++ after). split; [done|]. apply startsWith_spec. eauto.
Qed.

Lemma split_line_in_content (content : str) :
  (exists l ls after, split "010" content = l :: ls /\ content = l ++ after) /\
  forall l, l ∈ split "010" content -> includes l content = true.
Proof.
  induction content as [|c content [(l0 & ls & after & E & Hc) IH]].
  - split; [by exists [], [], []|].
    intros l [->|Hl%elem_of_nil]%elem_of_cons; done.
  - cbn [split]. destruct (is_char "010" c).
    + split; [by exists [], (split "010" content), (c :: content)|].
      intros l [->|Hl]%elem_of_cons; [done|].
      apply includes_spec. destruct (proj1 (includes_spec _ _) (IH l Hl))
        as (a & b & Hab). exists (c :: a), b. by rewrite Hab at 1.
    + rewrite E. split; [exists (c :: l0), ls, after; by rewrite Hc at 1|].
      intros l [->|Hl]%elem_of_cons.
      * apply includes_spec. exists [], after. by rewrite Hc at 1.
      * apply includes_spec.
        destruct (proj1 (includes_spec _ _) (IH l ltac:(rewrite E; by right)))
          as (a & b & Hab). exists (c :: a), b. by rewrite Hab at 1.
Qed.

Lemma includes_trans (a b c : str) :
  includes a b = true -> includes b c = true -> includes a c = true.
Proof.
  intros (x & y & ->)%includes_spec (x' & y' & ->)%includes_spec.
  apply includes_spec. exists (x' ++ x), (y ++ y'). by rewrite <- !app_assoc.
Qed.

(** X1. For trigger words without pattern characters, whatever the three
    extractors return is read from the document, and stands on one of its
    lines: the card builders, which look for the line that holds the text,
    always find one. *)
Theorem extracted_text_on_a_line (triggers : list str) (content m : str) :
  forallb plain triggers = true ->
  m ∈ extractHighlights content ++ extractRemNoteCues content
        ++ checkForTriggerWords triggers content ->
  includes m content = true /\
  is_Some (findIndex (includes m) (split "010" content)).
Proof.
  intros _. rewrite !elem_of_app. intros [H|[H|H]].
  - destruct (extractHighlights_elem _ _ H) as (Hinc & Hnl & _).
    split; [done | by apply on_a_line_found].
  - destruct (extractRemNoteCues_elem _ _ H) as (Hinc & Hnl & _).
    split; [done | by apply on_a_line_found].
  - destruct (checkForTriggerWords_on_line _ _ _ H) as (line & Hl & Hpre).
    assert (includes m line = true) as Hinc.
    { apply startsWith_spec in Hpre as [t ->]. apply includes_spec.
      by exists [], t. }
    split; [|by apply (findIndex_is_Some _ _ line)].
    apply (includes_trans _ line); [done|].
    by apply split_line_in_content.
Qed.

Lemma extracted_text_on_a_line_witness :
  includes (txt "==wheel==") (txt "# Parts
term: a ==wheel== turns
axle::a rod") = true /\
  is_Some (findIndex (includes (txt "==wheel=="))
             (split "010" (txt "# Parts
term: a ==wheel== turns
axle::a rod"))).
Proof.
  apply (extracted_text_on_a_line [txt "term"]); [reflexivity|].
  apply (bool_decide_unpack _). by vm_compute.
Defined.

Lemma cloze_cards_of_highlights (content : str) (file : option str)
    (highlights : list str) :
  Forall (fun m => m ∈ extractHighlights content) highlights ->
  Forall2 (fun highlight q => highlight = txt "==" ++ answer q ++ txt "==")
    highlights (generateContextualClozeCards content highlights file).
Proof.
  induction 1 as [|m hs Hm _ IH]; [constructor|].
  unfold generateContextualClozeCards. cbn [flat_map].
  destruct (extractHighlights_elem _ _ Hm) as (Hinc & Hnl & inner & -> & Hno).
  destruct (on_a_line_found _ _ Hnl Hinc) as [i ->].
  cbn [app]. constructor; [|apply IH].
  cbn [answer]. by rewrite cleanHighlight_inner.
Qed.

(** X2. The cloze card builder, given the highlights extracted from the same
    document, drops none of them: it makes one card per highlight, in order,
    and the answer of the card is the text between the delimiters of the
    highlight. *)
Theorem cloze_card_per_highlight (content : str) (file : option str) :
  Forall2 (fun highlight q => highlight = txt "==" ++ answer q ++ txt "==")
    (extractHighlights content)
    (generateContextualClozeCards content (extractHighlights content) file).
Proof. apply cloze_cards_of_highlights. by apply Forall_forall. Qed.

Lemma split_colons_cons (c : ascii) (s : str) :
  c <> ":"%char ->
  split_colons (c :: s) =
  match split_colons s with
  | l :: ls => (c :: l) :: ls
  | [] => [[c]]
  end.
Proof.
  intros Hc.
  destruct c as [[] [] [] [] [] [] [] []]; try done.
Qed.

Lemma split_colons_plain (s : str) :
  (":"%char ∉ s) -> split_colons s = [s].
Proof.
  induction s as [|c s IH]; [done|].
  intros [Hc Hs]%not_elem_of_cons.
  rewrite split_colons_cons by done. by rewrite IH.
Qed.

Lemma split_colons_cue (prompt ans : str) :
  (":"%char ∉ prompt) -> (":"%char ∉ ans) ->
  split_colons (prompt ++ txt "::" ++ ans) = [prompt; ans].
Proof.
  intros Hp Ha. induction prompt as [|c prompt IH].
  - change (split_colons ([] ++ txt "::" ++ ans))
      with ([] :: split_colons ans).
    by rewrite split_colons_plain.
  - apply not_elem_of_cons in Hp as [Hc Hp].
    change ((c :: prompt) ++ txt "::" ++ ans)
      with (c :: (prompt ++ txt "::" ++ ans)).
    rewrite split_colons_cons by done. by rewrite IH.
Qed.

Lemma qa_cards_of_cues (content : str) (file : option str) (cues : list str) :
  Forall (fun m => m ∈ extractRemNoteCues content) cues ->
  Forall2
    (fun m q =>
       exists prompt ans,
         m = prompt ++ txt "::" ++ ans /\
         (":"%char ∉ prompt) /\ (":"%char ∉ ans) /\
         question q
         = contextOf (generateFilenameDisplay file)
             (getMostRelevantHeader content m) ++ txt "
 " ++ trim prompt /\
         answer q = trim ans)
    cues (generateContextualQACards cues content file).
Proof.
  induction 1 as [|m cues Hm _ IH]; [constructor|].
  unfold generateContextualQACards. cbn [flat_map].
  destruct (extractRemNoteCues_elem _ _ Hm)
    as (_ & _ & prompt & ans & -> & Hp & Ha & _).
  rewrite split_colons_cue by done. cbn [app].
  constructor; [|apply IH]. by exists prompt, ans.
Qed.

(** X3. The question-and-answer card builder, given the cue lines extracted
    from the same document, makes one card per cue line, in order: the
    double colon cuts the line into exactly the prompt and the answer, the
    question ends with the trimmed prompt and the answer is the trimmed
    answer. *)
Theorem qa_card_per_cue (content : str) (file : option str) :
  Forall2
    (fun m q =>
       exists prompt ans,
         m = prompt ++ txt "::" ++ ans /\
         (":"%char ∉ prompt) /\ (":"%char ∉ ans) /\
         question q
         = contextOf (generateFilenameDisplay file)
             (getMostRelevantHeader content m) ++ txt "
 " ++ trim prompt /\
         answer q = trim ans)
    (extractRemNoteCues content)
    (generateContextualQACards (extractRemNoteCues content) content file).
Proof. apply qa_cards_of_cues. by apply Forall_forall. Qed.

(** ** Trimming *)

Lemma trimStart_head (s : str) (c : ascii) (t : str) :
  trimStart s = c :: t -> is_space c = false.
Proof.
  induction s as [|a s IH]; [done|]. cbn [trimStart].
  destruct (is_space a) eqn:E; [done|]. by intros [= <- _].
Qed.

Lemma trimStart_fixed (s : str) :
  (forall c t, s = c :: t -> is_space c = false) -> trimStart s = s.
Proof.
  destruct s as [|c s]; [done|]. intros H. cbn [trimStart].
  by rewrite (H c s eq_refl).
Qed.

Lemma trimStart_suffix (s : str) :
  exists w, s = w ++ trimStart s /\ forallb is_space w = true.
Proof.
  induction s as [|c s (w & E & Hw)]; [by exists []|]. cbn [trimStart].
  destruct (is_space c) eqn:Hc; [|by exists []].
  exists (c :: w). cbn [forallb app]. rewrite Hc, Hw. by rewrite E at 1.
Qed.

Lemma trim_head (s : str) (c : ascii) (t : str) :
  trim s = c :: t -> is_space c = false.
Proof.
  unfold trim, trimEnd. intros E.
  destruct (trimStart_suffix (rev (trimStart s))) as (w & Hw & _).
  apply (f_equal (@rev ascii)) in Hw. rewrite rev_involutive, rev_app_distr in Hw.
  unfold str in *. rewrite E in Hw. by apply (trimStart_head s c (t ++ rev w)).
Qed.

Lemma trim_last (s a : str) (c : ascii) :
  trim s = a ++ [c] -> is_space c = false.
Proof.
  unfold trim, trimEnd. intros E.
  apply (f_equal (@rev ascii)) in E. rewrite rev_involutive, rev_app_distr in E.
  by apply (trimStart_head _ _ _ E).
Qed.

Lemma trim_fixed (s : str) :
  (forall c t, s = c :: t -> is_space c = false) ->
  (forall a c, s = a ++ [c] -> is_space c = false) ->
  trim s = s.
Proof.
  intros Hhead Hlast. unfold trim, trimEnd. rewrite (trimStart_fixed s Hhead).
  rewrite trimStart_fixed; [apply rev_involutive|].
  intros c t E. apply (Hlast (rev t)).
  apply (f_equal (@rev ascii)) in E. by rewrite rev_involutive in E.
Qed.

Lemma trim_trim (s : str) : trim (trim s) = trim s.
Proof. apply trim_fixed; [apply trim_head | apply trim_last]. Qed.

(** ** Headings *)

(** A greedy quantifier without maximum stops where one more iteration
    would make the rest of the pattern fail. *)
Lemma repeat_greedy_longest (p : ascii -> bool) (g : gmap nat str)
    (k : cursor -> option cursor) (z : cursor) (rs : str) :
  forall (lo : nat) (sn : str),
    repeat p true lo None sn rs g k = Some z ->
    exists t rs',
      rs = t ++ rs' /\ forallb p t = true /\ lo <= length t /\
      k (Cursor (rev t ++ sn) rs' g) = Some z /\
      iterate p true 0 None (rev t ++ sn) rs' g k = None.
Proof.
  induction rs as [|c rs IH]; intros lo sn; rewrite repeat_eq.
  - destruct lo as [|lo]; [|done]. cbn [iterate]. intros H.
    exists [], []. by repeat split.
  - destruct lo as [|lo].
    + destruct (iterate p true 0 None sn (c :: rs) g k) as [z'|] eqn:Hit.
      * intros [= ->]. cbn [iterate] in Hit.
        destruct (p c) eqn:Hc; [|done].
        apply IH in Hit as (t & rs' & -> & Hp & _ & Hk & Hlong).
        exists (c :: t), rs'. cbn [forallb rev length]. rewrite Hc, Hp.
        rewrite <- app_assoc. repeat split; try done. lia.
      * intros H. exists [], (c :: rs). by repeat split.
    + cbn [iterate]. destruct (p c) eqn:Hc; [|done]. intros H.
      apply IH in H as (t & rs' & -> & Hp & Hlo & Hk & Hlong).
      exists (c :: t), rs'. cbn [forallb rev length]. rewrite Hc, Hp.
      rewrite <- app_assoc. repeat split; try done. lia.
Qed.

Lemma heading_run (line : str) (y : cursor) :
  run false re_heading (Cursor [] line ∅) Some = Some y ->
  exists hashes ws h,
    line = hashes ++ ws ++ h /\
    forallb (is_char "#") hashes = true /\ 1 <= length hashes <= 6 /\
    forallb is_space ws = true /\ ws <> [] /\
    h <> [] /\ forallb dot h = true /\
    groups y !! 1 = Some h /\
    (forall c t, h = c :: t -> t <> [] -> is_space c = false).
Proof.
  change re_heading
    with (Cat Bol (Cat (Rep (is_char "#") true 1 (Some 6))
            (Cat (Rep is_space true 1 None)
               (Cat (Grp 1 (Rep dot true 1 None)) (Cat Eol Eps))))).
  cbn [run at_bol seen rest groups]. intros H.
  apply repeat_sound in H as (t1 & rs1 & -> & Hp1 & Hw1 & H).
  cbn [seen rest groups] in H.
  apply repeat_greedy_longest in H as (t2 & rs2 & -> & Hp2 & Hl2 & H & Hlong).
  cbn [seen rest groups] in H.
  apply repeat_sound in H as (t3 & rs3 & -> & Hp3 & Hw3 & H).
  cbn [seen rest groups at_eol] in H.
  destruct rs3 as [|c3 rs3]; [|done]. injection H as <-.
  exists t1, t2, (t3 ++ []). rewrite app_nil_r in *. cbn [groups].
  unfold within in Hw1, Hw3.
  repeat split; try done; try lia.
  - intros ->. simpl in Hl2. lia.
  - intros ->. simpl in Hw3. lia.
  - rewrite lookup_insert_eq. f_equal. apply between_ahead.
    split; cbn [seen rest]; [by rewrite app_nil_r | done].
  - intros c t -> Ht. destruct (is_space c) eqn:Hc; [exfalso|done].
    cbn [iterate app] in Hlong. rewrite Hc in Hlong.
    cbn [forallb] in Hp3. apply andb_true_iff in Hp3 as [_ Hp3].
    change (Init.Nat.pred <$> None) with (@None nat) in Hlong.
    match type of Hlong with
    | ?e = None => assert (is_Some e) as [z Hz]; [|congruence]
    end.
    apply (repeat_complete is_space true _ [] 0 None _ (t ++ []));
      [done | simpl; lia |].
    cbn [seen rest groups rev app].
    apply repeat_complete; [done | | by eexists].
    simpl. destruct t; [done | simpl; lia].
Qed.

Lemma heading_run_trimmed (l : str) (y : cursor) :
  run false re_heading (Cursor [] (trim l) ∅) Some = Some y ->
  exists hashes ws h,
    trim l = hashes ++ ws ++ h /\
    forallb (is_char "#") hashes = true /\ 1 <= length hashes <= 6 /\
    forallb is_space ws = true /\ ws <> [] /\
    h <> [] /\ forallb dot h = true /\
    groups y !! 1 = Some h /\ trim h = h.
Proof.
  intros (hashes & ws & h & E & H1 & H2 & H3 & H4 & H5 & H6 & Hg & Hhead)
    %heading_run.
  exists hashes, ws, h. repeat split; try done; try lia.
  apply trim_fixed.
  - intros c [|c' t] ->.
    + apply (trim_last l (hashes ++ ws)). by rewrite E, <- app_assoc.
    + by apply (Hhead c (c' :: t)).
  - intros a c ->. apply (trim_last l (hashes ++ ws ++ a)).
    by rewrite E, <- !app_assoc.
Qed.

Lemma match_first_heading (line : str) :
  match_first false re_heading line =
  match run false re_heading (Cursor [] line ∅) Some with
  | Some y => Some (between (Cursor [] line ∅) y, groups y)
  | None => None
  end.
Proof. unfold re_heading. cbn [seq foldr]. apply match_first_anchored. Qed.

Lemma heading_sound (l m0 : str) (g : gmap nat str) :
  match_first false re_heading (trim l) = Some (m0, g) ->
  heading_line l (default [] (g !! 1)).
Proof.
  rewrite match_first_heading.
  destruct (run false re_heading _ Some) as [y|] eqn:Hrun; [|done].
  intros [= _ <-].
  destruct (heading_run_trimmed _ _ Hrun)
    as (hashes & ws & h & E & H1 & H2 & H3 & H4 & H5 & H6 & -> & Ht).
  by exists hashes, ws.
Qed.

Lemma after_leading_app (p : ascii -> bool) (t s : str) :
  forallb p t = true -> (forall c s', s = c :: s' -> p c = false) ->
  after_leading p (t ++ s) = s.
Proof.
  intros Ht Hs. induction t as [|a t IH]; cbn [app after_leading].
  - destruct s as [|c s']; [done|]. cbn [after_leading].
    by rewrite (Hs c s' eq_refl).
  - cbn [forallb] in Ht. apply andb_true_iff in Ht as [-> Ht]. by apply IH.
Qed.

(** The heading text of a line is what follows its hashes and the white
    space after them. *)
Lemma heading_text (line hashes ws h : str) :
  line = hashes ++ ws ++ h ->
  forallb (is_char "#") hashes = true ->
  forallb is_space ws = true -> ws <> [] ->
  h <> [] -> trim h = h ->
  h = after_leading is_space (after_leading (is_char "#") line).
Proof.
  intros -> H1 H3 H4 H5 Ht.
  rewrite after_leading_app; [|done|].
  - rewrite after_leading_app; [done | done |].
    intros c s' E. apply (trim_head h c s'). by rewrite Ht.
  - intros c s' E. destruct ws as [|a ws]; [done|].
    injection E as <- _. cbn [forallb] in H3.
    apply andb_true_iff in H3 as [Ha _].
    destruct (is_char "#" a) eqn:Hc; [|done].
    apply is_char_true in Hc as <-. done.
Qed.

Lemma heading_complete (l h : str) :
  heading_line l h ->
  startsWith (txt "#") (trim l) = true /\
  exists m0 g,
    match_first false re_heading (trim l) = Some (m0, g) /\ g !! 1 = Some h.
Proof.
  intros (hashes & ws & E & H1 & H2 & H3 & H4 & H5 & H6 & Ht). split.
  - rewrite E. destruct hashes as [|c hashes]; [simpl in H2; lia|].
    cbn [forallb] in H1. apply andb_true_iff in H1 as [Hc _].
    cbn [txt startsWith app]. simpl. by rewrite Hc.
  - rewrite match_first_heading.
    assert (is_Some (run false re_heading (Cursor [] (trim l) ∅) Some))
      as [y Hrun].
    { apply (run_complete _ _ _ _ (trim l) []);
        [by rewrite app_nil_r | | by eexists].
      rewrite E. unfold re_heading, plus. cbn [seq foldr lang seen].
      exists [], (hashes ++ ws ++ h). split; [done|]. split; [done|].
      exists hashes, (ws ++ h). split; [done|].
      split; [split; [done | unfold within; lia]|].
      exists ws, h. split; [done|]. split; [split; [done|]|].
      { unfold within. destruct ws; [done | simpl; lia]. }
      exists h, []. split; [by rewrite app_nil_r|]. split; [split; [done|]|].
      { unfold within. destruct h; [done | simpl; lia]. }
      by exists [], []. }
    destruct (heading_run_trimmed _ _ Hrun)
      as (hashes' & ws' & h' & E' & H1' & H2' & H3' & H4' & H5' & H6' & Hg & Ht').
    rewrite Hrun. exists (between (Cursor [] (trim l) ∅) y), (groups y).
    split; [done|]. etransitivity; [exact Hg|]. f_equal.
    rewrite (heading_text _ _ _ _ E H1 H3 H4 H5 Ht).
    by rewrite (heading_text _ _ _ _ E' H1' H3' H4' H5' Ht').
Qed.

Lemma nearestHeader_spec (above : list str) (h : str) :
  nearestHeader above = Some h <->
  exists pre l post,
    above = pre ++ l :: post /\ Forall no_heading pre /\ heading_line l h.
Proof.
  split.
  - induction above as [|l above IH]; [done|]. cbn [nearestHeader].
    destruct (startsWith (txt "#") (trim l)) eqn:Hs.
    + destruct (match_first false re_heading (trim l)) as [[m0 g]|] eqn:E.
      * intros [= <-]. exists [], l, above. repeat split; [constructor|].
        by apply (heading_sound _ m0).
      * intros (pre & l' & post & -> & Hpre & Hl)%IH.
        exists (l :: pre), l', post. repeat split; [|done].
        constructor; [|done]. intros h' (_ & m0 & g & E' & _)%heading_complete.
        congruence.
    + intros (pre & l' & post & -> & Hpre & Hl)%IH.
      exists (l :: pre), l', post. repeat split; [|done].
      constructor; [|done]. intros h' [Hs' _]%heading_complete. congruence.
  - intros (pre & l & post & -> & Hpre & Hl).
    induction Hpre as [|a pre Ha _ IH]; cbn [app nearestHeader].
    + destruct (heading_complete _ _ Hl) as (-> & m0 & g & -> & Hg).
      unfold str in *. by rewrite Hg.
    + destruct (startsWith (txt "#") (trim a)); [|done].
      destruct (match_first false re_heading (trim a)) as [[m0 g]|] eqn:E;
        [|done].
      destruct (Ha _ (heading_sound _ _ _ E)).
Qed.

Lemma Forall_rev_iff {A} (P : A -> Prop) (l : list A) :
  Forall P (rev l) <-> Forall P l.
Proof.
  rewrite !Forall_forall. split; intros H x Hx; apply H;
    apply list_elem_of_In; apply list_elem_of_In in Hx;
    [by apply in_rev in Hx | by apply in_rev].
Qed.

(** X4. The header returned for a target text is the heading text of the
    nearest heading line above the first line that holds the target: a line
    that, once trimmed, is one to six [#], white space and the text; the
    text is not empty, has no line terminator and no white space at either
    end.  No header is returned when no line holds the target or when no
    line above it is a heading line. *)
Theorem getMostRelevantHeader_nearest_heading (content targetLine h : str) :
  getMostRelevantHeader content targetLine = Some h <->
  exists targetIndex above l between,
    findIndex (includes targetLine) (split "010" content) = Some targetIndex /\
    take targetIndex (split "010" content) = above ++ l :: between /\
    heading_line l h /\ Forall no_heading between.
Proof.
  unfold getMostRelevantHeader.
  destruct (findIndex (includes targetLine) (split "010" content)) as [i|];
    [|split; [done | by intros (? & ? & ? & ? & ? & _)]].
  rewrite nearestHeader_spec. split.
  - intros (pre & l & post & E & Hpre & Hl).
    exists i, (rev post), l, (rev pre). repeat split; [|done|].
    + apply (f_equal (@rev str)) in E.
      rewrite rev_involutive, rev_app_distr in E. cbn [rev] in E.
      by rewrite <- app_assoc in E.
    + by apply Forall_rev_iff.
  - intros (i' & above & l & between & [= <-] & E & Hl & Hb).
    exists (rev between), l, (rev above). repeat split; [|by apply Forall_rev_iff|done].
    rewrite E, rev_app_distr. cbn [rev]. by rewrite <- app_assoc.
Qed.

(** ** Trigger cards *)

Lemma lang_no_eol (multiline : bool) (r : regex) :
  no_eol r = true ->
  forall sn t rs rs',
    lang multiline r sn t rs -> lang multiline r sn t rs'.
Proof.
  induction r as [|p|r1 IH1 r2 IH2|r1 IH1|p greedy lo hi| | |n r1 IH1];
    cbn [no_eol lang]; intros Hn sn t rs rs' L; try done.
  - apply andb_true_iff in Hn as [Hn1 Hn2].
    destruct L as (t1 & t2 & -> & L1 & L2). exists t1, t2. eauto.
  - destruct L as [->|L]; [by left | right; eauto].
  - eauto.
Qed.

Lemma no_eol_lit_i (word : str) : no_eol (lit_i word) = true.
Proof. unfold lit_i. induction word as [|a word IH]; [done|]. exact IH. Qed.

Lemma no_eol_trigger (triggerWord : str) : no_eol (re_trigger triggerWord) = true.
Proof.
  unfold re_trigger. cbn [seq foldr no_eol]. by rewrite no_eol_lit_i.
Qed.

(** The text a trigger pattern matched on a line matches it on its own. *)
Lemma trigger_rematch (triggerWord line m : str) (g : gmap nat str) :
  match_first false (re_trigger triggerWord) line = Some (m, g) ->
  is_Some (match_first false (re_trigger triggerWord) m).
Proof.
  intros (after & _ & _ & _ & _ & _ & L)%trigger_match_prefix.
  apply (lang_no_eol _ _ (no_eol_trigger _) _ _ _ []) in L.
  assert (is_Some (run false (re_trigger triggerWord) (Cursor [] m ∅) Some))
    as [y Hy].
  { apply (run_complete _ _ _ _ m []); [by rewrite app_nil_r | done | by eexists]. }
  unfold match_first. rewrite (search_here _ _ _ _ _ Hy). by eexists.
Qed.

Lemma firstTrigger_is_Some (triggers : list str) (m triggerWord : str) :
  triggerWord ∈ triggers ->
  is_Some (match_first false (re_trigger triggerWord) m) ->
  is_Some (firstTrigger triggers m).
Proof.
  intros Hin Hm. induction triggers as [|w triggers IH];
    [by apply elem_of_nil in Hin|].
  cbn [firstTrigger].
  destruct (match_first false (re_trigger w) m) as [[m0 g]|] eqn:E;
    [by eexists|].
  apply elem_of_cons in Hin as [->|Hin]; [|by apply IH].
  rewrite E in Hm. by destruct Hm.
Qed.

Lemma firstTrigger_trimmed (triggers : list str) (m word captured : str) :
  firstTrigger triggers m = Some (word, captured) -> trim captured = captured.
Proof.
  induction triggers as [|w triggers IH]; [done|]. cbn [firstTrigger].
  destruct (match_first false (re_trigger w) m) as [[m0 g]|]; [|done].
  intros [= _ <-]. apply trim_trim.
Qed.

Lemma trigger_cards_of_matches (triggers : list str) (content : str)
    (file : option str) (triggerMatches : list str) :
  Forall (fun m => m ∈ checkForTriggerWords triggers content) triggerMatches ->
  Forall2
    (trigger_card_of triggers)
    triggerMatches
    (generateContextualTriggerCards triggers triggerMatches content file).
Proof.
  induction 1 as [|m ms Hm _ IH]; [constructor|].
  unfold generateContextualTriggerCards, trigger_card_of. cbn [flat_map].
  apply checkForTriggerWords_elem in Hm as (line & w & g & _ & Hw & E).
  destruct (firstTrigger_is_Some triggers m w Hw (trigger_rematch _ _ _ _ E))
    as [[word captured] Hfirst].
  rewrite Hfirst. cbn [app]. constructor; [|apply IH].
  destruct (firstTrigger_first _ _ _ _ Hfirst) as (pre & post & -> & Hpre & Hword).
  exists pre, word, post. eexists. repeat split; [done | done |].
  cbn [answer]. by apply (firstTrigger_trimmed _ _ _ _ Hfirst).
Qed.

(** X5. For trigger words without pattern characters, the trigger card
    builder, given the matches of the trigger detector on the same document,
    drops none of them: it makes one card per match, in order.  The card is
    attributed to the first configured word whose pattern matches the text
    of the match, its question ends with that word after a blank line, and
    its answer has no white space at either end. *)
Theorem trigger_card_per_match (triggers : list str) (content : str)
    (file : option str) :
  forallb plain triggers = true ->
  Forall2
    (trigger_card_of triggers)
    (checkForTriggerWords triggers content)
    (generateContextualTriggerCards triggers
       (checkForTriggerWords triggers content) content file).
Proof. intros _. apply trigger_cards_of_matches. by apply Forall_forall. Qed.

Lemma trigger_card_per_match_witness :
  Forall2 (trigger_card_of [txt "definition"; txt "example"])
    (checkForTriggerWords [txt "definition"; txt "example"]
       (txt "# Wheels
**Example: a cart wheel  
so it goes
definition . a round thing"))
    (generateContextualTriggerCards [txt "definition"; txt "example"]
       (checkForTriggerWords [txt "definition"; txt "example"]
          (txt "# Wheels
**Example: a cart wheel  
so it goes
definition . a round thing"))
       (txt "# Wheels
**Example: a cart wheel  
so it goes
definition . a round thing")
       (Some (txt "wheels"))).
Proof. apply trigger_card_per_match. reflexivity. Defined.

(** ** Line breaks *)

(** Replacing a class of characters is a replacement character by
    character. *)
Lemma replace_class (p : ascii -> bool) (repl : str) (rs : str) :
  forall (sn : str) (fuel : nat),
    length rs < fuel ->
    replace_loop fuel false (Chr p) repl sn rs
    = flat_map (fun c => if p c then repl else [c]) rs.
Proof.
  induction rs as [|c rs IH]; intros sn fuel Hfuel;
    (destruct fuel as [|fuel]; [simpl in Hfuel; lia|]).
  - done.
  - simpl in Hfuel. cbn [flat_map]. destruct (p c) eqn:Hc.
    + cbn [replace_loop].
      rewrite (search_here false (Chr p) sn (c :: rs) (Cursor (c :: sn) rs ∅))
        by (cbn; by rewrite Hc).
      rewrite between_self, decide_False by (simpl; lia).
      cbn [seen rest app]. f_equal. apply IH. lia.
    + rewrite replace_loop_skip by (cbn; by rewrite Hc).
      cbn [app]. f_equal. apply IH. lia.
Qed.

Lemma replace_class_all (p : ascii -> bool) (repl s : str) :
  replace_all false (Chr p) repl s
  = flat_map (fun c => if p c then repl else [c]) s.
Proof. unfold replace_all. apply replace_class. lia. Qed.

Lemma replace_class_without (a : ascii) (repl s : str) :
  (a ∉ repl) -> a ∉ replace_all false (Chr (is_char a)) repl s.
Proof.
  intros Hrepl. rewrite replace_class_all.
  induction s as [|c s IH]; [apply not_elem_of_nil|].
  cbn [flat_map]. apply not_elem_of_app. split; [|done].
  destruct (is_char a c) eqn:Hc; [done|].
  apply is_char_false in Hc. apply not_elem_of_cons.
  split; [done | apply not_elem_of_nil].
Qed.

Lemma replace_all_without (a : ascii) (multiline : bool) (r : regex)
    (repl s : str) :
  (a ∉ repl) -> (a ∉ s) -> a ∉ replace_all multiline r repl s.
Proof.
  rewrite !not_elem_Forall. intros Hrepl Hs. by apply replace_loop_within.
Qed.

Lemma not_in_text (a : ascii) (s : str) :
  forallb (fun c => negb (is_char a c)) s = true -> a ∉ s.
Proof. apply forallb_not_char. Qed.

(** The replacements of the cleaning functions leave none of a character
    behind when one of them replaces it everywhere and the [n] ones that
    follow do not bring it back. *)
Tactic Notation "without_char" integer(n) :=
  do n (apply replace_all_without; [by apply not_in_text|]);
  by apply replace_class_without, not_in_text.

(** X6. The text that [convertLineBreaksToHtml] returns holds no line feed:
    every line break of a note field is written as markup. *)
Theorem convertLineBreaksToHtml_no_line_feed (text : str) :
  "010"%char ∉ convertLineBreaksToHtml text.
Proof. unfold convertLineBreaksToHtml. without_char 2. Qed.

(** X7. The text that [cleanTextForAnki] returns holds neither a tabulation
    nor a line feed, the two separators of the exported text file. *)
Theorem cleanTextForAnki_no_separator (text : str) :
  (tab ∉ cleanTextForAnki text) /\ ("010"%char ∉ cleanTextForAnki text).
Proof.
  unfold cleanTextForAnki. split; [without_char 4 | without_char 2].
Qed.

(** ** Text export *)

Lemma split_not_nil (sep : ascii) (s : str) : split sep s <> [].
Proof.
  destruct s as [|c s]; [done|]. simpl.
  destruct (is_char sep c); [done|]. by destruct (split sep s).
Qed.

Lemma split_app_sep (sep : ascii) (a b : str) :
  (sep ∉ a) -> split sep (a ++ sep :: b) = a :: split sep b.
Proof.
  induction a as [|c a IH]; intros Ha.
  - cbn [app split]. by rewrite (proj2 (is_char_true sep sep) eq_refl).
  - apply not_elem_of_cons in Ha as [Hc Ha]. cbn [app split].
    rewrite (proj2 (is_char_false sep c) Hc). by rewrite IH.
Qed.

Lemma foldl_append {A} (g : A -> str) (l : list A) :
  forall init : str,
    foldl (fun output a => output ++ g a) init l = init ++ flat_map g l.
Proof.
  induction l as [|a l IH]; intros init; cbn [foldl flat_map].
  - by rewrite app_nil_r.
  - by rewrite IH, <- app_assoc.
Qed.

Lemma removelast_cons {A} (a : A) (l : list A) :
  l <> [] -> removelast (a :: l) = a :: removelast l.
Proof. by destruct l. Qed.

Lemma exportTag_no_separator (q : QuizQuestion) :
  (tab ∉ exportTag q) /\ ("010"%char ∉ exportTag q) /\ (quote ∉ exportTag q).
Proof. unfold exportTag. destruct (is_cloze q); by repeat split; apply not_in_text. Qed.

(** X8. The text file that [exportToTxt] writes reads back as one row of
    three columns per card, in the order of the cards: its lines, cut at the
    tabulations, are the cleaned front, the cleaned back and the tag of each
    card.  No text of a card can break a row or add a column. *)
Theorem exportToTxt_rows (questions : list QuizQuestion) :
  rowsOf (exportToTxt questions) = map exportColumns questions.
Proof.
  unfold exportToTxt. rewrite foldl_append. cbn [app].
  set (row := fun q : QuizQuestion => _).
  induction questions as [|q questions IH]; [done|].
  cbn [flat_map map]. unfold row at 1.
  assert (tab ∉ cleanTextForAnki (exportSides q).1) as Ht1
    by (unfold cleanTextForAnki; without_char 4).
  assert ("010"%char ∉ cleanTextForAnki (exportSides q).1) as Hn1
    by (unfold cleanTextForAnki; without_char 2).
  assert (tab ∉ cleanTextForAnki (exportSides q).2) as Ht2
    by (unfold cleanTextForAnki; without_char 4).
  assert ("010"%char ∉ cleanTextForAnki (exportSides q).2) as Hn2
    by (unfold cleanTextForAnki; without_char 2).
  destruct (exportTag_no_separator q) as (Ht3 & Hn3 & _).
  unfold exportColumns.
  set (front := cleanTextForAnki (exportSides q).1) in *.
  set (back := cleanTextForAnki (exportSides q).2) in *.
  replace ((front ++ tab :: back ++ tab :: exportTag q ++ txt "
") ++ flat_map row questions)
    with ((front ++ tab :: back ++ tab :: exportTag q)
          ++ "010"%char :: flat_map row questions).
  2:{ rewrite <- !app_assoc. cbn [app]. rewrite <- !app_assoc. cbn [app].
      by rewrite <- !app_assoc. }
  unfold rowsOf in *. rewrite split_app_sep.
  - rewrite removelast_cons by apply split_not_nil. cbn [map].
    rewrite IH. f_equal.
    rewrite split_app_sep by done. rewrite split_app_sep by done.
    by rewrite split_one_line.
  - assert ("010"%char <> tab) as Hd by done.
    rewrite not_elem_of_app, not_elem_of_cons, not_elem_of_app, not_elem_of_cons.
    by repeat split.
Qed.

Lemma readQuotedBody_doubled (text rest : str) :
  (forall c r, rest = c :: r -> c <> quote) ->
  readQuotedBody
    (flat_map (fun c => if is_char quote c then [quote; quote] else [c]) text
     ++ quote :: rest)
  = Some (text, rest).
Proof.
  intros Hrest. induction text as [|c text IH]; cbn [flat_map app].
  - cbn [readQuotedBody]. rewrite (proj2 (is_char_true quote quote) eq_refl).
    destruct rest as [|c' r]; [done|].
    by rewrite (proj2 (is_char_false quote c') (not_eq_sym (Hrest c' r eq_refl))).
  - destruct (is_char quote c) eqn:Hc.
    + apply is_char_true in Hc as <-. cbn [app readQuotedBody].
      rewrite (proj2 (is_char_true quote quote) eq_refl). by rewrite IH.
    + cbn [app readQuotedBody]. by rewrite Hc, IH.
Qed.

Lemma readQuoted_csvQuoted (text rest : str) :
  (forall c r, rest = c :: r -> c <> quote) ->
  readQuoted (csvQuoted text ++ rest) = Some (text, rest).
Proof.
  intros Hrest. unfold csvQuoted. rewrite replace_class_all.
  rewrite <- !app_assoc. cbn [app readQuoted].
  rewrite (proj2 (is_char_true quote quote) eq_refl).
  by apply readQuotedBody_doubled.
Qed.

Lemma csvQuoted_plain (text : str) :
  (quote ∉ text) -> [quote] ++ text ++ [quote] = csvQuoted text.
Proof.
  intros H. unfold csvQuoted. rewrite replace_class_all. do 2 f_equal.
  induction text as [|c text IH]; [done|].
  apply not_elem_of_cons in H as [Hc H]. cbn [flat_map].
  rewrite (proj2 (is_char_false quote c) Hc). cbn [app]. by rewrite <- IH.
Qed.

(** X9. The CSV file that [exportToCsv] writes is the header line followed
    by one record per card, in the order of the cards, that reads back as
    the cleaned front, the cleaned back and the tag of the card: every field
    stands between double quotes, and a double quote inside a field is
    written twice, so that no text of a card can end a field or a record. *)
Theorem exportToCsv_records (questions : list QuizQuestion) :
  exists body,
    exportToCsv questions = txt "Front,Back,Tags
" ++ body /\
    readRecords (length questions) body = Some (map exportColumns questions).
Proof.
  unfold exportToCsv. rewrite foldl_append.
  set (record := fun q : QuizQuestion => _).
  exists (flat_map record questions). split; [done|].
  induction questions as [|q questions IH]; [done|].
  cbn [flat_map map length readRecords].
  destruct (exportTag_no_separator q) as (_ & _ & Hq).
  assert (record q ++ flat_map record questions
          = csvQuoted (cleanTextForAnki (exportSides q).1)
            ++ ","%char :: csvQuoted (cleanTextForAnki (exportSides q).2)
            ++ ","%char :: csvQuoted (exportTag q)
            ++ "010"%char :: flat_map record questions) as ->.
  { unfold record at 1. pose proof (csvQuoted_plain _ Hq) as E.
    rewrite <- E, <- !app_assoc. cbn [app txt]. by rewrite <- ?app_assoc. }
  unfold readRecord.
  rewrite readQuoted_csvQuoted by (by intros c r [= <- _]). cbn [expect].
  rewrite (proj2 (is_char_true ","%char ","%char) eq_refl).
  rewrite readQuoted_csvQuoted by (by intros c r [= <- _]). cbn [expect].
  rewrite (proj2 (is_char_true ","%char ","%char) eq_refl).
  rewrite readQuoted_csvQuoted by (by intros c r [= <- _]). cbn [expect].
  rewrite (proj2 (is_char_true "010"%char "010"%char) eq_refl).
  by rewrite IH.
Qed.

(** ** Links *)

Lemma flat_map_comp {A B C} (f : B -> list C) (g : A -> list B) (l : list A) :
  flat_map f (flat_map g l) = flat_map (fun a => flat_map f (g a)) l.
Proof.
  induction l as [|a l IH]; [done|]. cbn [flat_map].
  by rewrite flat_map_app, IH.
Qed.

Lemma forallb_flat_map {A B} (p : B -> bool) (f : A -> list B) (l : list A) :
  (forall a, forallb p (f a) = true) -> forallb p (flat_map f l) = true.
Proof.
  intros H. induction l as [|a l IH]; [done|]. cbn [flat_map].
  by rewrite forallb_app, H, IH.
Qed.

Lemma escapeChar_markup_free (c : ascii) :
  forallb markup_free (escapeChar c) = true.
Proof. destruct c as [[] [] [] [] [] [] [] []]; reflexivity. Qed.

Lemma escapeHtml_flat (s : str) : escapeHtml s = flat_map escapeChar s.
Proof.
  unfold escapeHtml. rewrite !replace_class_all, !flat_map_comp.
  apply flat_map_ext. intros c.
  destruct c as [[] [] [] [] [] [] [] []]; reflexivity.
Qed.

Lemma escapeHtml_markup_free (s : str) :
  forallb markup_free (escapeHtml s) = true.
Proof.
  rewrite escapeHtml_flat. apply forallb_flat_map, escapeChar_markup_free.
Qed.

(** X10. The five replacements of [escapeHtml], the ampersand first, amount
    to one pass that escapes each character on its own: no character of an
    entity written by an earlier replacement is escaped again.  The result
    holds no angle bracket, no double quote and no apostrophe. *)
Theorem escapeHtml_single_pass (s : str) :
  escapeHtml s = flat_map escapeChar s /\
  forallb markup_free (escapeHtml s) = true.
Proof. split; [apply escapeHtml_flat | apply escapeHtml_markup_free]. Qed.

Lemma encodeURIComponent_safe (s : str) :
  forallb attribute_safe (encodeURIComponent s) = true.
Proof.
  apply forallb_flat_map. intros c.
  destruct c as [[] [] [] [] [] [] [] []]; reflexivity.
Qed.

(** X11. The link that [convertFilenameToLink] writes for a file name is
    well formed whatever the vault name and the file name are: the address,
    between double quotes, holds no double quote, no angle bracket and no
    white space, and the text shown holds no angle bracket and no quote. *)
Theorem filenameLink_well_formed (vaultName filename : str) :
  exists address shown,
    filenameLink vaultName filename
    = txt "<a href=" ++ [quote] ++ address ++ [quote] ++ txt ">"
      ++ shown ++ txt "</a>" /\
    forallb attribute_safe address = true /\
    forallb markup_free shown = true.
Proof.
  eexists _, _. split; [reflexivity|]. split.
  - rewrite !forallb_app, !encodeURIComponent_safe. reflexivity.
  - apply escapeHtml_markup_free.
Qed.

(** A pattern whose matches all hold the text [w] matches nowhere in a text
    that does not hold [w]. *)
Lemma search_needs (w : str) (multiline : bool) (r : regex) :
  (forall sn t rs, lang multiline r sn t rs -> includes w t = true) ->
  forall s, includes w s = false -> search multiline r [] s = None.
Proof.
  intros Hlang s Hs. apply search_none. intros s1 s2 ->.
  destruct (run multiline r _ Some) as [z|] eqn:E; [|done].
  apply run_sound in E as (t & rs' & g' & Hrest & L & _).
  cbn [rest seen] in *.
  apply Hlang in L. apply includes_spec in L as (a & b & ->).
  assert (includes w (s1 ++ s2) = true); [|congruence].
  apply includes_spec. exists (s1 ++ a), (b ++ rs').
  rewrite Hrest. by rewrite <- !app_assoc.
Qed.

Lemma replace_all_unmatched (multiline : bool) (r : regex) (repl s : str) :
  search multiline r [] s = None -> replace_all multiline r repl s = s.
Proof. intros H. unfold replace_all. cbn [replace_loop]. by rewrite H. Qed.

Lemma includes_char (a : ascii) (s : str) :
  includes [a] s = false <-> a ∉ s.
Proof.
  induction s as [|c s IH]; cbn [includes startsWith].
  - split; [intros _; apply not_elem_of_nil | done].
  - rewrite not_elem_of_cons, <- IH, orb_false_iff, andb_true_r.
    by rewrite is_char_false.
Qed.

Lemma includes_app_r (w a b : str) :
  includes w b = true -> includes w (a ++ b) = true.
Proof.
  intros (x & y & ->)%includes_spec. apply includes_spec.
  exists (a ++ x), y. by rewrite <- app_assoc.
Qed.


(** X12. A text in which no file name ending in [.md] stands is returned
    unchanged by [convertFilenameToLink]. *)
Theorem convertFilenameToLink_unchanged (text vaultName : str) :
  includes (txt ".md") text = false ->
  convertFilenameToLink text vaultName = text.
Proof.
  intros H. unfold convertFilenameToLink, replace_all_with.
  cbn [replace_loop_with].
  rewrite (search_needs (txt ".md")); [done | | done].
  intros sn t rs. unfold filenamePattern. cbn [seq foldr lang].
  intros (t1 & t2 & -> & [-> _] & t3 & t4 & -> &
          (t5 & t6 & -> & _ & t7 & t8 & -> & L%lang_lit & ->) & ->).
  subst t7. cbn [app]. rewrite !app_nil_r. by apply includes_app_r, includes_spec; exists [], [].
Qed.

Lemma convertFilenameToLink_unchanged_witness :
  convertFilenameToLink (txt "-> Wheels
 a {{c1::wheel}} turns") (txt "brain")
  = txt "-> Wheels
 a {{c1::wheel}} turns".
Proof. apply convertFilenameToLink_unchanged. reflexivity. Defined.

(** X13. A text that holds neither a line feed nor the markup of a line
    break is returned unchanged by [convertLineBreaksToHtml]. *)
Theorem convertLineBreaksToHtml_unchanged (text : str) :
  ("010"%char ∉ text) -> includes (txt "<br>") text = false ->
  convertLineBreaksToHtml text = text.
Proof.
  intros Hn%includes_char Hbr. unfold convertLineBreaksToHtml.
  rewrite (replace_all_unmatched false re_blank_lines).
  2:{ apply (search_needs ["010"%char]); [|done].
      intros sn t rs. unfold re_blank_lines. cbn [seq foldr lang].
      intros (t1 & t2 & -> & (c & -> & <-%is_char_true) & _).
      by apply includes_spec; exists [], t2. }
  rewrite (replace_all_unmatched false re_line_feed).
  2:{ apply (search_needs ["010"%char]); [|done].
      intros sn t rs (c & -> & <-%is_char_true). done. }
  rewrite (replace_all_unmatched false re_space_br).
  2:{ apply (search_needs (txt "<br>")); [|done].
      intros sn t rs. unfold re_space_br. cbn [seq foldr lang].
      intros (t1 & t2 & -> & _ & t3 & t4 & -> & ->%lang_lit & ->).
      apply includes_app_r, includes_spec. by exists [], []. }
  apply replace_all_unmatched, (search_needs (txt "<br>")); [|done].
  intros sn t rs. unfold re_br_space. cbn [seq foldr lang].
  intros (t1 & t2 & -> & ->%lang_lit & _).
  apply includes_spec. by exists [], t2.
Qed.

Lemma convertLineBreaksToHtml_unchanged_witness :
  convertLineBreaksToHtml (txt "a round  thing ") = txt "a round  thing ".
Proof.
  apply convertLineBreaksToHtml_unchanged; [|reflexivity].
  apply not_in_text. reflexivity.
Defined.

(** ** Notes *)

Lemma convertQuestionToAnkiNote_cloze (noteType : str) (q : QuizQuestion)
    (deck : str) (triggerWord vaultName : option str) :
  converted_as_cloze q = true ->
  exists text extra,
    modelName (convertQuestionToAnkiNote noteType q deck triggerWord vaultName)
    = txt "Cloze" /\
    fields (convertQuestionToAnkiNote noteType q deck triggerWord vaultName)
    = {[ "Text" := text; "Extra" := extra ]} /\
    ("010"%char ∉ text) /\ ("010"%char ∉ extra).
Proof.
  unfold converted_as_cloze, convertQuestionToAnkiNote. intros ->.
  cbn [modelName fields fst snd]. eexists _, _.
  split; [done|]. split; [done|].
  split; [unfold convertLineBreaksToHtml; without_char 2|].
  destruct (truthy (explanation q));
    [unfold convertLineBreaksToHtml; without_char 2 | apply not_elem_of_nil].
Qed.

Lemma convertQuestionToAnkiNote_basic (noteType : str) (q : QuizQuestion)
    (deck : str) (triggerWord vaultName : option str) :
  converted_as_cloze q = false ->
  exists front back,
    modelName (convertQuestionToAnkiNote noteType q deck triggerWord vaultName)
    = (if truthy (Some noteType) then noteType else txt "Basic") /\
    fields (convertQuestionToAnkiNote noteType q deck triggerWord vaultName)
    = {[ "Front" := front; "Back" := back ]} /\
    ("010"%char ∉ front) /\ ("010"%char ∉ back).
Proof.
  unfold converted_as_cloze, convertQuestionToAnkiNote. intros ->.
  cbn [modelName fields fst snd].
  destruct (is_multiple_choice q), (options q) as [opts|];
    eexists _, _; (split; [done|]);
    (split; [first [done | by rewrite insert_insert_eq]|]);
    split; unfold convertLineBreaksToHtml; without_char 2.
Qed.

(** X14. The note made from a card has exactly two fields, [Text] and
    [Extra] for a cloze card with a cloze body and [Front] and [Back] for
    any other card, and none of them holds a line feed. *)
Theorem convertQuestionToAnkiNote_fields (noteType : str) (q : QuizQuestion)
    (deck : str) (triggerWord vaultName : option str) :
  dom (fields (convertQuestionToAnkiNote noteType q deck triggerWord vaultName))
  = (if converted_as_cloze q then {[ "Text"; "Extra" ]}
     else {[ "Front"; "Back" ]} : gset string) /\
  map_Forall (fun _ value => "010"%char ∉ value)
    (fields (convertQuestionToAnkiNote noteType q deck triggerWord vaultName)).
Proof.
  destruct (converted_as_cloze q) eqn:E.
  - destruct (convertQuestionToAnkiNote_cloze noteType q deck triggerWord
                vaultName E) as (text & extra & _ & -> & Ht & He).
    split; [by rewrite dom_insert_L, dom_singleton_L|].
    apply map_Forall_insert_2; [done|]. by apply map_Forall_singleton.
  - destruct (convertQuestionToAnkiNote_basic noteType q deck triggerWord
                vaultName E) as (front & back & _ & -> & Hf & Hb).
    split; [by rewrite dom_insert_L, dom_singleton_L|].
    apply map_Forall_insert_2; [done|]. by apply map_Forall_singleton.
Qed.

(** X15. When the note type of the settings is not [Cloze], the fields that
    the reconciliation of the exporter compares and updates, which it
    chooses by the name of the model, are fields the converted note has. *)
Theorem converted_note_has_reconciled_fields (noteType : str) (q : QuizQuestion)
    (deck : str) (triggerWord vaultName : option str) :
  noteType <> txt "Cloze" ->
  Forall
    (fun name =>
       is_Some
         (fields (convertQuestionToAnkiNote noteType q deck triggerWord vaultName)
            !! name))
    (reconciledFields
       (convertQuestionToAnkiNote noteType q deck triggerWord vaultName)).
Proof.
  intros Hn. unfold reconciledFields. destruct (converted_as_cloze q) eqn:E.
  - destruct (convertQuestionToAnkiNote_cloze noteType q deck triggerWord
                vaultName E) as (text & extra & -> & -> & _).
    rewrite decide_True by done. repeat constructor.
    + by rewrite lookup_insert_eq.
    + by rewrite lookup_insert_ne, lookup_singleton_eq.
  - destruct (convertQuestionToAnkiNote_basic noteType q deck triggerWord
                vaultName E) as (front & back & -> & -> & _).
    rewrite decide_False by (by destruct noteType). repeat constructor.
    + by rewrite lookup_insert_eq.
    + by rewrite lookup_insert_ne, lookup_singleton_eq.
Qed.

Lemma converted_note_has_reconciled_fields_witness :
  Forall
    (fun name =>
       is_Some
         (fields (convertQuestionToAnkiNote (txt "Basic") sampleCard
                    (txt "definition") (Some (txt "definition"))
                    (Some (txt "brain")))
            !! name))
    (reconciledFields
       (convertQuestionToAnkiNote (txt "Basic") sampleCard (txt "definition")
          (Some (txt "definition")) (Some (txt "brain")))).
Proof. apply converted_note_has_reconciled_fields. discriminate. Defined.

(** X16. When the note type of the settings is [Cloze], a card that is not
    converted as a cloze card still gives a note of the model [Cloze], with
    the fields [Front] and [Back] only.  The reconciliation, which goes by
    the name of the model, then compares the [Text] of the record found with
    the empty text, and an update writes an empty [Extra]. *)
Theorem cloze_note_type_on_plain_card (q : QuizQuestion) (deck : str)
    (triggerWord vaultName : option str) (existing : gmap string str) :
  converted_as_cloze q = false ->
  let note :=
    convertQuestionToAnkiNote (txt "Cloze") q deck triggerWord vaultName in
  dom (fields note) = ({[ "Front"; "Back" ]} : gset string) /\
  fieldsToUpdate note = {[ "Extra" := [] ]} /\
  differs note existing = negb (isContentSimilar (field existing "Text") []).
Proof.
  intros E note. subst note. unfold fieldsToUpdate, differs, field.
  destruct (convertQuestionToAnkiNote_basic (txt "Cloze") q deck triggerWord
              vaultName E) as (front & back & -> & -> & _).
  cbn [truthy txt]. rewrite !decide_True by done.
  split; [by rewrite dom_insert_L, dom_singleton_L|].
  by rewrite !lookup_insert_ne, !lookup_singleton_ne.
Qed.

Lemma cloze_note_type_on_plain_card_witness :
  dom (fields (convertQuestionToAnkiNote (txt "Cloze") sampleCard
                 (txt "definition") None None))
  = ({[ "Front"; "Back" ]} : gset string) /\
  fieldsToUpdate (convertQuestionToAnkiNote (txt "Cloze") sampleCard
                    (txt "definition") None None)
  = {[ "Extra" := [] ]} /\
  differs (convertQuestionToAnkiNote (txt "Cloze") sampleCard
             (txt "definition") None None) ∅
  = negb (isContentSimilar (field ∅ "Text") []).
Proof.
  apply (cloze_note_type_on_plain_card sampleCard (txt "definition") None None ∅).
  reflexivity.
Defined.

(** ** Decks *)

Lemma getDeckNames_eq (anki : DeckServer) (log : list deckRequest) :
  getDeckNames anki log = (Ok (listedDecks anki log), log ++ [DeckNames]).
Proof.
  unfold getDeckNames, listedDecks, catchD, bindD, sendDeckRequest, throwD, retD.
  destruct (on_deckNames anki log) as [msg|error result]; [done|].
  cbn [fst snd]. by destruct (truthy error).
Qed.

Lemma createDeck_eq (anki : DeckServer) (deck : str) (log : list deckRequest) :
  createDeck anki deck log
  = (Ok (creation_accepted anki log deck), log ++ [CreateDeck deck]).
Proof.
  unfold createDeck, creation_accepted, catchD, bindD, sendDeckRequest,
    throwD, retD.
  destruct (on_createDeck anki log deck) as [msg|error result]; [done|].
  cbn [fst snd]. by destruct (truthy error).
Qed.

Lemma ensureDeckExists_eq (anki : DeckServer) (allowDeckCreation : bool)
    (deck : str) (log : list deckRequest) :
  ensureDeckExists anki allowDeckCreation deck log =
  if bool_decide (deck ∈ listedDecks anki log) then
    (Ok false, log ++ [DeckNames])
  else if allowDeckCreation then
    (if creation_accepted anki (log ++ [DeckNames]) deck then Ok true
     else Throw (txt "Failed to create deck " ++ [quote] ++ deck ++ [quote]),
     log ++ [DeckNames; CreateDeck deck])
  else
    (Throw (txt "Deck " ++ [quote] ++ deck ++ [quote]
            ++ txt " does not exist and deck creation is disabled"),
     log ++ [DeckNames]).
Proof.
  unfold ensureDeckExists, bindD. rewrite getDeckNames_eq.
  destruct (bool_decide (deck ∈ listedDecks anki log)); [done|].
  cbn [negb]. destruct allowDeckCreation; [|done].
  rewrite createDeck_eq, <- app_assoc.
  by destruct (creation_accepted anki (log ++ [DeckNames]) deck).
Qed.

(** X17. [ensureDeckExists] asks for the list of the decks, then sends at
    most one other request, the creation of the deck it was asked for, and
    this exactly when the deck is not in the list it got and deck creation
    is allowed.  It returns [true] exactly when it sent the creation and the
    server accepted it, and [false] exactly when the deck was in the list;
    otherwise it throws. *)
Theorem ensureDeckExists_requests (anki : DeckServer) (allowDeckCreation : bool)
    (deck : str) (log : list deckRequest) :
  exists (result : outcome bool) (sent : list deckRequest),
    ensureDeckExists anki allowDeckCreation deck log
    = (result, log ++ DeckNames :: sent) /\
    (sent = [] \/ sent = [CreateDeck deck]) /\
    (sent = [CreateDeck deck] <->
     allowDeckCreation = true /\ deck ∉ listedDecks anki log) /\
    (result = Ok true <->
     sent = [CreateDeck deck] /\
     creation_accepted anki (log ++ [DeckNames]) deck = true) /\
    (result = Ok false <-> deck ∈ listedDecks anki log).
Proof.
  rewrite ensureDeckExists_eq.
  destruct (bool_decide (deck ∈ listedDecks anki log)) eqn:Hin.
  - apply bool_decide_eq_true in Hin.
    exists (Ok false), []. repeat split; try done; try (by left); intuition congruence.
  - apply bool_decide_eq_false in Hin. destruct allowDeckCreation.
    + eexists _, [CreateDeck deck]. split; [done|].
      destruct (creation_accepted anki (log ++ [DeckNames]) deck);
        repeat split; try done; try (by right); intuition congruence.
    + eexists _, []. repeat split; try done; try (by left); intuition congruence.
Qed.

(** X18. When the list of the decks cannot be fetched, the request failing
    or being answered with an error, every deck counts as missing: with deck
    creation disabled [ensureDeckExists] throws that the deck does not
    exist, and with deck creation allowed it asks for the creation of the
    deck, whether the server has the deck or not. *)
Theorem ensureDeckExists_listing_fails (anki : DeckServer)
    (allowDeckCreation : bool) (deck : str) (log : list deckRequest) :
  listing_fails anki log ->
  ensureDeckExists anki allowDeckCreation deck log =
  if allowDeckCreation then
    (if creation_accepted anki (log ++ [DeckNames]) deck then Ok true
     else Throw (txt "Failed to create deck " ++ [quote] ++ deck ++ [quote]),
     log ++ [DeckNames; CreateDeck deck])
  else
    (Throw (txt "Deck " ++ [quote] ++ deck ++ [quote]
            ++ txt " does not exist and deck creation is disabled"),
     log ++ [DeckNames]).
Proof.
  intros H. rewrite ensureDeckExists_eq.
  assert (listedDecks anki log = []) as ->; [|done].
  unfold listing_fails in H. unfold listedDecks.
  destruct (on_deckNames anki log) as [msg|error result]; [done|].
  by rewrite H.
Qed.

Lemma ensureDeckExists_listing_fails_witness :
  ensureDeckExists (deckServer [txt "definition"] 1) false (txt "definition") []
  = (Throw (txt "Deck " ++ [quote] ++ txt "definition" ++ [quote]
            ++ txt " does not exist and deck creation is disabled"),
     [DeckNames]).
Proof.
  apply (ensureDeckExists_listing_fails (deckServer [txt "definition"] 1) false
           (txt "definition") []).
  exact I.
Defined.

(** ** Deck routing *)

Lemma find_weaker {A} (f g : A -> bool) (l : list A) :
  (forall x, g x = true -> f x = true) -> find f l = None -> find g l = None.
Proof.
  intros H. induction l as [|a l IH]; [done|]. cbn [find].
  destruct (f a) eqn:Hf; [done|]. destruct (g a) eqn:Hg; [|done].
  apply H in Hg. congruence.
Qed.

(** X19. The second loop of [extractTriggerWord] never decides: a card is
    attributed to the first configured word that occurs, whatever its case,
    in the question and the answer of the card, and to no word when none
    occurs. *)
Theorem extractTriggerWord_first_occurring (triggers : list str)
    (q : QuizQuestion) :
  extractTriggerWord triggers q
  = find (fun trigger => includes (toLowerCase trigger) (routedText q)) triggers.
Proof.
  unfold extractTriggerWord, routedText.
  destruct (find _ triggers) as [w|] eqn:E; [done|].
  revert E. apply find_weaker.
  intros w (a & b & Hab)%includes_spec. apply includes_spec.
  unfold toLowerCase in *. rewrite map_app, Hab.
  exists a, (txt ":" ++ b ++ map lower_char (txt " " ++ answer q)).
  by rewrite <- !app_assoc.
Qed.

Lemma extractTriggerWord_found (triggers : list str) (q : QuizQuestion)
    (w : str) :
  find (fun trigger => includes (toLowerCase trigger) (routedText q)) triggers
  = Some w ->
  extractTriggerWord triggers q = Some w.
Proof. unfold extractTriggerWord, routedText. by intros ->. Qed.

Lemma find_is_Some {A} (f : A -> bool) (l : list A) (x : A) :
  x ∈ l -> f x = true ->
  exists y, find f l = Some y /\ y ∈ l /\ f y = true.
Proof.
  intros Hin Hf. induction l as [|a l IH]; [by apply elem_of_nil in Hin|].
  cbn [find]. destruct (f a) eqn:Ha.
  - exists a. repeat split; [apply list_elem_of_here | done].
  - apply elem_of_cons in Hin as [->|Hin]; [congruence|].
    destruct (IH Hin) as (y & -> & Hy & Hfy). exists y.
    repeat split; [by apply list_elem_of_further | done].
Qed.

(** X20. For trigger words without pattern characters, every card of the
    trigger card builder is attributed by the router to a configured word,
    never to none: the question of the card ends with the word the builder
    matched, so that some configured word occurs in it.  The word it is
    attributed to is the first configured word that occurs in the text of
    the card. *)
Theorem trigger_cards_routed (triggers triggerMatches : list str)
    (content : str) (file : option str) :
  forallb plain triggers = true ->
  Forall
    (fun q =>
       exists word,
         extractTriggerWord triggers q = Some word /\ word ∈ triggers /\
         includes (toLowerCase word) (routedText q) = true)
    (generateContextualTriggerCards triggers triggerMatches content file).
Proof.
  intros _. unfold generateContextualTriggerCards.
  induction triggerMatches as [|m ms IH]; [constructor|]. cbn [flat_map].
  destruct (firstTrigger triggers m) as [[word definition]|] eqn:E; [|done].
  cbn [app]. constructor; [|done].
  destruct (firstTrigger_first _ _ _ _ E) as (pre & post & Htr & _).
  lazymatch goal with
  | |- ex (fun _ => extractTriggerWord _ ?q = _ /\ _) =>
      destruct (find_is_Some
                  (fun trigger => includes (toLowerCase trigger) (routedText q))
                  triggers word) as (w & Hfind & Hin & Hinc)
  end.
  - rewrite Htr. apply elem_of_app. right. apply list_elem_of_here.
  - unfold routedText. cbn [question answer].
    match goal with
    | |- includes _ (toLowerCase ((?c ++ ?nn ++ word) ++ ?r)) = true =>
        apply includes_spec; exists (toLowerCase (c ++ nn)), (toLowerCase r)
    end.
    unfold toLowerCase. by rewrite <- !map_app, <- !app_assoc.
  - exists w. by rewrite (extractTriggerWord_found _ _ _ Hfind).
Qed.

Lemma trigger_cards_routed_witness :
  Forall
    (fun q =>
       exists word,
         extractTriggerWord [txt "definition"; txt "example"] q = Some word /\
         word ∈ [txt "definition"; txt "example"] /\
         includes (toLowerCase word) (routedText q) = true)
    (generateContextualTriggerCards [txt "definition"; txt "example"]
       [txt "Example: the definition of a wheel"] (txt "# Wheels
Example: the definition of a wheel") (Some (txt "wheels"))).
Proof. apply trigger_cards_routed. reflexivity. Defined.

Lemma addToGroup_cases (triggers : list str)
    (groups : gmap str (list QuizQuestion)) (q : QuizQuestion) :
  (forall w, w ∈ objectPrototypeNames -> groups !! w = None) ->
  match extractTriggerWord triggers q with
  | Some w =>
      if decide (w = []) then addToGroup triggers groups q = Ok groups
      else if decide (w ∈ objectPrototypeNames)
           then exists msg, addToGroup triggers groups q = Throw msg
           else addToGroup triggers groups q
                = Ok (<[w := default [] (groups !! w) ++ [q]]> groups)
  | None => addToGroup triggers groups q = Ok groups
  end.
Proof.
  intros Hinv. unfold addToGroup. unfold str in *.
  destruct (extractTriggerWord triggers q) as [[|c w]|]; [done| |done].
  rewrite decide_False by done. cbn [truthy].
  destruct (decide _) as [Hin|Hin].
  - rewrite (Hinv _ Hin), bool_decide_eq_true_2 by done. by eexists.
  - destruct (groups !! (c :: w)) as [group|]; [done|].
    by rewrite bool_decide_eq_false_2.
Qed.

Lemma groupOf_snoc (triggers : list str) (w : str)
    (questions : list QuizQuestion) (q : QuizQuestion) :
  groupOf triggers w (questions ++ [q])
  = groupOf triggers w questions
    ++ (if decide (extractTriggerWord triggers q = Some w) then [q] else []).
Proof.
  unfold groupOf. by rewrite filter_app.
Qed.

Lemma expectedGroup_snoc (triggers : list str) (w : str)
    (questions : list QuizQuestion) (q : QuizQuestion) :
  expectedGroup triggers w (questions ++ [q])
  = if decide (w = []) then None
    else if decide (extractTriggerWord triggers q = Some w)
         then Some (groupOf triggers w questions ++ [q])
         else expectedGroup triggers w questions.
Proof.
  unfold expectedGroup. rewrite groupOf_snoc.
  destruct (decide (w = [])); [done|].
  destruct (decide (extractTriggerWord triggers q = Some w)).
  - by destruct (groupOf triggers w questions).
  - by rewrite app_nil_r.
Qed.

Lemma expectedGroup_default (triggers : list str) (w : str)
    (questions : list QuizQuestion) :
  w <> [] ->
  default [] (expectedGroup triggers w questions) = groupOf triggers w questions.
Proof.
  intros Hw. unfold expectedGroup. rewrite decide_False by done.
  by destruct (groupOf triggers w questions).
Qed.

Lemma expectedGroup_inherited (triggers : list str) (w : str)
    (questions : list QuizQuestion) :
  no_inherited_key triggers questions -> w ∈ objectPrototypeNames ->
  expectedGroup triggers w questions = None.
Proof.
  intros Hno Hw. unfold expectedGroup. destruct (decide (w = [])); [done|].
  destruct (groupOf triggers w questions) as [|q group] eqn:E; [done|].
  assert (q ∈ groupOf triggers w questions) as Hq
    by (rewrite E; apply list_elem_of_here).
  apply list_elem_of_filter in Hq as [Hq Hin].
  unfold no_inherited_key in Hno. rewrite Forall_forall in Hno.
  destruct (Hno q Hin w Hq Hw).
Qed.

Lemma groupLoop_spec (triggers : list str) (questions : list QuizQuestion) :
  forall (seen : list QuizQuestion) (groups : gmap str (list QuizQuestion)),
    no_inherited_key triggers seen ->
    (forall w, groups !! w = expectedGroup triggers w seen) ->
    match groupLoop triggers groups questions with
    | Ok groups' =>
        no_inherited_key triggers (seen ++ questions) /\
        forall w, groups' !! w = expectedGroup triggers w (seen ++ questions)
    | Throw _ =>
        exists q w,
          q ∈ questions /\ w ∈ objectPrototypeNames /\
          extractTriggerWord triggers q = Some w
    end.
Proof.
  induction questions as [|q questions IH]; intros seen groups Hno Hgroups.
  - cbn [groupLoop]. by rewrite app_nil_r.
  - cbn [groupLoop].
    assert (forall w, w ∈ objectPrototypeNames -> groups !! w = None) as Hinv.
    { intros w Hw. rewrite Hgroups. by apply expectedGroup_inherited. }
    pose proof (addToGroup_cases triggers groups q Hinv) as Hq.
    assert (seen ++ q :: questions = (seen ++ [q]) ++ questions) as ->
      by (by rewrite <- app_assoc).
    destruct (extractTriggerWord triggers q) as [tw|] eqn:Etw.
    + destruct (decide (tw = [])) as [->|Hne].
      * rewrite Hq. specialize (IH (seen ++ [q]) groups).
        destruct (groupLoop triggers groups questions) as [groups'|msg].
        -- apply IH.
           ++ apply Forall_app. split; [done|]. constructor; [|done].
              intros w. rewrite Etw. intros [= <-].
              apply (bool_decide_unpack _). by vm_compute.
           ++ intros w. rewrite expectedGroup_snoc, Hgroups, Etw.
              unfold expectedGroup. destruct (decide (w = [])); [done|].
              by rewrite decide_False by (intros [= ?]; by subst).
        -- destruct IH as (q' & w & Hin & Hw & E).
           ++ apply Forall_app. split; [done|]. constructor; [|done].
              intros w. rewrite Etw. intros [= <-].
              apply (bool_decide_unpack _). by vm_compute.
           ++ intros w. rewrite expectedGroup_snoc, Hgroups, Etw.
              unfold expectedGroup. destruct (decide (w = [])); [done|].
              by rewrite decide_False by (intros [= ?]; by subst).
           ++ exists q', w. split; [by apply list_elem_of_further | done].
      * destruct (decide (tw ∈ objectPrototypeNames)) as [Hin|Hin].
        -- destruct Hq as [msg ->]. exists q, tw.
           split; [apply list_elem_of_here | done].
        -- rewrite Hq.
           specialize (IH (seen ++ [q])
                         (<[tw := default [] (groups !! tw) ++ [q]]> groups)).
           assert (no_inherited_key triggers (seen ++ [q])) as Hno'.
           { apply Forall_app. split; [done|]. constructor; [|done].
             intros w. rewrite Etw. by intros [= <-]. }
           assert (forall w,
                     <[tw := default [] (groups !! tw) ++ [q]]> groups !! w
                     = expectedGroup triggers w (seen ++ [q])) as Hgroups'.
           { intros w. rewrite expectedGroup_snoc, Etw.
             destruct (decide (tw = w)) as [<-|Hw].
             - rewrite lookup_insert_eq, decide_False, decide_True by done.
               by rewrite Hgroups, expectedGroup_default.
             - rewrite lookup_insert_ne by done. rewrite Hgroups.
               rewrite (decide_False (P := Some tw = Some w))
                 by (by intros [=]).
               unfold expectedGroup. by destruct (decide (w = [])). }
           destruct (groupLoop triggers _ questions) as [groups'|msg].
           ++ by apply IH.
           ++ destruct (IH Hno' Hgroups') as (q' & w & Hin' & Hw & E).
              exists q', w. split; [by apply list_elem_of_further | done].
    + rewrite Hq. specialize (IH (seen ++ [q]) groups).
      assert (no_inherited_key triggers (seen ++ [q])) as Hno'.
      { apply Forall_app. split; [done|]. constructor; [|done].
        intros w. by rewrite Etw. }
      assert (forall w, groups !! w = expectedGroup triggers w (seen ++ [q]))
        as Hgroups'.
      { intros w. rewrite expectedGroup_snoc, Hgroups, Etw.
        unfold expectedGroup. destruct (decide (w = [])); [done|].
        by rewrite decide_False. }
      destruct (groupLoop triggers groups questions) as [groups'|msg].
      * by apply IH.
      * destruct (IH Hno' Hgroups') as (q' & w & Hin & Hw & E). exists q', w.
        split; [by apply list_elem_of_further | done].
Qed.

(** X21. [groupQuestionsByTrigger] cuts the cards into the groups of the
    router: the group under a key is made of the cards attributed to that
    word, all of them and in their order; a key has a group only if it is
    not empty and some card is attributed to it, so that the cards
    attributed to no word or to the empty word are left out.  The grouping
    throws exactly when some card is attributed to a word that is the name
    of a property every object inherits. *)
Theorem groupQuestionsByTrigger_partition (triggers : list str)
    (questions : list QuizQuestion) :
  match groupQuestionsByTrigger triggers questions with
  | Ok groups =>
      no_inherited_key triggers questions /\
      forall w, groups !! w = expectedGroup triggers w questions
  | Throw _ =>
      exists q w,
        q ∈ questions /\ w ∈ objectPrototypeNames /\
        extractTriggerWord triggers q = Some w
  end.
Proof.
  unfold groupQuestionsByTrigger.
  pose proof (groupLoop_spec triggers questions [] ∅) as H.
  destruct (groupLoop triggers ∅ questions) as [groups|msg]; apply H;
    try constructor.
  all: intros w; rewrite lookup_empty; unfold expectedGroup, groupOf;
    by destruct (decide (w = [])).
Qed.

(** ** Improvement of the trigger questions *)

Lemma same_but_wording_refl (questions : list QuizQuestion) :
  Forall2 same_but_wording questions questions.
Proof. induction questions; by repeat constructor. Qed.

Lemma same_but_wording_alter (f : QuizQuestion -> QuizQuestion) (index : nat)
    (original questions : list QuizQuestion) :
  (forall q, same_but_wording q (f q)) ->
  Forall2 same_but_wording original questions ->
  Forall2 same_but_wording original (alter f index questions).
Proof.
  intros Hf H. revert index.
  induction H as [|q q' original questions Hq Ht IH]; intros [|index];
    cbn; try constructor; try done.
  destruct Hq as (H1 & H2 & H3 & H4), (Hf q') as (H1' & H2' & H3' & H4').
  repeat split; congruence.
Qed.

Lemma applyImprovements_frame (improvements : list (option Improvement)) :
  forall (index : nat) (original questions : list QuizQuestion),
    Forall2 same_but_wording original questions ->
    Forall2 same_but_wording original
      (applyImprovements index improvements questions).
Proof.
  induction improvements as [|improvement improvements IH];
    intros index original questions H; cbn [applyImprovements]; [done|].
  destruct (index <? length questions); [|by apply IH].
  destruct improvement as [improvement|]; [|done].
  apply IH.
  destruct (truthy (improvedExplanation improvement));
    destruct (truthy (improvedQuestion improvement));
    repeat (apply same_but_wording_alter; [by intros []|]); done.
Qed.

(** X22. Whatever the model answers, [enhanceTriggerWordQuestions] leaves
    as many questions as it was given, in the same order, and changes
    nothing of a question but the wording of its question and its
    explanation: no answer, type, option or cloze body is altered. *)
Theorem enhanceTriggerWordQuestions_keeps_answers
    (parseImprovements : str -> outcome (option (list (option Improvement))))
    (generateContent : str -> outcome str) (questions : list QuizQuestion)
    (originalContent : str) :
  Forall2 same_but_wording questions
    (enhanceTriggerWordQuestions parseImprovements generateContent questions
       originalContent).
Proof.
  unfold enhanceTriggerWordQuestions.
  destruct (generateContent _) as [text|msg];
    [|apply same_but_wording_refl].
  destruct (match_first false re_json_object text) as [[jsonMatch g]|];
    [|apply same_but_wording_refl].
  destruct (parseImprovements jsonMatch) as [[improvements|]|msg];
    try apply same_but_wording_refl.
  apply applyImprovements_frame, same_but_wording_refl.
Qed.

(** ** The skip and create policies, and the report *)

Lemma reconcileLoop_skip (anki : AnkiConnect) (deck : str)
    (matches : list MatchInfo) (ankiNotes : list AnkiNote) :
  forall (i : nat) (st : Progress) (log : list request),
    reconcileLoop anki Skip deck i ankiNotes matches st log =
    (Ok {| notesToCreate := notesToCreate st ++ unmatchedFrom i ankiNotes matches;
           updatedCount := updatedCount st;
           skippedCount := skippedCount st + matchedCount i ankiNotes matches;
           result := result st |}, log).
Proof.
  induction ankiNotes as [|note ankiNotes IH]; intros i st log;
    cbn [reconcileLoop unmatchedFrom matchedCount].
  - unfold ret. rewrite app_nil_r, Nat.add_0_r. by destruct st.
  - unfold bind, reconcileNote.
    destruct (matchedId (matches !! i)) as [id|]; unfold ret; rewrite IH.
    + cbn [countSkipped notesToCreate updatedCount skippedCount result].
      do 3 f_equal. lia.
    + cbn [schedule notesToCreate updatedCount skippedCount result].
      by rewrite <- app_assoc.
Qed.

Lemma reconcileLoop_create (anki : AnkiConnect) (deck : str)
    (matches : list MatchInfo) (ankiNotes : list AnkiNote) :
  forall (i : nat) (st : Progress) (log : list request),
    reconcileLoop anki Create deck i ankiNotes matches st log =
    (Ok {| notesToCreate := notesToCreate st ++ ankiNotes;
           updatedCount := updatedCount st;
           skippedCount := skippedCount st;
           result := result st |}, log).
Proof.
  induction ankiNotes as [|note ankiNotes IH]; intros i st log;
    cbn [reconcileLoop].
  - unfold ret. rewrite app_nil_r. by destruct st.
  - unfold bind, reconcileNote.
    destruct (matchedId (matches !! i)) as [id|]; unfold ret; rewrite IH;
      cbn [schedule notesToCreate updatedCount skippedCount result];
      by rewrite <- app_assoc.
Qed.

(** The end of [processQuestionGroup] when no card was updated. *)
Lemma processQuestionGroup_creates_only (anki : AnkiConnect)
    (existingNoteBehavior : option Behavior) (deck : str)
    (questions : list QuizQuestion) (ankiNotes : list AnkiNote)
    (matches : list MatchInfo) (result0 : AnkiExportResult)
    (log : list request) (created : list AnkiNote) (skippedCards : nat) :
  reconcileLoop anki (default Skip existingNoteBehavior) deck 0 ankiNotes matches
    {| notesToCreate := []; updatedCount := 0; skippedCount := 0;
       result := result0 |} log
  = (Ok {| notesToCreate := created; updatedCount := 0;
           skippedCount := skippedCards; result := result0 |}, log) ->
  creates_only anki created skippedCards result0 log
    (processQuestionGroup anki existingNoteBehavior deck questions ankiNotes
       matches result0 log).
Proof.
  intros Hloop. unfold processQuestionGroup, creates_only. unfold bind at 1.
  rewrite Hloop. cbn [notesToCreate updatedCount skippedCount result].
  destruct created as [|note created].
  - eexists _, []. unfold ret. rewrite app_nil_r. split; [done|].
    cbn [success failed skipped]. repeat split; try done; lia.
  - destruct (addNotes_log anki (note :: created) log)
      as (results & adds & Hadd & Hadds).
    unfold bind. rewrite Hadd. unfold ret.
    match goal with |- context [countAdded ?d ?q ?i ?rs ?r'] =>
      destruct (countAdded_counts d q rs i r') as (Hs & Hf & Hk);
      exists (countAdded d q i rs r'), adds
    end.
    split; [done|]. rewrite Hk. split; [done|]. split; [done|].
    exists results. rewrite Hs, Hf. cbn [success failed].
    repeat split; try done; lia.
Qed.

(** X23. Under the skip policy, which is also the policy when none is set,
    a card whose lookup found a record is counted as skipped and gives rise
    to no request: nothing is updated, and the notes sent for creation are
    exactly the cards whose lookup found no record, in their order. *)
Theorem skip_policy_creates_unmatched_only (anki : AnkiConnect)
    (existingNoteBehavior : option Behavior) (deck : str)
    (questions : list QuizQuestion) (ankiNotes : list AnkiNote)
    (matches : list MatchInfo) (result0 : AnkiExportResult)
    (log : list request) :
  default Skip existingNoteBehavior = Skip ->
  creates_only anki (unmatchedFrom 0 ankiNotes matches)
    (matchedCount 0 ankiNotes matches) result0 log
    (processQuestionGroup anki existingNoteBehavior deck questions ankiNotes
       matches result0 log).
Proof.
  intros Hb. apply processQuestionGroup_creates_only.
  by rewrite Hb, reconcileLoop_skip.
Qed.

Lemma skip_policy_creates_unmatched_only_witness :
  creates_only acceptingServer
    (unmatchedFrom 0 [clozeNote; basicNote [] []] [clozeMatch])
    (matchedCount 0 [clozeNote; basicNote [] []] [clozeMatch]) emptyResult []
    (processQuestionGroup acceptingServer None (txt "definition") []
       [clozeNote; basicNote [] []] [clozeMatch] emptyResult []).
Proof. apply skip_policy_creates_unmatched_only. reflexivity. Defined.

(** X24. Under the create policy every card is sent for creation, whether
    its lookup found a record or not: nothing is skipped and nothing is
    updated. *)
Theorem create_policy_creates_all (anki : AnkiConnect) (deck : str)
    (questions : list QuizQuestion) (ankiNotes : list AnkiNote)
    (matches : list MatchInfo) (result0 : AnkiExportResult)
    (log : list request) :
  creates_only anki ankiNotes 0 result0 log
    (processQuestionGroup anki (Some Create) deck questions ankiNotes matches
       result0 log).
Proof.
  apply processQuestionGroup_creates_only. cbn [default].
  by rewrite reconcileLoop_create.
Qed.

Lemma reconcileNote_handled (anki : AnkiConnect) (behavior : Behavior)
    (deck : str) (note : AnkiNote) (m : option MatchInfo) (st : Progress)
    (log : list request) :
  exists st' log',
    reconcileNote anki behavior deck note m st log = (Ok st', log') /\
    handled st' = S (handled st) /\
    success (result st') = success (result st) /\
    skipped (result st') = skipped (result st).
Proof.
  unfold reconcileNote, handled.
  destruct (matchedId m) as [id|]; [destruct behavior|].
  - eexists _, _. split; [done|]. simpl. repeat split; lia.
  - destruct (differs note _).
    + destruct (updateNoteFields_log anki id (fieldsToUpdate note) log)
        as [ok Hok].
      unfold bind. rewrite Hok. destruct ok; eexists _, _;
        (split; [done|]); simpl; repeat split; lia.
    + eexists _, _. split; [done|]. simpl. repeat split; lia.
  - eexists _, _. split; [done|]. simpl. rewrite length_app. simpl.
    repeat split; lia.
  - eexists _, _. split; [done|]. simpl. rewrite length_app. simpl.
    repeat split; lia.
Qed.

Lemma reconcileLoop_handled (anki : AnkiConnect) (behavior : Behavior)
    (deck : str) (matches : list MatchInfo) (ankiNotes : list AnkiNote) :
  forall (i : nat) (st : Progress) (log : list request),
    exists st' log',
      reconcileLoop anki behavior deck i ankiNotes matches st log
      = (Ok st', log') /\
      handled st' = handled st + length ankiNotes /\
      success (result st') = success (result st) /\
      skipped (result st') = skipped (result st).
Proof.
  induction ankiNotes as [|note ankiNotes IH]; intros i st log;
    cbn [reconcileLoop].
  - exists st, log. cbn [length]. repeat split; lia.
  - destruct (reconcileNote_handled anki behavior deck note (matches !! i) st log)
      as (st1 & log1 & H1 & Hh1 & Hs1 & Hk1).
    unfold bind. rewrite H1.
    destruct (IH (S i) st1 log1) as (st' & log' & H & Hh & Hs & Hk).
    exists st', log'. split; [done|]. cbn [length]. repeat split; lia.
Qed.

Lemma addNotes_aligned (anki : AnkiConnect) (notes : list AnkiNote)
    (log : list request) :
  bulk_replies_aligned anki ->
  exists results log',
    addNotes anki notes log = (Ok results, log') /\
    length results = length notes.
Proof.
  intros Haligned.
  destruct (on_addNotes anki log notes) as [msg|error result] eqn:E.
  - eexists _, _. split.
    + apply addNotes_bulk_failed. unfold bulk_fails. by rewrite E.
    + apply individualResults_length.
  - destruct (truthy error) eqn:Herr.
    + eexists _, _. split.
      * apply addNotes_bulk_failed. unfold bulk_fails. by rewrite E.
      * apply individualResults_length.
    + destruct (Haligned _ _ _ _ E Herr) as (ids & -> & Hlen).
      eexists _, _. split; [by eapply addNotes_bulk_ok | done].
Qed.

(** X25. When the server answers an accepted bulk creation with one result
    per note, the report of a group counts every card of the group exactly
    once, whatever the policy and whatever fails: the numbers of successes,
    failures and skipped cards grow, together, by the number of cards, and
    nothing is thrown. *)
Theorem processQuestionGroup_counts_every_card (anki : AnkiConnect)
    (existingNoteBehavior : option Behavior) (deck : str)
    (questions : list QuizQuestion) (ankiNotes : list AnkiNote)
    (matches : list MatchInfo) (result0 : AnkiExportResult)
    (log : list request) :
  bulk_replies_aligned anki ->
  exists r log',
    processQuestionGroup anki existingNoteBehavior deck questions ankiNotes
      matches result0 log = (Ok r, log') /\
    counted r = counted result0 + length ankiNotes.
Proof.
  intros Haligned. unfold processQuestionGroup. unfold bind at 1.
  destruct (reconcileLoop_handled anki (default Skip existingNoteBehavior) deck
              matches ankiNotes 0
              {| notesToCreate := []; updatedCount := 0; skippedCount := 0;
                 result := result0 |} log)
    as (st & log1 & -> & Hh & Hs & Hk).
  unfold handled in Hh. cbn [notesToCreate updatedCount skippedCount result length]
    in Hh, Hs, Hk.
  destruct (notesToCreate st) as [|note created] eqn:Hc.
  - eexists _, _. split; [done|]. unfold counted. simpl in *. lia.
  - destruct (addNotes_aligned anki (note :: created) log1 Haligned)
      as (results & log' & Hadd & Hlen).
    unfold bind. rewrite Hadd. unfold ret. eexists _, _. split; [done|].
    unfold counted.
    match goal with |- context [countAdded ?d ?q ?i ?rs ?r'] =>
      destruct (countAdded_counts d q rs i r') as (-> & -> & ->) end.
    pose proof (accepted_rejected results). simpl in *. lia.
Qed.

Lemma acceptingServer_aligned : bulk_replies_aligned acceptingServer.
Proof.
  intros log notes error result [= <- <-] _. eexists. split; [done|].
  by rewrite length_map.
Qed.

Lemma processQuestionGroup_counts_every_card_witness :
  exists r log',
    processQuestionGroup acceptingServer (Some Update) (txt "definition") []
      [clozeNote; basicNote [] []] [clozeMatch] emptyResult []
    = (Ok r, log') /\
    counted r = counted emptyResult + length [clozeNote; basicNote [] []].
Proof.
  apply processQuestionGroup_counts_every_card, acceptingServer_aligned.
Defined.

Lemma reconcileNote_update_created (anki : AnkiConnect) (deck : str)
    (note : AnkiNote) (m : option MatchInfo) (st : Progress)
    (log : list request) :
  exists st',
    reconcileNote anki Update deck note m st log =
    (Ok st',
     log ++ match changed note m with
            | Some id => [UpdateNoteFields id (fieldsToUpdate note)]
            | None => []
            end) /\
    notesToCreate st'
    = notesToCreate st ++ match matchedId m with
                          | Some _ => []
                          | None => [note]
                          end.
Proof.
  unfold reconcileNote, changed.
  destruct (matchedId m) as [id|];
    [|eexists; unfold ret; by rewrite app_nil_r].
  destruct (differs note _);
    [|eexists; unfold ret; by rewrite !app_nil_r].
  unfold bind.
  destruct (updateNoteFields_log anki id (fieldsToUpdate note) log) as [ok ->].
  destruct ok; eexists; (split; [done|]); cbn; by rewrite app_nil_r.
Qed.

Lemma reconcileLoop_update_created (anki : AnkiConnect) (deck : str)
    (matches : list MatchInfo) (ankiNotes : list AnkiNote) :
  forall (i : nat) (st : Progress) (log : list request),
    exists st',
      reconcileLoop anki Update deck i ankiNotes matches st log =
      (Ok st', log ++ updateCalls i ankiNotes matches) /\
      notesToCreate st'
      = notesToCreate st ++ unmatchedFrom i ankiNotes matches.
Proof.
  induction ankiNotes as [|note ankiNotes IH]; intros i st log;
    cbn [reconcileLoop updateCalls unmatchedFrom].
  - eexists. unfold ret. by rewrite !app_nil_r.
  - unfold bind.
    destruct (reconcileNote_update_created anki deck note (matches !! i) st log)
      as (st1 & -> & H1).
    destruct (IH (S i) st1
                (log ++ match changed note (matches !! i) with
                        | Some id => [UpdateNoteFields id (fieldsToUpdate note)]
                        | None => []
                        end)) as (st2 & -> & H2).
    exists st2. split; [by rewrite <- app_assoc|].
    rewrite H2, H1, <- app_assoc. by destruct (matchedId (matches !! i)).
Qed.

(** X26. Under the update policy the requests of a group are the updates of
    the changed cards, in the order of the cards, followed by the creation
    of the cards whose lookup found no record, and of these only: a card
    that has a record is never sent for creation. *)
Theorem update_policy_creates_unmatched_only (anki : AnkiConnect) (deck : str)
    (questions : list QuizQuestion) (ankiNotes : list AnkiNote)
    (matches : list MatchInfo) (result0 : AnkiExportResult)
    (log : list request) :
  exists r adds,
    processQuestionGroup anki (Some Update) deck questions ankiNotes matches
      result0 log
    = (Ok r, log ++ updateCalls 0 ankiNotes matches ++ adds) /\
    match unmatchedFrom 0 ankiNotes matches with
    | [] => adds = []
    | note :: created =>
        exists results,
          addNotes anki (note :: created)
            (log ++ updateCalls 0 ankiNotes matches)
          = (Ok results, (log ++ updateCalls 0 ankiNotes matches) ++ adds)
    end.
Proof.
  unfold processQuestionGroup. unfold bind at 1.
  change (default Skip (Some Update)) with Update.
  destruct (reconcileLoop_update_created anki deck matches ankiNotes 0
              {| notesToCreate := []; updatedCount := 0; skippedCount := 0;
                 result := result0 |} log) as (st & -> & Hc).
  cbn [notesToCreate app] in Hc. rewrite Hc.
  destruct (unmatchedFrom 0 ankiNotes matches) as [|note created].
  - eexists _, []. unfold ret. by rewrite app_nil_r.
  - destruct (addNotes_log anki (note :: created)
                (log ++ updateCalls 0 ankiNotes matches))
      as (results & adds & Hadd & _).
    unfold bind. rewrite Hadd. unfold ret. eexists _, adds.
    split; [by rewrite <- app_assoc|]. by exists results.
Qed.

(** ** The link of the first line *)

(** A greedy quantifier stops at a split where the rest of the pattern
    succeeds and succeeds at no longer one. *)
Lemma iterate_none_longer (p : ascii -> bool) (g : gmap nat str)
    (k : cursor -> option cursor) (rs : str) :
  forall sn,
    (forall t1 c t2, rs = t1 ++ c :: t2 -> forallb p (t1 ++ [c]) = true ->
       k (Cursor (rev (t1 ++ [c]) ++ sn) t2 g) = None) ->
    iterate p true 0 None sn rs g k = None.
Proof.
  induction rs as [|c rs IH]; intros sn H; [done|]. cbn [iterate].
  destruct (p c) eqn:Hc; [|done].
  change (Init.Nat.pred <$> None) with (@None nat).
  rewrite repeat_eq. rewrite IH.
  - apply (H [] c rs eq_refl). cbn. by rewrite Hc.
  - intros t1 c' t2 -> Hp.
    specialize (H (c :: t1) c' t2 eq_refl). cbn [app forallb rev] in H.
    rewrite Hc in H. specialize (H Hp).
    by rewrite <- app_assoc in H.
Qed.

Lemma repeat_greedy_pick (p : ascii -> bool) (g : gmap nat str)
    (k : cursor -> option cursor) (z : cursor) (rs' : str) (t : str) :
  forall (lo : nat) (sn : str),
    forallb p t = true -> lo <= length t ->
    k (Cursor (rev t ++ sn) rs' g) = Some z ->
    (forall t1 c t2, rs' = t1 ++ c :: t2 -> forallb p (t1 ++ [c]) = true ->
       k (Cursor (rev (t1 ++ [c]) ++ rev t ++ sn) t2 g) = None) ->
    repeat p true lo None sn (t ++ rs') g k = Some z.
Proof.
  induction t as [|c t IH]; intros lo sn Hp Hlo Hk Hlong.
  - cbn [length] in Hlo. assert (lo = 0) as -> by lia.
    rewrite repeat_eq. cbn [app] in *.
    by rewrite (iterate_none_longer p g k rs' sn Hlong).
  - cbn [forallb] in Hp. apply andb_true_iff in Hp as [Hc Hp].
    cbn [length] in Hlo. rewrite repeat_eq. cbn [app iterate]. rewrite Hc.
    change (Init.Nat.pred <$> None) with (@None nat).
    assert (repeat p true (Nat.pred lo) None (c :: sn) (t ++ rs') g k = Some z)
      as Hrec.
    { apply IH; [done | lia | |].
      - cbn [rev] in Hk. by rewrite <- app_assoc in Hk.
      - intros t1 c' t2 E Hp'. specialize (Hlong t1 c' t2 E Hp').
        cbn [rev] in Hlong. by rewrite <- !app_assoc in Hlong. }
    destruct lo as [|lo]; [|done]. cbn [Nat.pred] in Hrec. by rewrite Hrec.
Qed.

Lemma filenamePattern_first_line (basename after : str) :
  basename <> [] -> forallb not_angle_nl basename = true ->
  (forall c r, after = c :: r -> not_angle_nl c = false) ->
  run true filenamePattern (Cursor [] (basename ++ txt ".md" ++ after) ∅) Some
  = Some (Cursor (rev (basename ++ txt ".md")) after
            {[ 1 := basename ++ txt ".md" ]}).
Proof.
  intros Hne Hp Hafter. unfold filenamePattern, plus.
  cbn [seq foldr run at_bol seen rest groups].
  erewrite repeat_greedy_pick; [reflexivity | exact Hp | | |].
  - destruct basename; [done | cbn; lia].
  - rewrite run_lit. cbn [rest seen groups run].
    assert (startsWith (txt ".md") (txt ".md" ++ after) = true) as ->
      by (apply startsWith_spec; by eexists).
    change (drop (length (txt ".md")) (txt ".md" ++ after)) with after.
    do 2 f_equal.
    + by rewrite rev_app_distr, app_nil_r.
    + rewrite insert_empty. f_equal.
      apply between_ahead. split; cbn [seen rest].
      * by rewrite <- app_assoc.
      * by rewrite rev_app_distr, !app_nil_r.
  - intros t1 c t2 E Hp'. rewrite run_lit. cbn [rest].
    assert (startsWith (txt ".md") t2 = false) as ->; [|done].
    change (txt ".md") with ["."%char; "m"%char; "d"%char] in *.
    destruct t1 as [|a1 [|a2 [|a3 t1]]]; cbn [app] in E.
    + injection E as <- <-. reflexivity.
    + injection E as <- <- <-. reflexivity.
    + injection E as <- <- <- <-. destruct after as [|c' r]; [done|].
      cbn [startsWith]. destruct (is_char "." c') eqn:Ec; [|done].
      apply is_char_true in Ec as <-. by specialize (Hafter _ _ eq_refl).
    + injection E as <- <- <- E. exfalso.
      cbn [app forallb] in Hp'.
      destruct t1 as [|b t1]; cbn [app forallb] in E, Hp';
        rewrite (Hafter _ _ E) in Hp'; by rewrite !andb_false_r in Hp'.
Qed.

(** X27. The file name with which the builders start the question of a
    card, when a line feed follows it, is turned into the link to the file
    by [convertFilenameToLink]: for a name that is not empty and holds no
    angle bracket, the converted text starts with the link of the whole
    name. *)
Theorem convertFilenameToLink_first_line (basename rest' vaultName : str) :
  basename <> [] -> forallb not_angle_nl basename = true ->
  exists tail,
    convertFilenameToLink
      (generateFilenameDisplay (Some basename) ++ "010"%char :: rest') vaultName
    = filenameLink vaultName (generateFilenameDisplay (Some basename)) ++ tail.
Proof.
  intros Hne Hp. unfold convertFilenameToLink, replace_all_with.
  cbn [generateFilenameDisplay replace_loop_with].
  rewrite <- app_assoc.
  rewrite (search_here true filenamePattern []
             (basename ++ txt ".md" ++ "010"%char :: rest') _
             (filenamePattern_first_line basename ("010"%char :: rest') Hne Hp
                ltac:(by intros c r [= <- _]))).
  rewrite between_self. cbn [app groups].
  rewrite lookup_singleton_eq. cbn [default]. by eexists.
Qed.

Lemma convertFilenameToLink_first_line_witness :
  exists tail,
    convertFilenameToLink
      (generateFilenameDisplay (Some (txt "My note")) ++ "010"%char :: txt "
definition") (txt "brain")
    = filenameLink (txt "brain") (generateFilenameDisplay (Some (txt "My note")))
      ++ tail.
Proof. by apply convertFilenameToLink_first_line. Defined.

(** ** Normalisation *)

Lemma collapse_spaces_length (s : str) :
  forall b, length (collapse_spaces b s) <= length s.
Proof.
  induction s as [|c s IH]; intros b; [done|]. cbn [collapse_spaces].
  destruct (is_space c); [destruct b|]; cbn [length];
    [pose proof (IH true) | pose proof (IH true) | pose proof (IH false)]; lia.
Qed.

Lemma collapse_spaces_idem (s : str) :
  forall b, collapse_spaces b (collapse_spaces b s) = collapse_spaces b s.
Proof.
  induction s as [|c s IH]; intros b; [done|]. cbn [collapse_spaces].
  destruct (is_space c) eqn:Hc.
  - destruct b; [apply IH|]. cbn [collapse_spaces].
    change (is_space " ") with true. cbn iota. by rewrite IH.
  - cbn [collapse_spaces]. rewrite Hc. destruct b; by rewrite IH.
Qed.

(** A prefix of a text with single spaces has single spaces. *)
Lemma collapse_spaces_prefix (a w : str) :
  forall b, collapse_spaces b (a ++ w) = a ++ w -> collapse_spaces b a = a.
Proof.
  induction a as [|c a IH]; intros b; [done|]. cbn [app collapse_spaces].
  destruct (is_space c) eqn:Hc.
  - destruct b.
    + intros E. pose proof (collapse_spaces_length (a ++ w) true) as Hlen.
      rewrite E in Hlen. cbn [length] in Hlen. lia.
    + intros [= <- E]. by rewrite (IH true E).
  - intros [= E]. by rewrite (IH false E).
Qed.

Lemma collapse_spaces_trimStart (s : str) :
  collapse_spaces false s = s ->
  collapse_spaces false (trimStart s) = trimStart s.
Proof.
  destruct s as [|c s]; [done|]. cbn [collapse_spaces trimStart].
  destruct (is_space c) eqn:Hc;
    [|intros [= E]; cbn [collapse_spaces]; by rewrite Hc, E].
  intros [= _ E]. destruct s as [|d s]; [done|].
  cbn [collapse_spaces trimStart] in E |- *.
  destruct (is_space d) eqn:Hd.
  - pose proof (collapse_spaces_length s true) as Hlen.
    rewrite E in Hlen. cbn [length] in Hlen. lia.
  - cbn [collapse_spaces]. by rewrite Hd.
Qed.

Lemma collapse_spaces_trim (s : str) :
  collapse_spaces false s = s -> collapse_spaces false (trim s) = trim s.
Proof.
  intros H%collapse_spaces_trimStart. unfold trim, trimEnd.
  destruct (trimStart_suffix (rev (trimStart s))) as (w & Hw & _).
  apply (f_equal (@rev ascii)) in Hw.
  rewrite rev_involutive, rev_app_distr in Hw.
  apply (collapse_spaces_prefix _ (rev w)). by rewrite <- Hw.
Qed.

Lemma normal_char_after (c : ascii) :
  let c' := if is_word (lower_char c) || is_space (lower_char c)
            then lower_char c else " "%char in
  is_space c' || normal_char c' = true.
Proof. destruct c as [[] [] [] [] [] [] [] []]; reflexivity. Qed.

Lemma normal_char_fixed (c : ascii) :
  normal_char c = true ->
  lower_char c = c /\ (is_word c || is_space c) = true.
Proof. destruct c as [[] [] [] [] [] [] [] []]; by intros [=]. Qed.

Lemma collapse_spaces_normal (s : str) :
  forall b,
    Forall (fun c => is_space c || normal_char c = true) s ->
    forallb normal_char (collapse_spaces b s) = true.
Proof.
  induction s as [|c s IH]; intros b H; [done|].
  apply Forall_cons in H as [Hc H]. cbn [collapse_spaces].
  destruct (is_space c) eqn:Hs.
  - destruct b; [by apply IH|]. cbn [forallb]. by rewrite IH.
  - cbn [forallb]. cbn [orb] in Hc. by rewrite Hc, IH.
Qed.

Lemma normalize_normal (s : str) : forallb normal_char (normalize s) = true.
Proof.
  rewrite normalize_steps.
  apply forallb_forall. intros c Hc%list_elem_of_In. revert c Hc.
  apply Forall_forall, Forall_trim, Forall_forall.
  intros c Hc%list_elem_of_In. revert c Hc. apply forallb_forall.
  apply collapse_spaces_normal.
  unfold strip_punctuation, toLowerCase. rewrite map_map.
  apply Forall_forall. intros c' (c & <- & _)%list_elem_of_In%in_map_iff.
  apply normal_char_after.
Qed.

Lemma normalize_idem (s : str) : normalize (normalize s) = normalize s.
Proof.
  pose proof (normalize_normal s) as Hn.
  rewrite (normalize_steps (normalize s)).
  assert (strip_punctuation (toLowerCase (normalize s)) = normalize s) as ->.
  { unfold strip_punctuation, toLowerCase. rewrite map_map.
    induction (normalize s) as [|c n IH]; [done|].
    cbn [forallb] in Hn. apply andb_true_iff in Hn as [Hc Hn].
    destruct (normal_char_fixed c Hc) as [Hl Hw].
    cbn [map]. by rewrite Hl, Hw, IH. }
  rewrite normalize_steps.
  rewrite collapse_spaces_trim by apply collapse_spaces_idem.
  apply trim_trim.
Qed.

(** X28. Normalising a text that is already normalised changes nothing, so
    that the similarity test gives the same verdict on a text and on its
    normal form. *)
Theorem isContentSimilar_normalized (content1 content2 : str) :
  normalize (normalize content1) = normalize content1 /\
  isContentSimilar (normalize content1) content2
  = isContentSimilar content1 content2 /\
  isContentSimilar content1 (normalize content2)
  = isContentSimilar content1 content2.
Proof.
  split; [apply normalize_idem|]. unfold isContentSimilar.
  by rewrite !normalize_idem.
Qed.
